(** * The image-flashing core of ttbl.images

    A shallow embedding of the orchestration code of
    [ttbd/ttbl/images.py]: the driver classes [impl_c] and [impl2_c]
    and the methods [_hash_record], [_flash_parallel_do],
    [_flash_consoles_disable], [_flash_consoles_enable],
    [_flash_parallel] and [put_flash] of class [interface].

    The code is sequential Python that talks to collaborators (the
    power rail, the consoles, the flasher drivers, the clock, the
    metadata store, the file system).  Every call to a collaborator is
    an [event]; a computation reads the events that happened before it
    started, and yields an outcome, the events it emitted itself and
    the metadata store it leaves behind.  What a collaborator answers
    is given by an environment [Env] as a function of the whole history
    of calls made so far, so that the theorems hold for any
    deterministic behaviour of drivers, clock and hardware.

    Time is in seconds, as rational numbers.  The [while] loop of the
    executor is unrolled a bounded number of times ([fuel]); a run that
    needs more ends with the outcome [Fuel].

    Left out: the log lines ([target.log]) and the table [image_names]
    that only feeds them; the text of the two messages of the executor,
    which are kept as their arguments; what the drivers themselves
    write in their context. *)

From Stdlib Require Import QArith Qminmax ZArith String List Lia Lqa.
From stdpp Require Import base gmap sets list strings.

Local Open Scope Z_scope.
Local Open Scope string_scope.
Local Open Scope list_scope.

(** ** Data model *)

(** A power sequence is a list of steps such as [("off", "full")],
    [("wait", 3)], [("on", "flasher/image0 connector")]; the flashing
    code hands it to the power interface unread. *)
Inductive power_arg :=
| ArgName (component : string)
| ArgSeconds (seconds : Q).

Definition power_sequence := list (string * power_arg).

(** [images]: an ordered dictionary from image type to file name. *)
Definition image_map := list (string * string).

(** The two driver classes.  An [impl2_c] object carries the
    attributes [check_period] and [retries] and the methods
    [flash_start], [flash_check_done], [flash_post_check] and
    [flash_kill]; a plain [impl_c] object has none of them, only
    [flash]. *)
Inductive impl_class :=
| impl_c
| impl2_c (check_period : Q) (retries : Z).

(** A driver object.  [impl_id] stands for the identity of the Python
    object, which is what dictionaries keyed by drivers hash and
    compare. *)
Record impl := Impl {
  impl_id : nat;
  cls : impl_class;
  power_sequence_pre : option power_sequence;
  power_sequence_post : option power_sequence;
  consoles_disable : list string;
  parallel : bool;
  estimated_duration : Z;
}.

(** [parallel] and [serial] in [put_flash], and the [parallel] argument
    of the executor: an ordered dictionary from driver to the images
    it has to flash. *)
Definition plan := list (impl * image_map).

(** The per-driver [context] dictionary; the executor itself touches
    the keys [ts0] and [retry_count] only. *)
Record context := Context {
  ts0 : Q;
  retry_count : Z;
}.

(** What [flash_post_check] returns when it is not [None]. *)
Definition diagnostic := string.

(** The two messages the executor builds; they are kept with their
    arguments instead of being formatted to text.
    [MsgAborting]: "%s/%s: flashing failed %d times, aborting: %s";
    [MsgTimedout]: "%s/%s: flashing failed: timedout after %ds". *)
Inductive msg :=
| MsgAborting (i : impl) (images : image_map) (retry_count : Z) (r : diagnostic)
| MsgTimedout (all_images : list string) (estimated_duration : Z).

(** Exceptions.  [RuntimeError], [PermissionError] are raised by the
    code itself; [AttributeError], [KeyError] and [UnboundLocalError]
    by the interpreter; [Raised] is any exception that comes out of a
    collaborator. *)
Inductive exn :=
| RuntimeError (m : msg)
| PermissionError (img_name : string)
| AttributeError (attribute : string)
| KeyError (key : nat)
| UnboundLocalError (variable : string)
| Raised (what : string).

(** Calls to collaborators. *)
Inductive event :=
| EvPowerSequence (sequence : power_sequence)
| EvConsoleDisable (console_name : string)
| EvConsoleEnable (console_name : string)
| EvTimestamp
| EvTime
| EvSleep (seconds : Q)
| EvFlashStart (i : impl) (images : image_map) (ctx : context)
| EvFlashCheckDone (i : impl) (images : image_map) (ctx : context)
| EvFlashPostCheck (i : impl) (images : image_map) (ctx : context)
| EvFlashKill (i : impl) (images : image_map) (ctx : context) (m : msg)
| EvHashFile (name : string)
| EvFsdbSet (key : string) (value : string)
| EvLock (lock_file_name : string)
| EvUnlock (lock_file_name : string)
| EvDecompress (file_name : string)
| EvFileTouch (file_name : string).

(** How a computation ends: it returns, it raises, or the bound put on
    the iterations of the supervision loop ran out ([Fuel]). *)
Inductive outcome (A : Type) :=
| Ok (a : A)
| Err (e : exn)
| Fuel.
Arguments Ok {A} a.
Arguments Err {A} e.
Arguments Fuel {A}.

(** What a collaborator answers when it is asked for a value. *)
Inductive answer (A : Type) :=
| Returns (a : A)
| Raises (what : string).
Arguments Returns {A} a.
Arguments Raises {A} what.

(** The collaborators.  Each answer may depend on all the calls made
    before ([list event]).  For a call that returns nothing the answer
    is [None] when it returns and [Some what] when it raises.  The registry of drivers, the table of allowed paths and
    the state directory do not change while a request runs. *)
Record Env := {
  (* time.time() *)
  time_time : list event -> Q;
  (* target.power.sequence(target, sequence) *)
  power_sequence_run : power_sequence -> list event -> option string;
  (* target.console.put_disable / put_enable *)
  console_put_disable : string -> list event -> option string;
  console_put_enable : string -> list event -> option string;
  (* the methods of an impl2_c driver *)
  drv_flash_start : impl -> image_map -> context -> list event -> option string;
  drv_flash_check_done : impl -> image_map -> context -> list event -> answer bool;
  drv_flash_post_check :
    impl -> image_map -> context -> list event -> answer (option diagnostic);
  drv_flash_kill : impl -> image_map -> context -> msg -> list event -> option string;
  (* the bytes of a file, if it can be read *)
  file_contents : string -> list event -> answer (list Byte.byte);
  (* hashlib.sha512().hexdigest() of the bytes fed to it *)
  sha512_hexdigest : list Byte.byte -> string;
  (* target.fsdb.set(key, value) *)
  fsdb_set : string -> string -> list event -> option string;
  (* self.impl_get_by_name(img_type, "image type") *)
  impl_get_by_name : string -> answer (impl * string);
  (* ttbl.store.paths_allowed, an ordered dictionary *)
  paths_allowed : list (string * string);
  (* target.state_dir *)
  state_dir : string;
  (* commonl.mkid *)
  mkid : string -> string;
  (* ttbl.process_posix_file_lock_c(lock_file_name).__enter__ *)
  lock_acquire : string -> list event -> option string;
  (* commonl.maybe_decompress(file_name) *)
  maybe_decompress : string -> list event -> answer string;
  (* commonl.file_touch(file_name) *)
  file_touch : string -> list event -> option string;
}.

(** ** The monad of computations *)

(** The result of running a computation. *)
Record run (A : Type) := Run {
  out : outcome A;
  emitted : list event;
  store : gmap string string;
}.
Arguments Run {A} out emitted store.
Arguments out {A} r.
Arguments emitted {A} r.
Arguments store {A} r.

(** A computation is run after the events [past], on the metadata
    store [s]. *)
Definition M (A : Type) := list event -> gmap string string -> run A.

Definition ret {A} (a : A) : M A := fun _ s => Run (Ok a) [] s.

Definition raise {A} (e : exn) : M A := fun _ s => Run (Err e) [] s.

Definition out_of_fuel {A} : M A := fun _ s => Run Fuel [] s.

Definition bind {A B} (m : M A) (f : A -> M B) : M B :=
  fun past s =>
    let r := m past s in
    match out r with
    | Ok a =>
        let r' := f a (past ++ emitted r) (store r) in
        Run (out r') (emitted r ++ emitted r') (store r')
    | Err e => Run (Err e) (emitted r) (store r)
    | Fuel => Run Fuel (emitted r) (store r)
    end.

Declare Scope flash_scope.
Delimit Scope flash_scope with flash.
Notation "x <- m ;; k" := (bind m (fun x => k))
  (at level 100, m at next level, right associativity) : flash_scope.
Notation "m ;;; k" := (bind m (fun _ => k))
  (at level 100, right associativity) : flash_scope.
Local Open Scope flash_scope.

(** [try: body finally: handler].  The handler runs whether the body
    returned or raised; an exception of the handler replaces the one of
    the body.  A body that never ends never reaches the handler. *)
Definition try_finally {A} (body : M A) (handler : M unit) : M A :=
  fun past s =>
    let r := body past s in
    match out r with
    | Fuel => Run Fuel (emitted r) (store r)
    | _ =>
        let r' := handler (past ++ emitted r) (store r) in
        match out r' with
        | Ok _ => Run (out r) (emitted r ++ emitted r') (store r')
        | Err e => Run (Err e) (emitted r ++ emitted r') (store r')
        | Fuel => Run Fuel (emitted r ++ emitted r') (store r')
        end
    end.

(** A call that returns nothing. *)
Definition call (e : event) (ans : list event -> option string) : M unit :=
  fun past s =>
    match ans past with
    | None => Run (Ok tt) [e] s
    | Some what => Run (Err (Raised what)) [e] s
    end.

(** A call that returns a value. *)
Definition ask {A} (e : event) (ans : list event -> answer A) : M A :=
  fun past s =>
    match ans past with
    | Returns a => Run (Ok a) [e] s
    | Raises what => Run (Err (Raised what)) [e] s
    end.

(** [a < b] on rationals, as a boolean. *)
Definition Qltb (a b : Q) : bool := negb (Qle_bool b a).

(** ** The code *)

Section Code.

Variable E : Env.

(** *** Collaborator calls *)

Definition time_now : M Q :=
  ask EvTime (fun past => Returns (time_time E past)).

Definition time_sleep (seconds : Q) : M unit :=
  call (EvSleep seconds) (fun _ => None).

Definition target_timestamp : M unit :=
  call EvTimestamp (fun _ => None).

Definition target_power_sequence (sequence : power_sequence) : M unit :=
  call (EvPowerSequence sequence) (power_sequence_run E sequence).

Definition target_console_put_disable (console_name : string) : M unit :=
  call (EvConsoleDisable console_name) (console_put_disable E console_name).

Definition target_console_put_enable (console_name : string) : M unit :=
  call (EvConsoleEnable console_name) (console_put_enable E console_name).

(** [commonl.hash_file(hashlib.sha512(), name).hexdigest()] *)
Definition hash_file_hexdigest (name : string) : M string :=
  ask (EvHashFile name)
      (fun past =>
         match file_contents E name past with
         | Returns bytes => Returns (sha512_hexdigest E bytes)
         | Raises what => Raises what
         end).

(** [target.fsdb.set(key, value)]: the store changes when the call
    returns. *)
Definition target_fsdb_set (key value : string) : M unit :=
  fun past s =>
    match fsdb_set E key value past with
    | None => Run (Ok tt) [EvFsdbSet key value] (<[key := value]> s)
    | Some what => Run (Err (Raised what)) [EvFsdbSet key value] s
    end.

(** *** Attributes and methods of the drivers

    Reading [impl.check_period] or [impl.retries], or calling one of
    the [impl2_c] methods, on an object of class [impl_c] raises
    [AttributeError]. *)

Definition get_check_period (i : impl) : M Q :=
  match cls i with
  | impl2_c check_period _ => ret check_period
  | impl_c => raise (AttributeError "check_period")
  end.

Definition get_retries (i : impl) : M Z :=
  match cls i with
  | impl2_c _ retries => ret retries
  | impl_c => raise (AttributeError "retries")
  end.

Definition flash_start (i : impl) (images : image_map) (ctx : context) : M unit :=
  match cls i with
  | impl2_c _ _ =>
      call (EvFlashStart i images ctx) (drv_flash_start E i images ctx)
  | impl_c => raise (AttributeError "flash_start")
  end.

Definition flash_check_done (i : impl) (images : image_map) (ctx : context)
  : M bool :=
  match cls i with
  | impl2_c _ _ =>
      ask (EvFlashCheckDone i images ctx) (drv_flash_check_done E i images ctx)
  | impl_c => raise (AttributeError "flash_check_done")
  end.

Definition flash_post_check (i : impl) (images : image_map) (ctx : context)
  : M (option diagnostic) :=
  match cls i with
  | impl2_c _ _ =>
      ask (EvFlashPostCheck i images ctx) (drv_flash_post_check E i images ctx)
  | impl_c => raise (AttributeError "flash_post_check")
  end.

Definition flash_kill (i : impl) (images : image_map) (ctx : context) (m : msg)
  : M unit :=
  match cls i with
  | impl2_c _ _ =>
      call (EvFlashKill i images ctx m) (drv_flash_kill E i images ctx m)
  | impl_c => raise (AttributeError "flash_kill")
  end.

(** [contexts[impl]] *)
Definition contexts_get (contexts : gmap nat context) (i : impl) : M context :=
  match contexts !! impl_id i with
  | Some ctx => ret ctx
  | None => raise (KeyError (impl_id i))
  end.

(** *** [interface._hash_record] *)

Fixpoint _hash_record (images : image_map) : M unit :=
  match images with
  | [] => ret tt
  | (image_type, name) :: images' =>
      ho <- hash_file_hexdigest name ;;
      target_fsdb_set ("interfaces.images." +:+ image_type +:+ ".last_sha512") ho ;;;
      target_fsdb_set ("interfaces.images." +:+ image_type +:+ ".last_name") name ;;;
      _hash_record images'
  end.

(** *** [interface._flash_parallel_do] *)

(** The variables set by the first loop. *)
Record started := Started {
  contexts : gmap nat context;
  max_estimated_duration : Z;
  min_check_period : Q;
  all_images : list string;
}.

(** The first loop: make a context for each driver and start it. *)
Fixpoint start_all (items : plan) (st : started) : M started :=
  match items with
  | [] => ret st
  | (i, images) :: items' =>
      now <- time_now ;;
      let ctx := {| ts0 := now; retry_count := 1 |} in
      let contexts' := <[impl_id i := ctx]> (contexts st) in
      let estimated_duration' :=
        Z.max (estimated_duration i) (max_estimated_duration st) in
      check_period_i <- get_check_period i ;;
      let check_period' := Qmin check_period_i (min_check_period st) in
      let all_images' := all_images st ++ map fst images in
      flash_start i images ctx ;;;
      start_all items'
        {| contexts := contexts';
           max_estimated_duration := estimated_duration';
           min_check_period := check_period';
           all_images := all_images' |}
  end.

(** [for impl, images in parallel.items(): impl.flash_kill(...)] *)
Fixpoint kill_all (items : plan) (contexts : gmap nat context) (m : msg)
  : M unit :=
  match items with
  | [] => ret tt
  | (i, images) :: items' =>
      ctx <- contexts_get contexts i ;;
      flash_kill i images ctx m ;;;
      kill_all items' contexts m
  end.

(** The variables the inner loop of the supervision changes. *)
Record polled := Polled {
  p_contexts : gmap nat context;
  done : gset string;
  done_impls : gset nat;
}.

(** What the body of the inner loop does for one driver that has
    finished ([flash_check_done] said [True]). *)
Definition verify (parallel_ : plan) (i : impl) (images : image_map)
    (ctx : context) (st : polled) : M polled :=
  r <- flash_post_check i images ctx ;;
  match r with
  | None =>
      _hash_record images ;;;
      ret {| p_contexts := p_contexts st;
             done := done st ∪ list_to_set (map fst images);
             done_impls := done_impls st ∪ {[ impl_id i ]} |}
  | Some r =>
      retries <- get_retries i ;;
      if (retry_count ctx <=? retries)%Z then
        let ctx' := {| ts0 := ts0 ctx; retry_count := retry_count ctx + 1 |} in
        flash_start i images ctx' ;;;
        ret {| p_contexts := <[impl_id i := ctx']> (p_contexts st);
               done := done st;
               done_impls := done_impls st |}
      else
        let m := MsgAborting i images (retry_count ctx) r in
        kill_all parallel_ (p_contexts st) m ;;;
        raise (RuntimeError m)
  end.

(** The inner loop: one pass over the drivers. *)
Fixpoint poll_all (parallel_ : plan) (loop_ts0 : Q) (items : plan) (st : polled)
  : M polled :=
  match items with
  | [] => ret st
  | (i, images) :: items' =>
      if decide (impl_id i ∈ done_impls st) then
        poll_all parallel_ loop_ts0 items' st
      else
        ctx <- contexts_get (p_contexts st) i ;;
        ts <- time_now ;;
        check_period_i <- get_check_period i ;;
        if Qltb check_period_i (ts - loop_ts0) then
          finished <- flash_check_done i images ctx ;;
          if finished then
            st' <- verify parallel_ i images ctx st ;;
            poll_all parallel_ loop_ts0 items' st'
          else poll_all parallel_ loop_ts0 items' st
        else poll_all parallel_ loop_ts0 items' st
  end.

(** The supervision loop, [while ts - ts0 < estimated_duration: ...
    else: ...], with a bound on the number of iterations. *)
Fixpoint supervise (fuel : nat) (parallel_ : plan) (sd : started)
    (loop_ts0 ts : Q) (st : polled) : M unit :=
  if Qltb (ts - loop_ts0) (inject_Z (max_estimated_duration sd)) then
    match fuel with
    | O => out_of_fuel
    | S fuel' =>
        target_timestamp ;;;
        time_sleep (min_check_period sd) ;;;
        st' <- poll_all parallel_ loop_ts0 parallel_ st ;;
        ts' <- time_now ;;
        if Nat.eqb (size (done_impls st')) (length parallel_) then ret tt
        else supervise fuel' parallel_ sd loop_ts0 ts' st'
    end
  else
    let m := MsgTimedout (all_images sd) (max_estimated_duration sd) in
    kill_all parallel_ (p_contexts st) m ;;;
    raise (RuntimeError m).

Definition _flash_parallel_do (fuel : nat) (parallel_ : plan) : M unit :=
  sd <- start_all parallel_
          {| contexts := ∅;
             max_estimated_duration := 0;
             min_check_period := 4;
             all_images := [] |} ;;
  loop_ts0 <- time_now ;;
  supervise fuel parallel_ sd loop_ts0 loop_ts0
    {| p_contexts := contexts sd; done := ∅; done_impls := ∅ |}.

(** *** [interface._flash_consoles_disable] and [_flash_consoles_enable] *)

Fixpoint consoles_each (f : string -> M unit) (console_names : list string)
  : M unit :=
  match console_names with
  | [] => ret tt
  | console_name :: console_names' =>
      f console_name ;;; consoles_each f console_names'
  end.

Fixpoint _flash_consoles_disable (parallel_ : plan) : M unit :=
  match parallel_ with
  | [] => ret tt
  | (i, _) :: parallel' =>
      consoles_each target_console_put_disable (consoles_disable i) ;;;
      _flash_consoles_disable parallel'
  end.

Fixpoint _flash_consoles_enable (parallel_ : plan) : M unit :=
  match parallel_ with
  | [] => ret tt
  | (i, _) :: parallel' =>
      consoles_each target_console_put_enable (consoles_disable i) ;;;
      _flash_consoles_enable parallel'
  end.

(** *** [interface._flash_parallel] *)

(** The log lines of [_flash_parallel] read [image_names[impl]], where
    [impl] is the variable left by the loop that fills [image_names]:
    it is unbound when [parallel] is empty.  Nothing else of the log
    lines and of [image_names] is kept. *)
Definition log_image_names_impl (parallel_ : plan) : M unit :=
  match parallel_ with
  | [] => raise (UnboundLocalError "impl")
  | _ :: _ => ret tt
  end.

Definition _flash_parallel (fuel : nat) (parallel_ : plan)
    (power_sequence_pre_ power_sequence_post_ : option power_sequence)
  : M unit :=
  match power_sequence_pre_ with
  | Some (step :: steps) => target_power_sequence (step :: steps)
  | _ => ret tt
  end ;;;
  try_finally
    (log_image_names_impl parallel_ ;;;
     _flash_consoles_disable parallel_ ;;;
     _flash_parallel_do fuel parallel_)
    (log_image_names_impl parallel_ ;;;
     _flash_consoles_enable parallel_ ;;;
     match power_sequence_post_ with
     | Some (step :: steps) => target_power_sequence (step :: steps)
     | _ => ret tt
     end).

(** *** [interface.put_flash] *)

(** [os.path.isabs] *)
Definition isabs (path : string) : bool := String.prefix "/" path.

(** [str.endswith] *)
Fixpoint endswith (s suffix : string) : bool :=
  if String.eqb s suffix then true
  else match s with
       | EmptyString => false
       | String _ s' => endswith s' suffix
       end.

(** [os.path.join(a, b)] for a relative [b]. *)
Definition path_join (a b : string) : string :=
  if String.eqb a "" || endswith a "/" then a +:+ b else a +:+ "/" +:+ b.

(** [s.replace(old, new, 1)]: the first occurrence of [old] is
    replaced. *)
Fixpoint replace_first (old new s : string) : string :=
  if String.prefix old s then
    new +:+ substring (String.length old) (String.length s - String.length old) s
  else match s with
       | EmptyString => EmptyString
       | String c s' => String c (replace_first old new s')
       end.

(** The loop over [ttbl.store.paths_allowed] with its [else] clause. *)
Fixpoint translate_allowed (allowed : list (string * string)) (img_name : string)
  : M string :=
  match allowed with
  | [] => raise (PermissionError img_name)
  | (path, path_translated) :: allowed' =>
      if String.prefix path img_name then
        ret (replace_first path path_translated img_name)
      else translate_allowed allowed' img_name
  end.

(** [d[key] = value] on an ordered dictionary. *)
Fixpoint od_set (key value : string) (d : image_map) : image_map :=
  match d with
  | [] => [(key, value)]
  | (key', value') :: d' =>
      if String.eqb key key' then (key', value) :: d'
      else (key', value') :: od_set key value d'
  end.

(** [bucket[impl][key] = value] on a [defaultdict(OrderedDict)]. *)
Fixpoint bucket_set (i : impl) (key value : string) (bucket : plan) : plan :=
  match bucket with
  | [] => [(i, [(key, value)])]
  | (i', d) :: bucket' =>
      if Nat.eqb (impl_id i) (impl_id i') then (i', od_set key value d) :: bucket'
      else (i', d) :: bucket_set i key value bucket'
  end.

(** [with ttbl.process_posix_file_lock_c(lock_file_name): body] *)
Definition with_lock {A} (lock_file_name : string) (body : M A) : M A :=
  call (EvLock lock_file_name) (lock_acquire E lock_file_name) ;;;
  try_finally body (call (EvUnlock lock_file_name) (fun _ => None)).

(** [self.impl_get_by_name(img_type, "image type")]: a look-up in the
    registry of the interface, which calls no collaborator. *)
Definition self_impl_get_by_name (img_type : string) : M (impl * string) :=
  match impl_get_by_name E img_type with
  | Returns found => ret found
  | Raises what => raise (Raised what)
  end.

(** The first loop of [put_flash]: resolve each image and put it in
    the bucket of its driver. *)
Fixpoint classify (user_path : string) (images : image_map)
    (serial parallel_ : plan) : M (plan * plan) :=
  match images with
  | [] => ret (serial, parallel_)
  | (img_type, img_name) :: images' =>
      found <- self_impl_get_by_name img_type ;;
      let '(i, img_type_real) := found in
      file_name <-
        (if negb (isabs img_name) then ret (path_join user_path img_name)
         else translate_allowed (paths_allowed E) img_name) ;;
      let lock_file_name :=
        path_join (state_dir E)
          ("images.flash.decompress." +:+ mkid E file_name +:+ ".lock") in
      real_file_name <-
        with_lock lock_file_name
          (ask (EvDecompress file_name) (maybe_decompress E file_name)) ;;
      let '(serial', parallel') :=
        if parallel i
        then (serial, bucket_set i img_type_real real_file_name parallel_)
        else (bucket_set i img_type_real real_file_name serial, parallel_) in
      (if String.prefix user_path real_file_name
       then call (EvFileTouch real_file_name) (file_touch E real_file_name)
       else ret tt) ;;;
      classify user_path images' serial' parallel'
  end.

(** [for impl, subimages in serial.items(): self._flash_parallel(...)] *)
Fixpoint flash_serial (fuel : nat) (serial : plan) : M unit :=
  match serial with
  | [] => ret tt
  | (i, subimages) :: serial' =>
      _flash_parallel fuel [(i, subimages)]
        (power_sequence_pre i) (power_sequence_post i) ;;;
      flash_serial fuel serial'
  end.

(** The attributes of the [interface] object the code reads. *)
Record interface := Interface {
  self_power_sequence_pre : option power_sequence;
  self_power_sequence_post : option power_sequence;
}.

(** The body of [put_flash] under [target.target_owned_and_locked(who)],
    from the value of [args['images']]; the result is the dictionary
    returned. *)
Definition put_flash (fuel : nat) (self : interface) (images : image_map)
    (user_path : string) : M (list (string * string)) :=
  buckets <- classify user_path images [] [] ;;
  let '(serial, parallel_) := buckets in
  target_timestamp ;;;
  flash_serial fuel serial ;;;
  match parallel_ with
  | _ :: _ =>
      _flash_parallel fuel parallel_
        (self_power_sequence_pre self) (self_power_sequence_post self)
  | [] => ret tt
  end ;;;
  ret [].

End Code.

(** ** Reading an image back: [interface.get_flash]

    [get_flash] resolves the image type, runs the pre power sequence
    of the interface, calls [flash_read] of the driver and runs the
    post power sequence.  It keeps no state and touches neither the
    metadata store nor the file system itself, so its computations
    are functions from the calls made so far to a result and the
    calls made. *)

(** The calls [get_flash] makes to its collaborators. *)
Inductive read_event :=
| RdPowerSequence (sequence : power_sequence)
| RdFlashRead (i : impl) (image file_name : string) (image_offset : Z)
    (read_bytes : option Z).

(** [NotImplementedError] is raised by [impl_c.flash_read];
    [ReadRaised] is any exception that comes out of a collaborator. *)
Inductive read_exn :=
| NotImplementedError (message : string)
| ReadRaised (what : string).

Inductive read_result (A : Type) :=
| ReadOk (a : A)
| ReadErr (e : read_exn).
Arguments ReadOk {A} a.
Arguments ReadErr {A} e.

(** The collaborators of [get_flash].  [read_method i] is the method
    [flash_read] of the class of the driver [i] when the class
    overrides the one of [impl_c] (as [sf100linux_c] does, by running
    the flasher program), and [None] when the class inherits it. *)
Record ReadEnv := {
  (* self.impl_get_by_name(image, "image type") *)
  read_impl_get_by_name : string -> answer (impl * string);
  (* target.power.sequence(target, sequence) *)
  read_power_sequence_run : power_sequence -> list read_event -> option string;
  read_method :
    impl -> option (string -> string -> Z -> option Z ->
                    list read_event -> option string);
}.

Definition RM (A : Type) := list read_event -> read_result A * list read_event.

Definition read_ret {A} (a : A) : RM A := fun _ => (ReadOk a, []).

Definition read_raise {A} (e : read_exn) : RM A := fun _ => (ReadErr e, []).

Definition read_bind {A B} (m : RM A) (f : A -> RM B) : RM B :=
  fun past =>
    match m past with
    | (ReadOk a, evs) =>
        let '(r, evs') := f a (past ++ evs) in (r, evs ++ evs')
    | (ReadErr e, evs) => (ReadErr e, evs)
    end.

Definition read_call (e : read_event) (ans : list read_event -> option string)
  : RM unit :=
  fun past =>
    match ans past with
    | None => (ReadOk tt, [e])
    | Some what => (ReadErr (ReadRaised what), [e])
    end.

Section Read_code.

Variable R : ReadEnv.

(** [impl_c.flash_read] *)
Definition impl_c_flash_read : RM unit :=
  read_raise (NotImplementedError "reading not implemented").

(** [impl.flash_read(target, image, file_name, image_offset, read_bytes)] *)
Definition flash_read (i : impl) (image file_name : string) (image_offset : Z)
    (read_bytes : option Z) : RM unit :=
  match read_method R i with
  | Some method =>
      read_call (RdFlashRead i image file_name image_offset read_bytes)
        (method image file_name image_offset read_bytes)
  | None => impl_c_flash_read
  end.

(** [if sequence: target.power.sequence(target, sequence)] *)
Definition read_power_sequence (sequence : option power_sequence) : RM unit :=
  match sequence with
  | Some (step :: steps) =>
      read_call (RdPowerSequence (step :: steps))
        (read_power_sequence_run R (step :: steps))
  | _ => read_ret tt
  end.

(** The body of [get_flash] under [target.target_owned_and_locked(who)],
    from the values of the arguments [image], [image_offset] (0 when
    missing) and [read_bytes] ([None] when missing); the result is the
    dictionary returned. *)
Definition get_flash (self : interface) (image : string) (image_offset : Z)
    (read_bytes : option Z) (user_path : string)
  : RM (list (string * string)) :=
  let file_name := "FIXME_temp" in
  read_bind
    (match read_impl_get_by_name R image with
     | Returns found => read_ret found
     | Raises what => read_raise (ReadRaised what)
     end)
    (fun found =>
       let '(i, img_type_real) := found in
       let real_file_name := path_join user_path file_name in
       read_bind (read_power_sequence (self_power_sequence_pre self)) (fun _ =>
       read_bind
         (flash_read i img_type_real real_file_name image_offset read_bytes)
         (fun _ =>
       read_bind (read_power_sequence (self_power_sequence_post self)) (fun _ =>
       read_ret [("stream_file", real_file_name)])))).

End Read_code.

(** ** A laboratory environment

    A concrete environment to run the code in: the clock advances by
    what is slept; what [flash_post_check], [flash_check_done] and
    [flash_start] answer, which metadata writes fail and what the
    registry holds are chosen by the scenario. *)

Module Lab.

Fixpoint clock (past : list event) : Q :=
  match past with
  | [] => 0
  | EvSleep seconds :: past' => seconds + clock past'
  | _ :: past' => clock past'
  end.

Definition env
    (post_check : impl -> context -> option diagnostic)
    (check_done : impl -> answer bool)
    (start : impl -> option string)
    (fsdb_fails : string -> bool)
    (registry : string -> answer (impl * string)) : Env :=
  {| time_time := clock;
     power_sequence_run := fun _ _ => None;
     console_put_disable := fun _ _ => None;
     console_put_enable := fun _ _ => None;
     drv_flash_start := fun i _ _ _ => start i;
     drv_flash_check_done := fun i _ _ _ => check_done i;
     drv_flash_post_check := fun i _ ctx _ => Returns (post_check i ctx);
     drv_flash_kill := fun _ _ _ _ _ => None;
     file_contents := fun _ _ => Returns [];
     sha512_hexdigest := fun _ => "cf83e1357eefb8bd";
     fsdb_set := fun key _ _ =>
       if fsdb_fails key then Some "fsdb" else None;
     impl_get_by_name := registry;
     paths_allowed := [("/mnt/images/", "/srv/images/")];
     state_dir := "/var/run/ttbd/target";
     mkid := fun file_name => "id";
     lock_acquire := fun _ _ => None;
     maybe_decompress := fun file_name _ => Returns file_name;
     file_touch := fun _ _ => None |}.

(** The same collaborators with another clock. *)
Definition with_clock (c : list event -> Q) (e : Env) : Env :=
  {| time_time := c;
     power_sequence_run := power_sequence_run e;
     console_put_disable := console_put_disable e;
     console_put_enable := console_put_enable e;
     drv_flash_start := drv_flash_start e;
     drv_flash_check_done := drv_flash_check_done e;
     drv_flash_post_check := drv_flash_post_check e;
     drv_flash_kill := drv_flash_kill e;
     file_contents := file_contents e;
     sha512_hexdigest := sha512_hexdigest e;
     fsdb_set := fsdb_set e;
     impl_get_by_name := impl_get_by_name e;
     paths_allowed := paths_allowed e;
     state_dir := state_dir e;
     mkid := mkid e;
     lock_acquire := lock_acquire e;
     maybe_decompress := maybe_decompress e;
     file_touch := file_touch e |}.

(** A clock that reads 0 for the first three calls made to the
    collaborators and 5 afterwards. *)
Definition late_clock (past : list event) : Q :=
  if (3 <? length past)%nat then 5 else 0.

Definition off_full : power_sequence := [("off", ArgName "full")].
Definition on_full : power_sequence := [("on", ArgName "full")].

(** A supervised serial driver, as [flash_shell_cmd_c(...)] makes. *)
Definition shell (id : nat) (check_period : Q) (retries : Z) : impl :=
  {| impl_id := id;
     cls := impl2_c check_period retries;
     power_sequence_pre := Some off_full;
     power_sequence_post := Some on_full;
     consoles_disable := ["serial0"];
     parallel := false;
     estimated_duration := 60 |}.

(** A one-shot driver, as [dfu_c(...)] makes. *)
Definition dfu : impl :=
  {| impl_id := 7;
     cls := impl_c;
     power_sequence_pre := Some off_full;
     power_sequence_post := Some on_full;
     consoles_disable := ["serial0"];
     parallel := false;
     estimated_duration := 60 |}.

Definition always_fails : impl -> context -> option diagnostic :=
  fun _ _ => Some "flashing failed".

Definition always_passes : impl -> context -> option diagnostic :=
  fun _ _ => None.

Definition finished : impl -> answer bool := fun _ => Returns true.

Definition starts : impl -> option string := fun _ => None.

(** The flasher of the second driver cannot be spawned. *)
Definition second_fails : impl -> option string :=
  fun i => if Nat.eqb (impl_id i) 2 then Some "cannot spawn" else None.

(** A supervised driver of the parallel bucket. *)
Definition jtag (id : nat) : impl :=
  {| impl_id := id;
     cls := impl2_c 2 3;
     power_sequence_pre := None;
     power_sequence_post := None;
     consoles_disable := [];
     parallel := true;
     estimated_duration := 60 |}.

Definition registry_of (i : impl) : string -> answer (impl * string) :=
  fun img_type =>
    if String.eqb img_type "rom" then Returns (i, "rom")
    else Raises "unknown image type".

Definition itf : interface :=
  {| self_power_sequence_pre := None; self_power_sequence_post := None |}.

End Lab.

(** ** Vocabulary of the properties *)

(** The keys of a plan: the identities of its drivers. *)
Definition ids (p : plan) : list nat := map (fun x => impl_id (fst x)) p.

(** The [retries] attribute of a supervised driver. *)
Definition retries_of (i : impl) : Z :=
  match cls i with
  | impl2_c _ retries => retries
  | impl_c => 0
  end.

(** The [check_period] attributes found in a plan. *)
Definition check_periods (p : plan) : list Q :=
  omap (fun x => match cls (fst x) with
                 | impl2_c check_period _ => Some check_period
                 | impl_c => None
                 end) p.

(** The lowest of a bound and a list of numbers. *)
Fixpoint lowest (bound : Q) (l : list Q) : Q :=
  match l with
  | [] => bound
  | x :: l' => Qmin x (lowest bound l')
  end.

Definition is_kill (e : event) : Prop :=
  match e with EvFlashKill _ _ _ _ => True | _ => False end.

Definition is_power (e : event) : Prop :=
  match e with EvPowerSequence _ => True | _ => False end.

Definition is_console (e : event) : Prop :=
  match e with
  | EvConsoleDisable _ | EvConsoleEnable _ => True
  | _ => False
  end.

Definition is_hash_record (e : event) : Prop :=
  match e with EvHashFile _ | EvFsdbSet _ _ => True | _ => False end.

(** Calls on a driver. *)
Definition is_driver (e : event) : Prop :=
  match e with
  | EvFlashStart _ _ _ | EvFlashCheckDone _ _ _
  | EvFlashPostCheck _ _ _ | EvFlashKill _ _ _ _ => True
  | _ => False
  end.

(** What the first loop of [put_flash] may do: take the decompression
    lock, decompress, touch. *)
Definition is_resolution (e : event) : Prop :=
  match e with
  | EvLock _ | EvUnlock _ | EvDecompress _ | EvFileTouch _ => True
  | _ => False
  end.

(** What polling may do: read the clock, sleep, refresh the
    timestamp of the target, poll and verify a driver, restart it,
    record hashes. *)
Definition is_polling (e : event) : Prop :=
  match e with
  | EvTimestamp | EvTime | EvSleep _
  | EvFlashCheckDone _ _ _ | EvFlashPostCheck _ _ _
  | EvFlashStart _ _ _ | EvHashFile _ | EvFsdbSet _ _ => True
  | _ => False
  end.

(** The contexts given to [flash_start] of the driver [id], in
    order. *)
Definition starts_for (id : nat) (evs : list event) : list context :=
  omap (fun e => match e with
                 | EvFlashStart i _ ctx =>
                     if Nat.eqb (impl_id i) id then Some ctx else None
                 | _ => None
                 end) evs.

(** The drivers started, with their images, in order. *)
Definition started_plan (evs : list event) : plan :=
  omap (fun e => match e with
                 | EvFlashStart i images _ => Some (i, images)
                 | _ => None
                 end) evs.

(** One context seen at its first [n] attempts: [retry_count] goes
    from 1 to [n]. *)
Definition attempts (t0 : Q) (n : Z) : list context :=
  map (fun k => {| ts0 := t0; retry_count := k |}) (seqZ 1 n).

#[global] Instance context_inhabited : Inhabited context :=
  populate {| ts0 := 0; retry_count := 0 |}.

(** One [flash_kill] for each driver of a plan, in order, each with
    the context [contexts] holds for it. *)
Definition kills_of (p : plan) (contexts : gmap nat context) (m : msg)
  : list event :=
  map (fun x => EvFlashKill (fst x) (snd x) (contexts !!! impl_id (fst x)) m) p.

(** The metadata keys of an image type. *)
Definition key_last_sha512 (image_type : string) : string :=
  "interfaces.images." +:+ image_type +:+ ".last_sha512".

Definition key_last_name (image_type : string) : string :=
  "interfaces.images." +:+ image_type +:+ ".last_name".

(** The calls to [target.console.put_disable] / [put_enable] for a
    plan. *)
Definition consoles_of (p : plan) : list string :=
  flat_map (fun x => consoles_disable (fst x)) p.

(** [target.power.sequence] is called for a sequence that is neither
    [None] nor empty. *)
Definition power_events (sequence : option power_sequence) : list event :=
  match sequence with
  | Some (step :: steps) => [EvPowerSequence (step :: steps)]
  | _ => []
  end.

(** [writes_ok E past evs]: every [target.fsdb.set] among the events
    [evs], emitted after [past], returned. *)
Fixpoint writes_ok (E : Env) (past evs : list event) : Prop :=
  match evs with
  | [] => True
  | e :: evs' =>
      match e with
      | EvFsdbSet key value => fsdb_set E key value past = None
      | _ => True
      end /\ writes_ok E (past ++ [e]) evs'
  end.

(** Some [target.fsdb.set] among the events [evs] raised. *)
Definition fsdb_write_failed (E : Env) (past evs : list event) : Prop :=
  exists before key value after,
    evs = before ++ EvFsdbSet key value :: after
    /\ fsdb_set E key value (past ++ before) <> None.

(** [only P m]: whatever happens, [m] emits events in [P] only. *)
Definition only (P : event -> Prop) {A} (m : M A) : Prop :=
  forall past s, Forall P (emitted (m past s)).

(** [ends m]: [m] does not depend on the bound on iterations. *)
Definition ends {A} (m : M A) : Prop :=
  forall past s, out (m past s) <> Fuel.

(** [careful E m]: unless it raises, [m] has seen all its writes to
    the metadata store return. *)
Definition careful (E : Env) {A} (m : M A) : Prop :=
  forall past s,
    (forall e, out (m past s) <> Err e) ->
    writes_ok E past (emitted (m past s)).

(** The last character of a string. *)
Fixpoint last_ascii (s : string) : option Ascii.ascii :=
  match s with
  | EmptyString => None
  | String c EmptyString => Some c
  | String _ s' => last_ascii s'
  end.

(** [cut_short fail r r0]: the run [r] did what the run [r0] did and,
    where [r0] returned, raised [fail] instead. *)
Definition cut_short {A B} (fail : exn) (r : run A) (r0 : run B) : Prop :=
  emitted r = emitted r0
  /\ store r = store r0
  /\ match out r0 with
     | Ok _ => out r = Err fail
     | Err e => out r = Err e
     | Fuel => out r = Fuel
     end.

(** What reading entry [(img_type, img_name)] of a request raises when
    [img_name] is an absolute path that is not allowed. *)
Definition denied (E : Env) (img_type img_name : string) : exn :=
  match impl_get_by_name E img_type with
  | Returns _ => PermissionError img_name
  | Raises what => Raised what
  end.

(** Events that neither start nor kill a driver. *)
Definition is_quiet (e : event) : Prop :=
  match e with
  | EvFlashStart _ _ _ | EvFlashKill _ _ _ _ => False
  | _ => True
  end.

(** [quiet m]: [m] starts and kills no driver, and does not raise the
    [RuntimeError] of the executor. *)
Definition quiet {A} (m : M A) : Prop :=
  forall past s,
    Forall is_quiet (emitted (m past s))
    /\ forall m', out (m past s) <> Err (RuntimeError m').

(** [tracked p contexts evs]: after the events [evs], [contexts] holds
    for each driver of the plan [p] the context it was last started
    with; the driver has been started [retry_count] times, with
    [retry_count] going up from 1, and no more than [retries] times
    after the first. *)
Definition tracked (p : plan) (contexts : gmap nat context)
    (evs : list event) : Prop :=
  forall i images,
    (i, images) ∈ p ->
    exists ctx,
      contexts !! impl_id i = Some ctx
      /\ starts_for (impl_id i) evs = attempts (ts0 ctx) (retry_count ctx)
      /\ 1 <= retry_count ctx <= Z.max 1 (retries_of i + 1).

(** The two metadata keys of each image of [images] have been
    written in [evs]. *)
Definition recorded (images : image_map) (evs : list event) : Prop :=
  forall image_type name,
    (image_type, name) ∈ images ->
    (exists digest, EvFsdbSet (key_last_sha512 image_type) digest ∈ evs)
    /\ EvFsdbSet (key_last_name image_type) name ∈ evs.

(** Each driver in [done_impls] is a driver of the plan whose hashes
    have been recorded. *)
Definition all_done (p : plan) (done_impls : gset nat) (evs : list event)
  : Prop :=
  forall id,
    id ∈ done_impls ->
    exists i images, (i, images) ∈ p /\ impl_id i = id /\ recorded images evs.

(** The invariant of the supervision loop. *)
Definition supervised (p : plan) (contexts : gmap nat context)
    (done_impls : gset nat) (evs : list event) : Prop :=
  tracked p contexts evs /\ all_done p done_impls evs.

(** No driver of [items] has been started in [evs]. *)
Definition fresh (items : plan) (evs : list event) : Prop :=
  forall j images, (j, images) ∈ items -> starts_for (impl_id j) evs = [].

(** What the message of the executor says is true of [contexts]. *)
Definition msg_holds (p : plan) (contexts : gmap nat context) (m : msg)
  : Prop :=
  match m with
  | MsgAborting i images rc _ =>
      (i, images) ∈ p
      /\ (exists ctx, contexts !! impl_id i = Some ctx /\ retry_count ctx = rc)
      /\ retries_of i < rc
  | MsgTimedout _ _ => True
  end.

(** [aborted p evs0 evs m]: the events [evs], emitted after [evs0],
    end with one [flash_kill] for each driver of [p], and have no other
    [flash_kill]. *)
Definition aborted (p : plan) (evs0 evs : list event) (m : msg) : Prop :=
  exists before contexts,
    evs = before ++ kills_of p contexts m
    /\ Forall (fun e => ~ is_kill e) before
    /\ tracked p contexts (evs0 ++ before)
    /\ msg_holds p contexts m.

(** The postcondition of the pieces of the executor, for a run [r]
    made after the events [evs0] of the executor. *)
Definition post {A} (p : plan) (evs0 : list event)
    (Q : A -> list event -> Prop) (r : run A) : Prop :=
  match out r with
  | Ok a => Forall (fun e => ~ is_kill e) (emitted r) /\ Q a (evs0 ++ emitted r)
  | Err (RuntimeError m) => aborted p evs0 (emitted r) m
  | _ => True
  end.

(** [in_time E i check_period loop_ts0 h]: the clock, read after the
    events [h], is past the first check of the driver [i] and before
    its deadline, both counted from [loop_ts0]. *)
Definition in_time (E : Env) (i : impl) (check_period loop_ts0 : Q)
    (h : list event) : Prop :=
  (check_period < time_time E h - loop_ts0)%Q
  /\ (time_time E h - loop_ts0 < inject_Z (estimated_duration i))%Q.

(** Every sleep lasts [seconds] (up to the equality of rationals). *)
Definition sleeps_for (seconds : Q) (e : event) : Prop :=
  match e with
  | EvSleep d => (d == seconds)%Q
  | _ => True
  end.

Definition is_sleep (e : event) : Prop :=
  match e with EvSleep _ => True | _ => False end.

(** What the first loop of the executor does: read the clock and
    start a driver, with a [retry_count] of 1. *)
Definition is_first_start (e : event) : Prop :=
  match e with
  | EvTime => True
  | EvFlashStart _ _ ctx => retry_count ctx = 1
  | _ => False
  end.

(** [when_ok P m]: when [m] returns, it has emitted events in [P]
    only. *)
Definition when_ok (P : event -> Prop) {A} (m : M A) : Prop :=
  forall past s a, out (m past s) = Ok a -> Forall P (emitted (m past s)).

(** The lengths of the sleeps, in order. *)
Definition sleeps (evs : list event) : list Q :=
  omap (fun e => match e with EvSleep d => Some d | _ => None end) evs.

(** ** Vocabulary of the request, of the errors and of the supervision *)

(** [returns R m]: whenever [m] returns, its value satisfies [R]. *)
Definition returns {A} (R : A -> Prop) (m : M A) : Prop :=
  forall past s a, out (m past s) = Ok a -> R a.

(** [throws P m]: whatever [m] raises satisfies [P]. *)
Definition throws (P : exn -> Prop) {A} (m : M A) : Prop :=
  forall past s e, out (m past s) = Err e -> P e.

(** [safe P R m]: what [m] raises satisfies [P], what it returns
    satisfies [R]. *)
Definition safe (P : exn -> Prop) {A} (R : A -> Prop) (m : M A) : Prop :=
  forall past s,
    match out (m past s) with
    | Ok a => R a
    | Err e => P e
    | Fuel => True
    end.

Definition anything {A} (a : A) : Prop := True.

(** *** The request *)

(** The image types of a dictionary of images. *)
Definition image_types (images : image_map) : list string := map fst images.

(** The image types of a plan, in order. *)
Definition plan_image_types (p : plan) : list string :=
  flat_map (fun x => image_types (snd x)) p.

(** [translated allowed img_name file_name]: [file_name] is [img_name]
    with its prefix [path] replaced by [path_translated], for the
    first entry [(path, path_translated)] of [allowed] whose [path]
    [img_name] starts with. *)
Definition translated (allowed : list (string * string))
    (img_name file_name : string) : Prop :=
  exists before path path_translated after rest,
    allowed = before ++ (path, path_translated) :: after
    /\ Forall (fun x => String.prefix (fst x) img_name = false) before
    /\ img_name = path +:+ rest
    /\ file_name = path_translated +:+ rest.

(** The file [put_flash] looks for when it is given [img_name]: under
    the storage of the user for a relative name, under the translation
    of an allowed prefix for an absolute one. *)
Definition file_name_of (E : Env) (user_path img_name file_name : string)
  : Prop :=
  if isabs img_name then translated (paths_allowed E) img_name file_name
  else file_name = path_join user_path img_name.

(** An absolute file name that no prefix of [ttbl.store.paths_allowed]
    covers. *)
Definition not_allowed (E : Env) (img_name : string) : Prop :=
  isabs img_name = true
  /\ Forall (fun x => String.prefix (fst x) img_name = false) (paths_allowed E).

(** One turn of the first loop of [put_flash], for the two buckets
    [(serial, parallel)]. *)
Definition bucket_step (i : impl) (image_type file_name : string)
    (buckets : plan * plan) : plan * plan :=
  if parallel i
  then (fst buckets, bucket_set i image_type file_name (snd buckets))
  else (bucket_set i image_type file_name (fst buckets), snd buckets).

(** The bucket [put_flash] puts the images of the driver [i] in. *)
Definition bucket_of (i : impl) (buckets : plan * plan) : plan :=
  if parallel i then snd buckets else fst buckets.

(** Some entry of the request [images] resolves to the driver [i] and
    the image type [image_type]. *)
Definition resolves (E : Env) (images : image_map) (i : impl)
    (image_type : string) : Prop :=
  exists img_type img_name,
    (img_type, img_name) ∈ images
    /\ impl_get_by_name E img_type = Returns (i, image_type).

(** A driver the registry knows. *)
Definition registered (E : Env) (i : impl) : Prop :=
  exists img_type image_type,
    impl_get_by_name E img_type = Returns (i, image_type).

(** The keys of a bucket: each driver once, each with at least one
    image and each image type once. *)
Definition bucket_keys_ok (bucket : plan) : Prop :=
  NoDup (ids bucket)
  /\ Forall (fun x => snd x <> [] /\ NoDup (image_types (snd x))) bucket.

(** [entry_sound E images flag x]: the entry [x] of a bucket holds a
    driver whose [parallel] attribute is [flag] and that is the driver
    of some entry of the request; each of its image types is the real
    image type of some entry of the request that resolves to this
    driver. *)
Definition entry_sound (E : Env) (images : image_map) (flag : bool)
    (x : impl * image_map) : Prop :=
  parallel (fst x) = flag
  /\ (exists image_type, resolves E images (fst x) image_type)
  /\ forall image_type,
       image_type ∈ image_types (snd x) ->
       exists i, resolves E images i image_type /\ impl_id i = impl_id (fst x).

(** [last_given E images i image_type img_name]: [img_name] is the
    file name of the last entry of the request [images] that resolves
    to the driver [i] and the image type [image_type]. *)
Definition last_given (E : Env) (images : image_map) (i : impl)
    (image_type img_name : string) : Prop :=
  exists before img_type after,
    images = before ++ (img_type, img_name) :: after
    /\ impl_get_by_name E img_type = Returns (i, image_type)
    /\ forall img_type' img_name' i' image_type',
         (img_type', img_name') ∈ after ->
         impl_get_by_name E img_type' = Returns (i', image_type') ->
         ~ (impl_id i' = impl_id i /\ image_type' = image_type).

(** The lock file [put_flash] takes to decompress [file_name]. *)
Definition lock_file_name_of (E : Env) (file_name : string) : string :=
  path_join (state_dir E)
    ("images.flash.decompress." +:+ mkid E file_name +:+ ".lock").

Definition is_decompress (e : event) : Prop :=
  match e with EvDecompress _ => True | _ => False end.

(** [under_lock E evs]: each call to [commonl.maybe_decompress] among
    the events [evs] comes right after the lock of the file was taken,
    and the lock is released right after it. *)
Definition under_lock (E : Env) (evs : list event) : Prop :=
  forall before file_name after,
    evs = before ++ EvDecompress file_name :: after ->
    exists before' after',
      before = before' ++ [EvLock (lock_file_name_of E file_name)]
      /\ after = EvUnlock (lock_file_name_of E file_name) :: after'.

(** [locking E m]: [m] decompresses under the lock only. *)
Definition locking (E : Env) {A} (m : M A) : Prop :=
  forall past s, under_lock E (emitted (m past s)).

(** What [_flash_parallel] may do: run a power sequence, disable and
    enable consoles, and what the executor does. *)
Definition is_flashing (e : event) : Prop :=
  is_power e \/ is_console e \/ is_polling e \/ is_kill e.

(** What the body of the [try] statement of [_flash_parallel] may do:
    disable consoles, and what the executor does. *)
Definition is_try_body (e : event) : Prop :=
  match e with
  | EvConsoleDisable _ => True
  | EvPowerSequence _ | EvConsoleEnable _ => False
  | _ => is_polling e \/ is_kill e
  end.

(** The power sequences a request may run: those of the interface, and
    those of the drivers of the request that are not parallel. *)
Definition sequence_of (E : Env) (self : interface) (images : image_map)
    (sequence : power_sequence) : Prop :=
  self_power_sequence_pre self = Some sequence
  \/ self_power_sequence_post self = Some sequence
  \/ exists i image_type,
       resolves E images i image_type
       /\ parallel i = false
       /\ (power_sequence_pre i = Some sequence
           \/ power_sequence_post i = Some sequence).

(** *** The errors *)

(** The exceptions the code raises on purpose, or passes on from a
    collaborator. *)
Definition deliberate (e : exn) : Prop :=
  match e with
  | RuntimeError _ | PermissionError _ | Raised _ => True
  | AttributeError _ | KeyError _ | UnboundLocalError _ => False
  end.

(** The exceptions that come out of the executor, the time-out
    apart. *)
Definition is_internal (e : exn) : Prop :=
  match e with
  | PermissionError _ | RuntimeError (MsgTimedout _ _) => False
  | _ => True
  end.

(** [PermissionError] names a file of the request that is not
    allowed. *)
Definition permission_denied (E : Env) (images : image_map) (e : exn) : Prop :=
  match e with
  | PermissionError img_name =>
      (exists img_type, (img_type, img_name) ∈ images) /\ not_allowed E img_name
  | _ => True
  end.

(** A driver of class [impl2_c]. *)
Definition is_supervised (i : impl) : Prop :=
  match cls i with
  | impl2_c _ _ => True
  | impl_c => False
  end.

(** [contexts] has a context for every driver of [p]. *)
Definition covers (p : plan) (contexts : gmap nat context) : Prop :=
  forall x, x ∈ p -> is_Some (contexts !! impl_id (fst x)).

(** *** The clock and the deadline *)

(** The clock does not go back, and a sleep lasts at least what was
    asked for. *)
Definition clock_advances (E : Env) : Prop :=
  (forall h e, (time_time E h <= time_time E (h ++ [e]))%Q)
  /\ (forall h d, (time_time E h + d <= time_time E (h ++ [EvSleep d]))%Q).

(** [estimated_duration] after the first loop of the executor, which
    starts from [d]: the largest of [d] and of the estimated durations
    of the drivers. *)
Definition deadline_from (d : Z) (p : plan) : Z :=
  fold_left (fun d x => Z.max (estimated_duration (fst x)) d) p d.

Definition deadline (p : plan) : Z := deadline_from 0 p.

(** *** The supervision *)

Definition is_check_done (e : event) : Prop :=
  match e with EvFlashCheckDone _ _ _ => True | _ => False end.

Definition is_post_check (e : event) : Prop :=
  match e with EvFlashPostCheck _ _ _ => True | _ => False end.

(** [polled_in_time E loop_ts0 h evs]: each call to [flash_check_done]
    among the events [evs], emitted after the events [h], comes right
    after a reading of the clock that is more than the [check_period]
    of the driver after [loop_ts0]. *)
Definition polled_in_time (E : Env) (loop_ts0 : Q) (h evs : list event)
  : Prop :=
  forall before i images ctx after,
    evs = before ++ EvFlashCheckDone i images ctx :: after ->
    exists before' check_period retries,
      before = before' ++ [EvTime]
      /\ cls i = impl2_c check_period retries
      /\ (check_period < time_time E (h ++ before') - loop_ts0)%Q.

(** [in_time_only E loop_ts0 m]: [m] polls a driver in time only. *)
Definition in_time_only (E : Env) (loop_ts0 : Q) {A} (m : M A) : Prop :=
  forall past s, polled_in_time E loop_ts0 past (emitted (m past s)).

(** A call that starts, polls or verifies the driver [id]. *)
Definition polls_driver (id : nat) (e : event) : Prop :=
  match e with
  | EvFlashStart i _ _ | EvFlashCheckDone i _ _ | EvFlashPostCheck i _ _ =>
      impl_id i = id
  | _ => False
  end.

(** [verified_in E h evs verified]: each driver whose
    [flash_post_check], called among the events [evs] emitted after
    [h], returned [None], is in [verified]. *)
Definition verified_in (E : Env) (h evs : list event) (verified : gset nat)
  : Prop :=
  forall before i images ctx after,
    evs = before ++ EvFlashPostCheck i images ctx :: after ->
    drv_flash_post_check E i images ctx (h ++ before) = Returns None ->
    impl_id i ∈ verified.

(** [left_alone E verified h evs]: the events [evs], emitted after [h],
    start, poll and verify no driver of [verified], nor a driver after
    its [flash_post_check] returned [None]. *)
Definition left_alone (E : Env) (verified : gset nat) (h evs : list event)
  : Prop :=
  Forall (fun e => forall id, id ∈ verified -> ~ polls_driver id e) evs
  /\ forall before i images ctx after,
       evs = before ++ EvFlashPostCheck i images ctx :: after ->
       drv_flash_post_check E i images ctx (h ++ before) = Returns None ->
       Forall (fun e => ~ polls_driver (impl_id i) e) after.

(** [leaves E verified m verified']: [m], run when the drivers of
    [verified] have been verified, leaves them alone; when it returns
    [a], the drivers verified are in [verified' a]. *)
Definition leaves (E : Env) (verified : gset nat) {A} (m : M A)
    (verified' : A -> gset nat) : Prop :=
  forall past s,
    left_alone E verified past (emitted (m past s))
    /\ forall a,
         out (m past s) = Ok a ->
         verified ⊆ verified' a
         /\ verified_in E past (emitted (m past s)) (verified' a).

(** [alone E verified m]: [m], run when the drivers of [verified] have
    been verified, leaves them alone. *)
Definition alone (E : Env) (verified : gset nat) {A} (m : M A) : Prop :=
  forall past s, left_alone E verified past (emitted (m past s)).

(** *** The rounds of the supervision loop *)

(** A call to [flash_check_done] of the driver [id]. *)
Definition is_poll_of (id : nat) (e : event) : Prop :=
  match e with
  | EvFlashCheckDone i _ _ => impl_id i = id
  | _ => False
  end.

(** What one pass over the drivers [items] may do: anything but sleep,
    refresh the timestamp of the target, or poll a driver that is not
    in [items]. *)
Definition is_pass_of (items : plan) (e : event) : Prop :=
  match e with
  | EvSleep _ | EvTimestamp => False
  | EvFlashCheckDone i _ _ => impl_id i ∈ ids items
  | _ => True
  end.

(** [slept_before period evs]: each call to [flash_check_done] among
    the events [evs] comes after a refresh of the timestamp and a
    sleep of [period] seconds, with neither another sleep nor another
    poll of the same driver in between. *)
Definition slept_before (period : Q) (evs : list event) : Prop :=
  forall before i images ctx after,
    evs = before ++ EvFlashCheckDone i images ctx :: after ->
    exists earlier seconds since,
      before = earlier ++ EvTimestamp :: EvSleep seconds :: since
      /\ (seconds == period)%Q
      /\ Forall (fun e => ~ is_sleep e /\ ~ is_poll_of (impl_id i) e) since.

(** [sleeping period m]: [m] polls after such a sleep only. *)
Definition sleeping (period : Q) {A} (m : M A) : Prop :=
  forall past s, slept_before period (emitted (m past s)).

(** *** The records of what was flashed *)

(** An exception that comes out of a collaborator. *)
Definition is_raised (e : exn) : Prop :=
  match e with Raised _ => True | _ => False end.

(** [recording E h r]: in the run [r], made after the events [h], each
    call to [flash_post_check] that returned [None] is followed by
    what [_hash_record] does on the images of the driver; the recorder
    has returned, unless the run ends with an exception of a
    collaborator. *)
Definition recording (E : Env) (h : list event) {A} (r : run A) : Prop :=
  forall before i images ctx after,
    emitted r = before ++ EvFlashPostCheck i images ctx :: after ->
    drv_flash_post_check E i images ctx (h ++ before) = Returns None ->
    exists rest,
      after
      = emitted (_hash_record E images
                   ((h ++ before) ++ [EvFlashPostCheck i images ctx]) ∅)
        ++ rest
      /\ (out (_hash_record E images
                 ((h ++ before) ++ [EvFlashPostCheck i images ctx]) ∅) = Ok tt
          \/ exists what, out r = Err (Raised what)).

Definition records (E : Env) {A} (m : M A) : Prop :=
  forall past s, recording E past (m past s).

(** *** The [finally] clause *)

(** [enabled_until E names h evs what]: the events [evs], emitted after
    [h], enable the consoles [names] in order, up to the first whose
    [console.put_enable] raises, which raises [what]; the consoles
    after that one are not enabled. *)
Definition enabled_until (E : Env) (names : list string) (h evs : list event)
    (what : string) : Prop :=
  exists enabled console_name left_disabled,
    names = enabled ++ console_name :: left_disabled
    /\ evs = map EvConsoleEnable (enabled ++ [console_name])
    /\ console_put_enable E console_name (h ++ map EvConsoleEnable enabled)
       = Some what.

(** Any exception but the [PermissionError] of [put_flash]. *)
Definition not_denial (e : exn) : Prop :=
  match e with PermissionError _ => False | _ => True end.

(** *** Reading *)

(** The call to [target.power.sequence] [get_flash] makes for a
    sequence that is neither [None] nor empty. *)
Definition read_power_events (sequence : option power_sequence)
  : list read_event :=
  match sequence with
  | Some (step :: steps) => [RdPowerSequence (step :: steps)]
  | _ => []
  end.

(** ** More of the laboratory *)

Module Bench.

(** A clock that advances by what is slept, when that is positive. *)
Fixpoint steady_clock (past : list event) : Q :=
  match past with
  | [] => 0
  | EvSleep seconds :: past' => Qmax seconds 0 + steady_clock past'
  | _ :: past' => steady_clock past'
  end.

(** A driver that is given no time: [estimated_duration = 0] passes
    the assertion of the constructor. *)
Definition hasty : impl :=
  {| impl_id := 3;
     cls := impl2_c 2 3;
     power_sequence_pre := None;
     power_sequence_post := None;
     consoles_disable := [];
     parallel := true;
     estimated_duration := 0 |}.

(** A flasher that never finishes. *)
Definition never_finished : impl -> answer bool := fun _ => Returns false.

(** A registry with an alias: the image types "rom" and "rom-aka" are
    both the image type "rom" of the driver [i]. *)
Definition aliased (i : impl) : string -> answer (impl * string) :=
  fun img_type =>
    if String.eqb img_type "rom" || String.eqb img_type "rom-aka"
    then Returns (i, "rom")
    else Raises "unknown image type".

(** The collaborators of [get_flash]: the registry knows the image
    type "bios", whose driver reads when [reads] is set. *)
Definition reader (reads : bool) : ReadEnv :=
  {| read_impl_get_by_name := fun image =>
       if String.eqb image "bios" then Returns (Lab.shell 1 2 0, "bios")
       else Raises "unknown image type";
     read_power_sequence_run := fun _ _ => None;
     read_method := fun _ =>
       if reads then Some (fun _ _ _ _ _ => None) else None |}.

Definition itf : interface :=
  {| self_power_sequence_pre := Some Lab.off_full;
     self_power_sequence_post := Some Lab.on_full |}.

End Bench.

(** ** Reasoning about computations *)

Section Monad_facts.

Context {A B : Type}.

Lemma bind_ok (m : M A) (f : A -> M B) past s a :
  out (m past s) = Ok a ->
  bind m f past s =
    let r' := f a (past ++ emitted (m past s)) (store (m past s)) in
    Run (out r') (emitted (m past s) ++ emitted r') (store r').
Proof. intros H. unfold bind. now rewrite H. Qed.

Lemma bind_err (m : M A) (f : A -> M B) past s e :
  out (m past s) = Err e ->
  bind m f past s = Run (Err e) (emitted (m past s)) (store (m past s)).
Proof. intros H. unfold bind. now rewrite H. Qed.

Lemma bind_fuel (m : M A) (f : A -> M B) past s :
  out (m past s) = Fuel ->
  bind m f past s = Run Fuel (emitted (m past s)) (store (m past s)).
Proof. intros H. unfold bind. now rewrite H. Qed.

(** When a sequence returns, both parts returned. *)
Lemma bind_ok_inv (m : M A) (f : A -> M B) past s b :
  out (bind m f past s) = Ok b ->
  exists a, out (m past s) = Ok a /\
            out (f a (past ++ emitted (m past s)) (store (m past s))) = Ok b.
Proof.
  unfold bind. destruct (out (m past s)) as [a| |]; simpl; try discriminate.
  intros H. now exists a.
Qed.

End Monad_facts.

Section Only.

Variable P : event -> Prop.

Lemma only_ret {A} (a : A) : only P (ret a).
Proof. intros past s. constructor. Qed.

Lemma only_raise {A} e : only P (@raise A e).
Proof. intros past s. constructor. Qed.

Lemma only_out_of_fuel {A} : only P (@out_of_fuel A).
Proof. intros past s. constructor. Qed.

Lemma only_bind {A B} (m : M A) (f : A -> M B) :
  only P m -> (forall a, only P (f a)) -> only P (bind m f).
Proof.
  intros Hm Hf past s. unfold bind.
  destruct (out (m past s)); simpl; auto.
  apply Forall_app; split; auto. apply Hf.
Qed.

Lemma only_try_finally {A} (body : M A) (handler : M unit) :
  only P body -> only P handler -> only P (try_finally body handler).
Proof.
  intros Hb Hh past s. unfold try_finally.
  pose proof (Hh (past ++ emitted (body past s)) (store (body past s))) as H.
  destruct (out (body past s)); simpl; auto;
    destruct (out (handler _ _)); simpl; apply Forall_app; split; auto.
Qed.

Lemma only_call e ans : P e -> only P (call e ans).
Proof.
  intros He past s. unfold call. destruct (ans past); simpl; auto.
Qed.

Lemma only_ask {A} e (ans : list event -> answer A) :
  P e -> only P (ask e ans).
Proof.
  intros He past s. unfold ask. destruct (ans past); simpl; auto.
Qed.

End Only.

Lemma only_impl (P Q : event -> Prop) {A} (m : M A) :
  (forall e, P e -> Q e) -> only P m -> only Q m.
Proof. intros H Hm past s. eapply Forall_impl; [apply Hm | apply H]. Qed.

(** *** Stepping through a sequence *)

Lemma run_eta {A} (r : run A) : Run (out r) (emitted r) (store r) = r.
Proof. now destruct r. Qed.

Lemma bind_ret {A B} (a : A) (f : A -> M B) past s :
  bind (ret a) f past s = f a past s.
Proof. unfold bind, ret. simpl. rewrite app_nil_r. apply run_eta. Qed.

Lemma bind_raise {A B} e (f : A -> M B) past s :
  bind (raise e) f past s = Run (Err e) [] s.
Proof. reflexivity. Qed.

Lemma bind_call {B} e ans (f : unit -> M B) past s :
  bind (call e ans) f past s =
    match ans past with
    | None =>
        Run (out (f tt (past ++ [e]) s))
            (e :: emitted (f tt (past ++ [e]) s))
            (store (f tt (past ++ [e]) s))
    | Some x => Run (Err (Raised x)) [e] s
    end.
Proof. unfold bind, call. now destruct (ans past). Qed.

Lemma bind_ask {A B} e (ans : list event -> answer A) (f : A -> M B) past s :
  bind (ask e ans) f past s =
    match ans past with
    | Returns a =>
        Run (out (f a (past ++ [e]) s))
            (e :: emitted (f a (past ++ [e]) s))
            (store (f a (past ++ [e]) s))
    | Raises x => Run (Err (Raised x)) [e] s
    end.
Proof. unfold bind, ask. now destruct (ans past). Qed.

Section Steps.

Variable E : Env.

Lemma bind_hash_file {B} name (f : string -> M B) past s :
  bind (hash_file_hexdigest E name) f past s =
    match file_contents E name past with
    | Returns bytes =>
        Run (out (f (sha512_hexdigest E bytes) (past ++ [EvHashFile name]) s))
            (EvHashFile name
               :: emitted (f (sha512_hexdigest E bytes)
                             (past ++ [EvHashFile name]) s))
            (store (f (sha512_hexdigest E bytes) (past ++ [EvHashFile name]) s))
    | Raises x => Run (Err (Raised x)) [EvHashFile name] s
    end.
Proof.
  unfold hash_file_hexdigest. rewrite bind_ask.
  now destruct (file_contents E name past).
Qed.

Lemma bind_fsdb_set {B} key value (f : unit -> M B) past s :
  bind (target_fsdb_set E key value) f past s =
    match fsdb_set E key value past with
    | None =>
        Run (out (f tt (past ++ [EvFsdbSet key value]) (<[key := value]> s)))
            (EvFsdbSet key value
               :: emitted (f tt (past ++ [EvFsdbSet key value])
                             (<[key := value]> s)))
            (store (f tt (past ++ [EvFsdbSet key value]) (<[key := value]> s)))
    | Some x => Run (Err (Raised x)) [EvFsdbSet key value] s
    end.
Proof.
  unfold bind, target_fsdb_set. now destruct (fsdb_set E key value past).
Qed.


Lemma start_all_cons i images items st past s :
  start_all E ((i, images) :: items) st past s
  = (now <- time_now E ;;
     check_period_i <- get_check_period i ;;
     flash_start E i images {| ts0 := now; retry_count := 1 |} ;;;
     start_all E items
       {| contexts :=
            <[impl_id i := {| ts0 := now; retry_count := 1 |}]> (contexts st);
          max_estimated_duration :=
            Z.max (estimated_duration i) (max_estimated_duration st);
          min_check_period := Qmin check_period_i (min_check_period st);
          all_images := all_images st ++ map fst images |}) past s.
Proof. reflexivity. Qed.

End Steps.

(** The wrappers of the collaborator calls, and the small pieces of
    code that are sequences of them. *)
Create HintDb flash_prims.
#[global] Hint Unfold time_now time_sleep target_timestamp
  target_power_sequence target_console_put_disable target_console_put_enable
  hash_file_hexdigest get_check_period get_retries flash_start
  flash_check_done flash_post_check flash_kill contexts_get
  log_image_names_impl self_impl_get_by_name with_lock : flash_prims.

Lemma ends_ret {A} (a : A) : ends (ret a).
Proof. intros past s. discriminate. Qed.

Lemma ends_raise {A} e : ends (@raise A e).
Proof. intros past s. discriminate. Qed.

Lemma ends_bind {A B} (m : M A) (f : A -> M B) :
  ends m -> (forall a, ends (f a)) -> ends (bind m f).
Proof.
  intros Hm Hf past s. unfold bind. cbv zeta. specialize (Hm past s).
  destruct (out (m past s)); simpl.
  - apply Hf.
  - discriminate.
  - now destruct Hm.
Qed.

Lemma ends_call e ans : ends (call e ans).
Proof. intros past s. unfold call. destruct (ans past); discriminate. Qed.

Lemma ends_ask {A} e (ans : list event -> answer A) : ends (ask e ans).
Proof. intros past s. unfold ask. destruct (ans past); discriminate. Qed.

Lemma ends_try_finally {A} (body : M A) (handler : M unit) :
  ends body -> ends handler -> ends (try_finally body handler).
Proof.
  intros Hb Hh past s. unfold try_finally. cbv zeta.
  specialize (Hb past s).
  specialize (Hh (past ++ emitted (body past s)) (store (body past s))).
  destruct (out (body past s)); simpl; try contradiction;
    destruct (out (handler _ _)); simpl; congruence.
Qed.

Ltac ends_step :=
  match goal with
  | |- ends (bind _ _) => apply ends_bind; [|intros ?]
  | |- ends (ret _) => apply ends_ret
  | |- ends (raise _) => apply ends_raise
  | |- ends (call _ _) => apply ends_call
  | |- ends (ask _ _) => apply ends_ask
  | |- ends (try_finally _ _) => apply ends_try_finally
  | |- ends (match ?x with _ => _ end) => destruct x
  | H : _ |- ends _ => apply H
  end.

Lemma ends_consoles_each f console_names :
  (forall console_name, ends (f console_name)) ->
  ends (consoles_each f console_names).
Proof.
  intros Hf. induction console_names; simpl; repeat ends_step.
Qed.

Lemma ends_flash_consoles_enable E parallel_ :
  ends (_flash_consoles_enable E parallel_).
Proof.
  induction parallel_ as [|[i images] parallel_ IH]; simpl;
    repeat ends_step.
  apply ends_consoles_each. intros c. autounfold with flash_prims.
  repeat ends_step.
Qed.

Ltac only_step :=
  match goal with
  | |- only _ (bind _ _) => apply only_bind; [|intros ?]
  | |- only _ (ret _) => apply only_ret
  | |- only _ (raise _) => apply only_raise
  | |- only _ out_of_fuel => apply only_out_of_fuel
  | |- only _ (try_finally _ _) => apply only_try_finally
  | |- only _ (call _ _) => apply only_call; exact I
  | |- only _ (ask _ _) => apply only_ask; exact I
  | |- only _ (match ?x with _ => _ end) => destruct x
  | H : _ |- only _ _ => apply H
  end.

Ltac only_auto := autounfold with flash_prims; repeat only_step.

(** *** Following the outcome of a sequence *)

Lemma out_bind_ret {A B} (a : A) (f : A -> M B) past s :
  out (bind (ret a) f past s) = out (f a past s).
Proof. now rewrite bind_ret. Qed.

Lemma out_bind_call {B} e ans (f : unit -> M B) past s :
  ans past = None ->
  out (bind (call e ans) f past s) = out (f tt (past ++ [e]) s).
Proof. intros H. now rewrite bind_call, H. Qed.

Lemma out_bind_ask {A B} e (ans : list event -> answer A) (f : A -> M B)
    past s a :
  ans past = Returns a ->
  out (bind (ask e ans) f past s) = out (f a (past ++ [e]) s).
Proof. intros H. now rewrite bind_ask, H. Qed.

Lemma out_bind_ok {A B} (m : M A) (f : A -> M B) past s a :
  out (m past s) = Ok a ->
  out (bind m f past s)
  = out (f a (past ++ emitted (m past s)) (store (m past s))).
Proof. intros H. now rewrite (bind_ok m f past s a H). Qed.

Lemma out_bind_err {A B} (m : M A) (f : A -> M B) past s e :
  out (m past s) = Err e -> out (bind m f past s) = Err e.
Proof. intros H. now rewrite (bind_err m f past s e H). Qed.

(** ** An empty request *)

(** C10: with no image to flash, [put_flash] returns the empty
    dictionary; the only call it makes is [target.timestamp()]: no
    power sequence, no console is disabled or enabled, no driver is
    called and no hash metadata is written (the store is as it
    was). *)
Theorem put_flash_no_images E fuel self user_path past s :
  put_flash E fuel self [] user_path past s = Run (Ok []) [EvTimestamp] s.
Proof. reflexivity. Qed.

(** ** One-shot drivers *)

(** The executor reads [check_period] of each driver before it starts
    it: a driver of class [impl_c] ends the executor there. *)
Lemma flash_parallel_do_one_shot E fuel i images past s :
  cls i = impl_c ->
  _flash_parallel_do E fuel [(i, images)] past s
  = Run (Err (AttributeError "check_period")) [EvTime] s.
Proof.
  intros Hc. unfold _flash_parallel_do, start_all, get_check_period.
  rewrite Hc. reflexivity.
Qed.

(** C2 (the code departs from it): a request for an image handled by
    a one-shot driver.  The pre power sequence runs and the console is
    disabled, then the executor fails on [check_period]; the
    [finally] clause enables the console and runs the post power
    sequence.  [flash] is never called, nothing is recorded. *)
Theorem put_flash_one_shot_fails :
  let e := Lab.env Lab.always_passes Lab.finished Lab.starts (fun _ => false)
             (Lab.registry_of Lab.dfu) in
  put_flash e 10 Lab.itf [("rom", "fw.bin")] "/home/u" [] ∅
  = Run (Err (AttributeError "check_period"))
      [EvLock "/var/run/ttbd/target/images.flash.decompress.id.lock";
       EvDecompress "/home/u/fw.bin";
       EvUnlock "/var/run/ttbd/target/images.flash.decompress.id.lock";
       EvFileTouch "/home/u/fw.bin";
       EvTimestamp;
       EvPowerSequence Lab.off_full;
       EvConsoleDisable "serial0";
       EvTime;
       EvConsoleEnable "serial0";
       EvPowerSequence Lab.on_full]
      ∅.
Proof. vm_compute. reflexivity. Qed.


(** ** The hash recorder *)

Section Strings.

Lemma length_append (s1 s2 : string) :
  String.length (s1 +:+ s2) = (String.length s1 + String.length s2)%nat.
Proof. induction s1 as [|c s1 IH]; simpl; [reflexivity | now rewrite IH]. Qed.

Lemma append_inj_r (s1 s2 x : string) : s1 +:+ x = s2 +:+ x -> s1 = s2.
Proof.
  revert s2. induction s1 as [|c s1 IH]; intros [|c' s2] H; simpl in H.
  - reflexivity.
  - apply (f_equal String.length) in H.
    rewrite !length_append in H. simpl in H. lia.
  - apply (f_equal String.length) in H.
    rewrite !length_append in H. simpl in H. lia.
  - injection H as -> H. f_equal. now apply IH.
Qed.

Lemma last_ascii_append (s x : string) :
  x <> "" -> last_ascii (s +:+ x) = last_ascii x.
Proof.
  intros Hx. induction s as [|c s IH]; simpl; [reflexivity|].
  rewrite <- IH. destruct (s +:+ x) eqn:Hs; [|reflexivity].
  destruct s; [apply Hx in Hs; contradiction | discriminate].
Qed.

Lemma key_last_sha512_inj t t' :
  key_last_sha512 t = key_last_sha512 t' -> t = t'.
Proof.
  unfold key_last_sha512. intros H. apply String.app_inj in H.
  now apply append_inj_r in H.
Qed.

Lemma key_last_name_inj t t' : key_last_name t = key_last_name t' -> t = t'.
Proof.
  unfold key_last_name. intros H. apply String.app_inj in H.
  now apply append_inj_r in H.
Qed.

Lemma key_last_sha512_name t t' : key_last_sha512 t <> key_last_name t'.
Proof.
  unfold key_last_sha512, key_last_name. intros H.
  apply String.app_inj in H. apply (f_equal last_ascii) in H.
  rewrite !last_ascii_append in H by discriminate. discriminate.
Qed.

End Strings.

Section Hash_record.

Variable E : Env.

(** One turn of the loop of [_hash_record]. *)
Lemma hash_record_cons image_type name images past s :
  _hash_record E ((image_type, name) :: images) past s
  = (ho <- hash_file_hexdigest E name ;;
     target_fsdb_set E (key_last_sha512 image_type) ho ;;;
     target_fsdb_set E (key_last_name image_type) name ;;;
     _hash_record E images) past s.
Proof. reflexivity. Qed.

(** [_hash_record] writes the keys of its images only. *)
Lemma hash_record_other_keys images key past s :
  (forall t, t ∈ map fst images ->
             key <> key_last_sha512 t /\ key <> key_last_name t) ->
  store (_hash_record E images past s) !! key = s !! key.
Proof.
  revert past s. induction images as [|[t name] images IH]; intros past s Hk.
  - reflexivity.
  - destruct (Hk t) as [Hs Hn]; [simpl; left|].
    assert (Hk' : forall t', t' ∈ map fst images ->
              key <> key_last_sha512 t' /\ key <> key_last_name t').
    { intros t' Ht'. apply Hk. simpl. now right. }
    rewrite hash_record_cons, bind_hash_file.
    destruct (file_contents E name past); try reflexivity.
    rewrite bind_fsdb_set.
    destruct (fsdb_set E (key_last_sha512 t) _ _); [reflexivity|].
    rewrite bind_fsdb_set.
    destruct (fsdb_set E (key_last_name t) _ _); simpl.
    + rewrite lookup_insert_ne by congruence. reflexivity.
    + rewrite IH by assumption.
      rewrite !lookup_insert_ne by congruence. reflexivity.
Qed.

(** The store after the recorder: when [_hash_record] returns, each
    image of the dictionary has been hashed, and the store holds, under
    [interfaces.images.<image_type>.last_sha512], the hex digest of the
    SHA-512 of the bytes the file had when it was hashed and, under
    [interfaces.images.<image_type>.last_name], the file name. *)
Lemma hash_record_writes images past s image_type name :
  NoDup (map fst images) ->
  out (_hash_record E images past s) = Ok tt ->
  (image_type, name) ∈ images ->
  exists before after bytes,
    emitted (_hash_record E images past s) = before ++ EvHashFile name :: after
    /\ file_contents E name (past ++ before) = Returns bytes
    /\ store (_hash_record E images past s) !! key_last_sha512 image_type
       = Some (sha512_hexdigest E bytes)
    /\ store (_hash_record E images past s) !! key_last_name image_type
       = Some name.
Proof.
  revert past s.
  induction images as [|[t n] images IH]; intros past s Hnd Hok Hin.
  - inversion Hin.
  - simpl in Hnd. apply NoDup_cons in Hnd as [Hfresh Hnd].
    rewrite hash_record_cons, bind_hash_file in *.
    destruct (file_contents E n past) as [bytes|] eqn:Hbytes;
      try discriminate.
    rewrite bind_fsdb_set in *.
    destruct (fsdb_set E (key_last_sha512 t) _ _); [discriminate|].
    rewrite bind_fsdb_set in *.
    destruct (fsdb_set E (key_last_name t) _ _); [discriminate|].
    simpl in *.
    apply elem_of_cons in Hin as [Heq | Hin].
    + injection Heq as -> ->.
      eexists [], _, bytes.
      split; [reflexivity|]. rewrite app_nil_r. split; [assumption|].
      assert (Hothers : forall key,
                (key = key_last_sha512 t \/ key = key_last_name t) ->
                forall t', t' ∈ map fst images ->
                  key <> key_last_sha512 t' /\ key <> key_last_name t').
      { intros key [-> | ->] t' Ht'; split; intros Hc.
        - apply key_last_sha512_inj in Hc. now subst.
        - now apply key_last_sha512_name in Hc.
        - symmetry in Hc. now apply key_last_sha512_name in Hc.
        - apply key_last_name_inj in Hc. now subst. }
      rewrite !hash_record_other_keys by (apply Hothers; auto).
      split.
      * rewrite lookup_insert_ne
          by (intros Hc; symmetry in Hc; now apply key_last_sha512_name in Hc).
        apply lookup_insert_eq.
      * apply lookup_insert_eq.
    + destruct (IH _ _ Hnd Hok Hin)
        as (before & after & bytes' & He & Hf & Hs & Hn).
      exists ([EvHashFile n;
               EvFsdbSet (key_last_sha512 t) (sha512_hexdigest E bytes);
               EvFsdbSet (key_last_name t) n] ++ before), after, bytes'.
      rewrite He. split; [reflexivity|].
      split; [|split; assumption].
      rewrite <- Hf. f_equal. rewrite <- !app_assoc. reflexivity.
Qed.

(** The executor records the hashes of a driver when, and only when,
    [flash_post_check] returned [None] for it: what [verify] does then
    is what [_hash_record] does on the images of the driver. *)
Lemma verify_records_hashes p i images ctx st check_period retries past s :
  cls i = impl2_c check_period retries ->
  drv_flash_post_check E i images ctx past = Returns None ->
  let r := _hash_record E images (past ++ [EvFlashPostCheck i images ctx]) s in
  emitted (verify E p i images ctx st past s)
  = EvFlashPostCheck i images ctx :: emitted r
  /\ store (verify E p i images ctx st past s) = store r
  /\ (out r = Ok tt -> exists st', out (verify E p i images ctx st past s) = Ok st').
Proof.
  intros Hcls Hpost. cbv zeta. unfold verify, flash_post_check.
  rewrite Hcls, bind_ask, Hpost. simpl.
  unfold bind. cbv zeta.
  destruct (out (_hash_record E images _ s)) as [[]|e|] eqn:Hr; simpl.
  - rewrite app_nil_r. split; [reflexivity|]. split; [reflexivity|]. eauto.
  - split; [reflexivity|]. split; [reflexivity|]. discriminate.
  - split; [reflexivity|]. split; [reflexivity|]. discriminate.
Qed.

End Hash_record.


(** ** Errors of the metadata store *)

Section Store_errors.

Variable E : Env.

Lemma writes_ok_app past evs1 evs2 :
  writes_ok E past (evs1 ++ evs2)
  <-> writes_ok E past evs1 /\ writes_ok E (past ++ evs1) evs2.
Proof.
  revert past. induction evs1 as [|e evs1 IH]; intros past; simpl.
  - rewrite app_nil_r. tauto.
  - rewrite IH, <- app_assoc. simpl. tauto.
Qed.

Lemma fsdb_write_failed_not_ok past evs :
  fsdb_write_failed E past evs -> ~ writes_ok E past evs.
Proof.
  intros (before & key & value & after & -> & Hfail) Hok.
  apply writes_ok_app in Hok as [_ [Hok _]]. contradiction.
Qed.

Local Abbreviation careful := (careful E).

Lemma careful_ret {A} (a : A) : careful (ret a).
Proof. intros past s _. exact I. Qed.

Lemma careful_raise {A} e : careful (@raise A e).
Proof. intros past s _. exact I. Qed.

Lemma careful_out_of_fuel {A} : careful (@out_of_fuel A).
Proof. intros past s _. exact I. Qed.

Lemma careful_bind {A B} (m : M A) (f : A -> M B) :
  careful m -> (forall a, careful (f a)) -> careful (bind m f).
Proof.
  intros Hm Hf past s. unfold bind. cbv zeta.
  specialize (Hm past s).
  destruct (out (m past s)) as [a|e|]; simpl; intros Hne.
  - apply writes_ok_app. split.
    + apply Hm. discriminate.
    + now apply Hf.
  - now destruct (Hne e).
  - apply Hm. discriminate.
Qed.

Lemma careful_try_finally {A} (body : M A) (handler : M unit) :
  careful body -> careful handler -> ends handler ->
  careful (try_finally body handler).
Proof.
  intros Hb Hh Hends past s. unfold try_finally. cbv zeta.
  specialize (Hb past s).
  specialize (Hh (past ++ emitted (body past s)) (store (body past s))).
  specialize (Hends (past ++ emitted (body past s)) (store (body past s))).
  destruct (out (body past s)) as [a|e|]; simpl.
  - destruct (out (handler _ _)) as [[]|e|]; simpl in *; intros Hne.
    + apply writes_ok_app. split; [apply Hb | apply Hh]; discriminate.
    + now destruct (Hne e).
    + contradiction.
  - destruct (out (handler _ _)) as [[]|e'|]; simpl in *; intros Hne.
    + now destruct (Hne e).
    + now destruct (Hne e').
    + contradiction.
  - intros _. apply Hb. discriminate.
Qed.

Lemma careful_call e ans :
  match e with EvFsdbSet _ _ => False | _ => True end ->
  careful (call e ans).
Proof.
  intros He past s _. unfold call.
  destruct (ans past); simpl; destruct e; tauto.
Qed.

Lemma careful_ask {A} e (ans : list event -> answer A) :
  match e with EvFsdbSet _ _ => False | _ => True end ->
  careful (ask e ans).
Proof.
  intros He past s _. unfold ask.
  destruct (ans past); simpl; destruct e; tauto.
Qed.

Lemma careful_fsdb_set key value : careful (target_fsdb_set E key value).
Proof.
  intros past s. unfold target_fsdb_set.
  destruct (fsdb_set E key value past) as [x|] eqn:Hset; simpl; intros Hne.
  - now destruct (Hne (Raised x)).
  - auto.
Qed.

Ltac careful_step :=
  match goal with
  | |- careful (bind _ _) => apply careful_bind; [|intros ?]
  | |- careful (ret _) => apply careful_ret
  | |- careful (raise _) => apply careful_raise
  | |- careful out_of_fuel => apply careful_out_of_fuel
  | |- careful (call _ _) => apply careful_call; exact I
  | |- careful (ask _ _) => apply careful_ask; exact I
  | |- careful (target_fsdb_set _ _ _) => apply careful_fsdb_set
  | |- careful (match ?x with _ => _ end) => destruct x
  | H : _ |- careful _ => apply H
  end.

Ltac careful_auto := autounfold with flash_prims; repeat careful_step.

Lemma careful_hash_record images : careful (_hash_record E images).
Proof. induction images as [|[t n] images IH]; simpl; careful_auto. Qed.

Lemma careful_start_all items st : careful (start_all E items st).
Proof.
  revert st. induction items as [|[i images] items IH]; intros st; simpl;
    careful_auto.
Qed.

Lemma careful_kill_all items contexts m : careful (kill_all E items contexts m).
Proof. induction items as [|[i images] items IH]; simpl; careful_auto. Qed.

Lemma careful_verify parallel_ i images ctx st :
  careful (verify E parallel_ i images ctx st).
Proof.
  pose proof careful_hash_record. pose proof careful_kill_all.
  unfold verify. careful_auto.
Qed.

Lemma careful_poll_all parallel_ loop_ts0 items st :
  careful (poll_all E parallel_ loop_ts0 items st).
Proof.
  pose proof careful_verify.
  revert st. induction items as [|[i images] items IH]; intros st; simpl;
    careful_auto.
Qed.

Lemma careful_supervise fuel parallel_ sd loop_ts0 ts st :
  careful (supervise E fuel parallel_ sd loop_ts0 ts st).
Proof.
  pose proof careful_poll_all. pose proof careful_kill_all.
  revert ts st. induction fuel as [|fuel IH]; intros ts st; simpl;
    careful_auto.
Qed.

Lemma careful_flash_parallel_do fuel parallel_ :
  careful (_flash_parallel_do E fuel parallel_).
Proof.
  pose proof careful_start_all. pose proof careful_supervise.
  unfold _flash_parallel_do. careful_auto.
Qed.

Lemma careful_consoles_each f console_names :
  (forall console_name, careful (f console_name)) ->
  careful (consoles_each f console_names).
Proof. intros Hf. induction console_names; simpl; careful_auto. Qed.

Lemma careful_flash_consoles_disable parallel_ :
  careful (_flash_consoles_disable E parallel_).
Proof.
  induction parallel_ as [|[i images] parallel_ IH]; simpl; careful_auto.
  apply careful_consoles_each. intros c. careful_auto.
Qed.

Lemma careful_flash_consoles_enable parallel_ :
  careful (_flash_consoles_enable E parallel_).
Proof.
  induction parallel_ as [|[i images] parallel_ IH]; simpl; careful_auto.
  apply careful_consoles_each. intros c. careful_auto.
Qed.

Lemma careful_flash_parallel fuel parallel_ pre post :
  careful (_flash_parallel E fuel parallel_ pre post).
Proof.
  pose proof careful_flash_consoles_disable.
  pose proof careful_flash_consoles_enable.
  pose proof careful_flash_parallel_do.
  unfold _flash_parallel. careful_auto.
  apply careful_try_finally.
  - careful_auto.
  - careful_auto.
  - pose proof (ends_flash_consoles_enable E).
    autounfold with flash_prims. repeat ends_step.
Qed.

Lemma careful_translate_allowed allowed img_name :
  careful (translate_allowed allowed img_name).
Proof. induction allowed as [|[p t] allowed IH]; simpl; careful_auto. Qed.

Lemma careful_classify user_path images serial parallel_ :
  careful (classify E user_path images serial parallel_).
Proof.
  pose proof careful_translate_allowed.
  revert serial parallel_.
  induction images as [|[t n] images IH]; intros serial parallel_; simpl;
    careful_auto.
  all: apply careful_try_finally; [careful_auto.. | apply ends_call].
Qed.

Lemma careful_flash_serial fuel serial : careful (flash_serial E fuel serial).
Proof.
  pose proof careful_flash_parallel.
  induction serial as [|[i images] serial IH]; simpl; careful_auto.
Qed.

Lemma careful_put_flash fuel self images user_path :
  careful (put_flash E fuel self images user_path).
Proof.
  pose proof careful_classify. pose proof careful_flash_serial.
  pose proof careful_flash_parallel.
  unfold put_flash. careful_auto.
Qed.

(** C8, as the code has it: an error of the metadata store is not
    swallowed.  If one of the writes made while a request runs raises,
    [put_flash] ends with an exception. *)
Theorem put_flash_store_error fuel self images user_path past s :
  fsdb_write_failed E past
    (emitted (put_flash E fuel self images user_path past s)) ->
  exists e, out (put_flash E fuel self images user_path past s) = Err e.
Proof.
  intros Hfail. apply fsdb_write_failed_not_ok in Hfail.
  destruct (out (put_flash E fuel self images user_path past s))
    as [a|e|] eqn:Hout.
  - destruct Hfail. apply careful_put_flash. rewrite Hout. discriminate.
  - now exists e.
  - destruct Hfail. apply careful_put_flash. rewrite Hout. discriminate.
Qed.

(** The hash recorder itself hands the exception on. *)
Lemma hash_record_store_error images past s :
  fsdb_write_failed E past (emitted (_hash_record E images past s)) ->
  exists e, out (_hash_record E images past s) = Err e.
Proof.
  intros Hfail. apply fsdb_write_failed_not_ok in Hfail.
  destruct (out (_hash_record E images past s)) as [a|e|] eqn:Hout.
  - destruct Hfail. apply careful_hash_record. rewrite Hout. discriminate.
  - now exists e.
  - destruct Hfail. apply careful_hash_record. rewrite Hout. discriminate.
Qed.

End Store_errors.

(** A request whose driver flashes and verifies well, on a store that
    refuses writes. *)
Lemma lab_store_refuses :
  let e := Lab.env Lab.always_passes Lab.finished Lab.starts (fun _ => true)
             (Lab.registry_of (Lab.shell 1 2 0)) in
  let r := put_flash e 10 Lab.itf [("rom", "fw.bin")] "/home/u" [] ∅ in
  fsdb_write_failed e [] (emitted r).
Proof.
  intros e r.
  exists (take 20 (emitted r)), "interfaces.images.rom.last_sha512",
    "cf83e1357eefb8bd", (drop 21 (emitted r)).
  split; [vm_compute; reflexivity | vm_compute; discriminate].
Qed.

Lemma put_flash_store_error_witness :
  let e := Lab.env Lab.always_passes Lab.finished Lab.starts (fun _ => true)
             (Lab.registry_of (Lab.shell 1 2 0)) in
  exists x,
    out (put_flash e 10 Lab.itf [("rom", "fw.bin")] "/home/u" [] ∅) = Err x.
Proof.
  intros e.
  apply (put_flash_store_error e 10 Lab.itf [("rom", "fw.bin")] "/home/u" [] ∅).
  exists (take 20 (emitted (put_flash e 10 Lab.itf [("rom", "fw.bin")]
                             "/home/u" [] ∅))),
    "interfaces.images.rom.last_sha512", "cf83e1357eefb8bd",
    (drop 21 (emitted (put_flash e 10 Lab.itf [("rom", "fw.bin")]
                         "/home/u" [] ∅))).
  split; [vm_compute; reflexivity | vm_compute; discriminate].
Defined.

(** C8 as the specification states it does not hold: the driver has
    flashed and verified its image, the write of the hash raises, and
    the request does not succeed. *)
Lemma put_flash_store_error_not_tolerated :
  let e := Lab.env Lab.always_passes Lab.finished Lab.starts (fun _ => true)
             (Lab.registry_of (Lab.shell 1 2 0)) in
  let r := put_flash e 10 Lab.itf [("rom", "fw.bin")] "/home/u" [] ∅ in
  ~ (fsdb_write_failed e [] (emitted r) -> out r = Ok []).
Proof.
  intros e r H. specialize (H lab_store_refuses). vm_compute in H.
  discriminate.
Qed.

(** ** The policy on absolute paths *)

Section Path_policy.

Variable E : Env.

Lemma translate_allowed_denied allowed img_name past s :
  Forall (fun x => String.prefix (fst x) img_name = false) allowed ->
  translate_allowed allowed img_name past s
  = Run (Err (PermissionError img_name)) [] s.
Proof.
  induction 1 as [|[path path_translated] allowed Hp _ IH]; simpl.
  - reflexivity.
  - simpl in Hp. rewrite Hp. exact IH.
Qed.

Lemma only_translate_allowed P allowed img_name :
  only P (translate_allowed allowed img_name).
Proof. induction allowed as [|[p t] allowed IH]; simpl; only_auto. Qed.

(** The first loop of [put_flash] locks, decompresses and touches, and
    does nothing else. *)
Lemma only_classify user_path images serial parallel_ :
  only is_resolution (classify E user_path images serial parallel_).
Proof.
  pose proof (only_translate_allowed is_resolution).
  revert serial parallel_.
  induction images as [|[t n] images IH]; intros serial parallel_; simpl;
    only_auto.
Qed.

(** Such calls touch neither the power rail, nor a console, nor a
    driver, nor the metadata store. *)
Lemma resolution_flashes_nothing e :
  is_resolution e ->
  ~ is_power e /\ ~ is_console e /\ ~ is_driver e /\ ~ is_hash_record e.
Proof. destruct e; simpl; tauto. Qed.

Lemma ends_translate_allowed allowed img_name :
  ends (translate_allowed allowed img_name).
Proof. induction allowed as [|[p t] allowed IH]; simpl; repeat ends_step. Qed.

Lemma ends_classify user_path images serial parallel_ :
  ends (classify E user_path images serial parallel_).
Proof.
  pose proof ends_translate_allowed.
  revert serial parallel_.
  induction images as [|[t n] images IH]; intros serial parallel_; simpl;
    autounfold with flash_prims; repeat ends_step.
Qed.

Lemma cut_short_bind {A B C} fail (m : M A) (f : A -> M B) (g : A -> M C)
    past s :
  (forall a past' s', cut_short fail (f a past' s') (g a past' s')) ->
  cut_short fail (bind m f past s) (bind m g past s).
Proof.
  intros H. unfold bind. cbv zeta.
  destruct (out (m past s)) as [a|e|]; simpl.
  - destruct (H a (past ++ emitted (m past s)) (store (m past s)))
      as (He & Hs & Ho).
    unfold cut_short. simpl. rewrite He, Hs. auto.
  - repeat split.
  - repeat split.
Qed.

(** The entries of a request that follow an absolute path that is not
    allowed are not looked at, and the entry itself raises before any
    call is made for it. *)
Lemma classify_cut_short user_path pre img_type img_name post :
  isabs img_name = true ->
  Forall (fun x => String.prefix (fst x) img_name = false) (paths_allowed E) ->
  forall serial parallel_ past s,
    cut_short (denied E img_type img_name)
      (classify E user_path (pre ++ (img_type, img_name) :: post)
         serial parallel_ past s)
      (classify E user_path pre serial parallel_ past s).
Proof.
  intros Habs Hdenied.
  induction pre as [|[t n] pre IH]; intros serial parallel_ past s.
  - simpl. unfold denied, self_impl_get_by_name.
    destruct (impl_get_by_name E img_type) as [[i img_type_real]|e].
    + rewrite bind_ret, Habs. simpl.
      unfold bind at 1. cbv zeta.
      rewrite translate_allowed_denied by assumption.
      repeat split.
    + repeat split.
  - simpl. apply cut_short_bind. intros [i img_type_real] past1 s1.
    apply cut_short_bind. intros file_name past2 s2.
    apply cut_short_bind. intros real_file_name past3 s3.
    destruct (parallel i); apply cut_short_bind; intros [] past4 s4; apply IH.
Qed.

(** C9, as the code has it.  A request with an entry whose path is
    absolute and starts with none of the allowed prefixes: [put_flash]
    raises; all it has done before is what the loop over the entries
    that come before that one does (take the decompression lock,
    decompress, touch), so that no call is made for the offending
    path and nothing is flashed.  The exception is [PermissionError]
    when the entries before resolve and the image type of the entry is
    a known one. *)
Theorem put_flash_path_denied fuel self user_path pre img_type img_name post
    past s :
  isabs img_name = true ->
  Forall (fun x => String.prefix (fst x) img_name = false) (paths_allowed E) ->
  let r := put_flash E fuel self (pre ++ (img_type, img_name) :: post)
             user_path past s in
  let r0 := classify E user_path pre [] [] past s in
  (exists e, out r = Err e)
  /\ emitted r = emitted r0
  /\ Forall is_resolution (emitted r)
  /\ (forall buckets found,
        out r0 = Ok buckets ->
        impl_get_by_name E img_type = Returns found ->
        out r = Err (PermissionError img_name)).
Proof.
  intros Habs Hdenied r r0.
  destruct (classify_cut_short user_path pre img_type img_name post
              Habs Hdenied [] [] past s) as (He & Hs & Ho).
  fold r0 in He, Hs, Ho.
  set (c := classify E user_path (pre ++ (img_type, img_name) :: post)
              [] [] past s) in *.
  assert (Hr : out c <> Fuel) by apply ends_classify.
  assert (Hr0 : out r0 <> Fuel) by apply ends_classify.
  assert (Hc : exists e, out c = Err e /\ r = Run (Err e) (emitted c) (store c)).
  { destruct (out r0) as [b|e|] eqn:Hout0.
    - eexists. split; [exact Ho|]. unfold r, put_flash. now apply bind_err.
    - eexists. split; [exact Ho|]. unfold r, put_flash. now apply bind_err.
    - contradiction. }
  destruct Hc as (e & Hce & Hre).
  split; [exists e; now rewrite Hre|].
  split; [now rewrite Hre|].
  split.
  - rewrite Hre. simpl. apply only_classify.
  - intros buckets found Hok Hfound. rewrite Hre. simpl.
    rewrite Hok in Ho. unfold denied in Ho. rewrite Hfound in Ho.
    congruence.
Qed.

End Path_policy.

Lemma put_flash_path_denied_witness :
  let e := Lab.env Lab.always_passes Lab.finished Lab.starts (fun _ => false)
             (Lab.registry_of (Lab.shell 1 2 0)) in
  let r := put_flash e 10 Lab.itf [("rom", "/etc/shadow")] "/home/u" [] ∅ in
  let r0 := classify e "/home/u" [] [] [] [] ∅ in
  (exists x, out r = Err x)
  /\ emitted r = emitted r0
  /\ Forall is_resolution (emitted r)
  /\ (forall buckets found,
        out r0 = Ok buckets ->
        impl_get_by_name e "rom" = Returns found ->
        out r = Err (PermissionError "/etc/shadow")).
Proof.
  intros e.
  apply (put_flash_path_denied e 10 Lab.itf "/home/u" [] "rom" "/etc/shadow"
           [] [] ∅).
  - reflexivity.
  - repeat constructor.
Defined.

(** C9 as the specification states it does not hold for every
    request: when the image type of the entry is not a known one, the
    exception is the one of the look-up, not [PermissionError]. *)
Lemma put_flash_path_denied_other_error :
  let e := Lab.env Lab.always_passes Lab.finished Lab.starts (fun _ => false)
             (Lab.registry_of (Lab.shell 1 2 0)) in
  let r := put_flash e 10 Lab.itf [("bios", "/etc/shadow")] "/home/u" [] ∅ in
  isabs "/etc/shadow" = true
  /\ Forall (fun x => String.prefix (fst x) "/etc/shadow" = false)
       (paths_allowed e)
  /\ out r = Err (Raised "unknown image type")
  /\ ~ (exists img_name, out r = Err (PermissionError img_name)).
Proof.
  intros e r. split; [reflexivity|]. split; [repeat constructor|].
  split; [reflexivity|]. intros [img_name H]. vm_compute in H. discriminate.
Qed.

(** ** The supervision of the drivers *)

Section Tracking.

Lemma starts_for_app id evs1 evs2 :
  starts_for id (evs1 ++ evs2) = starts_for id evs1 ++ starts_for id evs2.
Proof. apply omap_app. Qed.

Lemma starts_for_quiet id evs : Forall is_quiet evs -> starts_for id evs = [].
Proof.
  induction 1 as [|e evs He _ IH]; [reflexivity|].
  unfold starts_for in *. destruct e; simpl in *; try contradiction; exact IH.
Qed.

Lemma quiet_not_kill evs :
  Forall is_quiet evs -> Forall (fun e => ~ is_kill e) evs.
Proof. intros H. eapply Forall_impl; [exact H|]. intros e He. now destruct e. Qed.

Lemma starts_for_kills id p contexts m : starts_for id (kills_of p contexts m) = [].
Proof. induction p as [|x p IH]; [reflexivity | exact IH]. Qed.

Lemma attempts_next t0 n :
  1 <= n ->
  attempts t0 (n + 1) = attempts t0 n ++ [{| ts0 := t0; retry_count := n + 1 |}].
Proof.
  intros Hn. unfold attempts.
  rewrite seqZ_app by lia. rewrite map_app. f_equal.
  rewrite seqZ_cons by lia. rewrite seqZ_nil by lia. simpl.
  do 2 f_equal. lia.
Qed.

Lemma attempts_last t0 n :
  1 <= n -> last (attempts t0 n) = Some {| ts0 := t0; retry_count := n |}.
Proof.
  intros Hn. replace n with ((n - 1) + 1) at 1 by lia. unfold attempts.
  rewrite seqZ_app by lia. rewrite map_app, last_app.
  rewrite seqZ_cons by lia. rewrite seqZ_nil by lia. simpl.
  do 2 f_equal. lia.
Qed.

Lemma attempts_length t0 n : length (attempts t0 n) = Z.to_nat n.
Proof. unfold attempts. now rewrite length_map, length_seqZ. Qed.

(** Two entries of a dictionary with the same key are one entry. *)
Lemma plan_entry_unique (p : plan) i images j images' :
  NoDup (ids p) -> (i, images) ∈ p -> (j, images') ∈ p ->
  impl_id i = impl_id j -> (i, images) = (j, images').
Proof.
  intros Hnd Hi Hj Hid. unfold ids in Hnd.
  apply list_elem_of_lookup in Hi as [n Hn].
  apply list_elem_of_lookup in Hj as [n' Hn'].
  assert (n = n').
  { eapply NoDup_lookup; [exact Hnd | |].
    - rewrite list_lookup_fmap, Hn. reflexivity.
    - rewrite list_lookup_fmap, Hn'. simpl. now rewrite Hid. }
  subst. congruence.
Qed.

Lemma tracked_quiet p contexts evs evs' :
  tracked p contexts evs -> Forall is_quiet evs' ->
  tracked p contexts (evs ++ evs').
Proof.
  intros Ht Hq i images Hin. destruct (Ht i images Hin) as (ctx & Hc & Hs & Hb).
  exists ctx. rewrite starts_for_app, (starts_for_quiet _ evs'), app_nil_r by auto.
  auto.
Qed.

(** A restart. *)
Lemma tracked_restart p contexts evs i images ctx :
  NoDup (ids p) -> (i, images) ∈ p ->
  contexts !! impl_id i = Some ctx ->
  retry_count ctx <= retries_of i ->
  tracked p contexts evs ->
  let ctx' := {| ts0 := ts0 ctx; retry_count := retry_count ctx + 1 |} in
  tracked p (<[impl_id i := ctx']> contexts)
    (evs ++ [EvFlashStart i images ctx']).
Proof.
  intros Hnd Hin Hctx Hle Ht ctx' j images' Hj.
  destruct (Ht j images' Hj) as (cj & Hcj & Hsj & Hbj).
  rewrite starts_for_app. unfold starts_for at 2. simpl.
  destruct (Nat.eqb_spec (impl_id i) (impl_id j)) as [Heq | Hne].
  - assert (Hsame : (i, images) = (j, images'))
      by (eapply plan_entry_unique; eauto).
    injection Hsame as <- <-.
    rewrite Hctx in Hcj. injection Hcj as <-.
    exists ctx'. rewrite lookup_insert_eq. split; [reflexivity|].
    simpl. split.
    + rewrite Hsj. symmetry. apply attempts_next. lia.
    + lia.
  - exists cj. rewrite lookup_insert_ne by assumption.
    rewrite app_nil_r. auto.
Qed.

(** The first start. *)
Lemma tracked_first_start done_items contexts evs i images t0 :
  ~ impl_id i ∈ ids done_items ->
  starts_for (impl_id i) evs = [] ->
  tracked done_items contexts evs ->
  let ctx := {| ts0 := t0; retry_count := 1 |} in
  tracked (done_items ++ [(i, images)]) (<[impl_id i := ctx]> contexts)
    (evs ++ [EvTime; EvFlashStart i images ctx]).
Proof.
  intros Hnew Hfresh Ht ctx j images' Hj.
  rewrite starts_for_app. unfold starts_for at 2. simpl.
  apply elem_of_app in Hj as [Hj | Hj].
  - destruct (Ht j images' Hj) as (cj & Hcj & Hsj & Hbj).
    assert (Hne : impl_id i <> impl_id j).
    { intros Heq. apply Hnew. rewrite Heq. unfold ids.
      apply list_elem_of_fmap. now exists (j, images'). }
    exists cj. rewrite lookup_insert_ne by assumption.
    destruct (Nat.eqb_spec (impl_id i) (impl_id j)); [contradiction|].
    rewrite app_nil_r. auto.
  - apply list_elem_of_singleton in Hj. injection Hj as -> ->.
    exists ctx. rewrite lookup_insert_eq, Nat.eqb_refl, Hfresh.
    split; [reflexivity|]. split; [reflexivity|]. simpl. lia.
Qed.

Lemma recorded_app_l images evs evs' :
  recorded images evs -> recorded images (evs ++ evs').
Proof.
  intros H t n Hin. destruct (H t n Hin) as [[digest Hd] Hn].
  split; [exists digest|]; apply elem_of_app; now left.
Qed.

Lemma recorded_app_r images evs evs' :
  recorded images evs' -> recorded images (evs ++ evs').
Proof.
  intros H t n Hin. destruct (H t n Hin) as [[digest Hd] Hn].
  split; [exists digest|]; apply elem_of_app; now right.
Qed.

Lemma all_done_app p done_impls evs evs' :
  all_done p done_impls evs -> all_done p done_impls (evs ++ evs').
Proof.
  intros H id Hid. destruct (H id Hid) as (i & images & Hin & Heq & Hrec).
  exists i, images. auto using recorded_app_l.
Qed.

Lemma all_done_add p done_impls evs i images :
  all_done p done_impls evs -> (i, images) ∈ p -> recorded images evs ->
  all_done p (done_impls ∪ {[impl_id i]}) evs.
Proof.
  intros H Hin Hrec id Hid. apply elem_of_union in Hid as [Hid | Hid].
  - now apply H.
  - apply elem_of_singleton in Hid as ->. now exists i, images.
Qed.

Lemma supervised_quiet p contexts done_impls evs evs' :
  supervised p contexts done_impls evs -> Forall is_quiet evs' ->
  supervised p contexts done_impls (evs ++ evs').
Proof.
  intros [Ht Hd] Hq. split; [now apply tracked_quiet | now apply all_done_app].
Qed.

(** When as many drivers are done as the plan has, all are. *)
Lemma all_done_complete p done_impls evs :
  NoDup (ids p) ->
  all_done p done_impls evs ->
  size done_impls = length p ->
  forall i images, (i, images) ∈ p -> recorded images evs.
Proof.
  intros Hnd Hdone Hsize i images Hin.
  assert (Hsub : done_impls ⊆ list_to_set (ids p)).
  { intros id Hid. destruct (Hdone id Hid) as (j & imj & Hj & <- & _).
    apply elem_of_list_to_set. unfold ids. apply list_elem_of_fmap.
    now exists (j, imj). }
  assert (Heq : done_impls = list_to_set (ids p)).
  { apply set_subseteq_size_eq; [exact Hsub|].
    rewrite size_list_to_set by exact Hnd. unfold ids.
    rewrite length_fmap. lia. }
  assert (Hid : impl_id i ∈ done_impls).
  { rewrite Heq. apply elem_of_list_to_set. unfold ids.
    apply list_elem_of_fmap. now exists (i, images). }
  destruct (Hdone _ Hid) as (j & imj & Hj & Hsame & Hrec).
  assert (Hentry : (j, imj) = (i, images))
    by (eapply plan_entry_unique; eauto).
  now injection Hentry as -> ->.
Qed.

End Tracking.

Section Supervision.

Variable E : Env.

(** *** Pieces that start and kill nothing *)

Lemma quiet_ret {A} (a : A) : quiet (ret a).
Proof. intros past s. split; [constructor | discriminate]. Qed.

Lemma quiet_raise {A} e :
  match e with RuntimeError _ => False | _ => True end -> quiet (@raise A e).
Proof.
  intros He past s. split; [constructor|]. intros m' H. simpl in H.
  injection H as ->. contradiction.
Qed.

Lemma quiet_bind {A B} (m : M A) (f : A -> M B) :
  quiet m -> (forall a, quiet (f a)) -> quiet (bind m f).
Proof.
  intros Hm Hf past s. unfold bind. cbv zeta.
  destruct (Hm past s) as [Hev Hne].
  destruct (out (m past s)) as [a|e|]; simpl.
  - destruct (Hf a (past ++ emitted (m past s)) (store (m past s))) as [Hev' Hne'].
    split; [apply Forall_app; auto | assumption].
  - split; [assumption|]. intros m' H. injection H as ->. now apply (Hne m').
  - split; [assumption | discriminate].
Qed.

Lemma quiet_call e ans : is_quiet e -> quiet (call e ans).
Proof.
  intros He past s. unfold call.
  destruct (ans past); simpl; (split; [auto | discriminate]).
Qed.

Lemma quiet_ask {A} e (ans : list event -> answer A) :
  is_quiet e -> quiet (ask e ans).
Proof.
  intros He past s. unfold ask.
  destruct (ans past); simpl; (split; [auto | discriminate]).
Qed.

Lemma quiet_fsdb_set key value : quiet (target_fsdb_set E key value).
Proof.
  intros past s. unfold target_fsdb_set.
  destruct (fsdb_set E key value past); simpl;
    (split; [repeat constructor | discriminate]).
Qed.

Ltac quiet_step :=
  match goal with
  | |- quiet (bind _ _) => apply quiet_bind; [|intros ?]
  | |- quiet (ret _) => apply quiet_ret
  | |- quiet (raise _) => apply quiet_raise; exact I
  | |- quiet (call _ _) => apply quiet_call; exact I
  | |- quiet (ask _ _) => apply quiet_ask; exact I
  | |- quiet (target_fsdb_set _ _ _) => apply quiet_fsdb_set
  | |- quiet (match ?x with _ => _ end) => destruct x
  | H : _ |- quiet _ => apply H
  end.

Ltac quiet_auto := autounfold with flash_prims; repeat quiet_step.

Lemma quiet_hash_record images : quiet (_hash_record E images).
Proof. induction images as [|[t n] images IH]; simpl; quiet_auto. Qed.

Lemma quiet_time_now : quiet (time_now E).
Proof. quiet_auto. Qed.

Lemma quiet_flash_check_done i images ctx :
  quiet (flash_check_done E i images ctx).
Proof. quiet_auto. Qed.

Lemma quiet_flash_post_check i images ctx :
  quiet (flash_post_check E i images ctx).
Proof. quiet_auto. Qed.

(** *** Killing all the drivers *)

Lemma kill_all_spec items contexts m past s :
  (forall m', out (kill_all E items contexts m past s) <> Err (RuntimeError m'))
  /\ (out (kill_all E items contexts m past s) = Ok tt ->
      emitted (kill_all E items contexts m past s) = kills_of items contexts m).
Proof.
  revert past s. induction items as [|[i images] items IH]; intros past s.
  - split; [discriminate | reflexivity].
  - simpl. unfold contexts_get.
    destruct (contexts !! impl_id i) as [ctx|] eqn:Hctx;
      [|split; discriminate].
    rewrite bind_ret. unfold flash_kill.
    destruct (cls i); [split; discriminate|].
    rewrite bind_call.
    destruct (drv_flash_kill E i images ctx m past); [split; discriminate|].
    simpl. destruct (IH (past ++ [EvFlashKill i images ctx m]) s) as [Hne Hok].
    split; [assumption|]. intros H. rewrite (Hok H).
    unfold kills_of. simpl. now rewrite (lookup_total_correct _ _ _ Hctx).
Qed.

(** *** The postcondition through a sequence *)

Lemma post_ret {A} p evs0 (Q : A -> list event -> Prop) a past s :
  Q a evs0 -> post p evs0 Q (ret a past s).
Proof.
  intros H. unfold post. simpl. rewrite app_nil_r. split; [constructor | assumption].
Qed.

Lemma post_prefix {A} p evs0 pre (Q : A -> list event -> Prop) (r : run A) :
  Forall (fun e => ~ is_kill e) pre ->
  post p (evs0 ++ pre) Q r ->
  post p evs0 Q (Run (out r) (pre ++ emitted r) (store r)).
Proof.
  intros Hpre. unfold post. simpl.
  destruct (out r) as [a|[m| | | | |]|]; auto.
  - intros [Hnk HQ]. split; [apply Forall_app; auto|].
    now rewrite app_assoc.
  - intros (before & contexts & He & Hnk & Ht & Hm).
    exists (pre ++ before), contexts. rewrite He.
    split; [now rewrite app_assoc|].
    split; [apply Forall_app; auto|].
    split; [now rewrite app_assoc | assumption].
Qed.

Lemma post_bind {A B} p evs0 (m : M A) (f : A -> M B)
    (QA : A -> list event -> Prop) (QB : B -> list event -> Prop) past s :
  post p evs0 QA (m past s) ->
  (forall a past' s',
      QA a (evs0 ++ emitted (m past s)) ->
      post p (evs0 ++ emitted (m past s)) QB (f a past' s')) ->
  post p evs0 QB (bind m f past s).
Proof.
  intros Hm Hf. unfold bind. cbv zeta. unfold post in Hm.
  destruct (out (m past s)) as [a|e|] eqn:Hout.
  - destruct Hm as [Hnk HQ]. apply post_prefix; auto.
  - unfold post. simpl. destruct e; auto.
  - exact I.
Qed.

(** A piece that starts and kills nothing keeps the invariant. *)
Lemma post_quiet {A} p evs0 contexts done_impls (m : M A) past s :
  quiet m -> supervised p contexts done_impls evs0 ->
  post p evs0 (fun _ evs => supervised p contexts done_impls evs) (m past s).
Proof.
  intros Hq Ht. destruct (Hq past s) as [Hev Hne]. unfold post.
  destruct (out (m past s)) as [a|[m'| | | | |]|]; auto.
  - split; [now apply quiet_not_kill | now apply supervised_quiet].
  - now destruct (Hne m').
Qed.

(** When the hashes of a driver have been recorded, they are in the
    events. *)
Lemma hash_record_recorded images :
  forall past s,
    out (_hash_record E images past s) = Ok tt ->
    recorded images (emitted (_hash_record E images past s)).
Proof.
  induction images as [|[t n] images IH]; intros past s Hok.
  - intros t' n' Hin. inversion Hin.
  - rewrite hash_record_cons, bind_hash_file in *.
    destruct (file_contents E n past) as [bytes|]; [|discriminate].
    rewrite bind_fsdb_set in *.
    destruct (fsdb_set E (key_last_sha512 t) _ _); [discriminate|].
    rewrite bind_fsdb_set in *.
    destruct (fsdb_set E (key_last_name t) _ _); [discriminate|].
    simpl in *. intros t' n' Hin.
    apply elem_of_cons in Hin as [Heq | Hin].
    + injection Heq as -> ->. split.
      * exists (sha512_hexdigest E bytes). set_solver.
      * set_solver.
    + destruct (IH _ _ Hok t' n' Hin) as [[digest Hd] Hn]. split.
      * exists digest. set_solver.
      * set_solver.
Qed.

Lemma post_hash_record p evs0 contexts done_impls images past s :
  supervised p contexts done_impls evs0 ->
  post p evs0
    (fun _ evs => supervised p contexts done_impls evs /\ recorded images evs)
    (_hash_record E images past s).
Proof.
  intros Hs. destruct (quiet_hash_record images past s) as [Hev Hne].
  pose proof (hash_record_recorded images past s) as Hrec. unfold post.
  destruct (out (_hash_record E images past s)) as [[]|[m'| | | | |]|]; auto.
  - split; [now apply quiet_not_kill|].
    split; [now apply supervised_quiet|].
    apply recorded_app_r. now apply Hrec.
  - now destruct (Hne m').
Qed.

(** The two ways out of the executor by [RuntimeError]: all the
    drivers are killed first. *)
Lemma post_kill_all_raise {A} p evs0 (Q : A -> list event -> Prop)
    contexts m past s :
  tracked p contexts evs0 -> msg_holds p contexts m ->
  post p evs0 Q
    ((kill_all E p contexts m ;;; raise (RuntimeError m)) past s).
Proof.
  intros Ht Hm. destruct (kill_all_spec p contexts m past s) as [Hne Hok].
  unfold bind. cbv zeta.
  destruct (out (kill_all E p contexts m past s)) as [[]|e|] eqn:Hout.
  - unfold post. simpl. exists [], contexts. rewrite app_nil_r.
    rewrite (Hok eq_refl). rewrite app_nil_r. repeat split; auto.
  - unfold post. simpl. destruct e; auto. now destruct (Hne m0).
  - exact I.
Qed.

Lemma post_restart p evs0 contexts done_impls i images ctx past s :
  NoDup (ids p) -> (i, images) ∈ p ->
  contexts !! impl_id i = Some ctx ->
  retry_count ctx <= retries_of i ->
  supervised p contexts done_impls evs0 ->
  let ctx' := {| ts0 := ts0 ctx; retry_count := retry_count ctx + 1 |} in
  post p evs0
    (fun _ evs => supervised p (<[impl_id i := ctx']> contexts) done_impls evs)
    (flash_start E i images ctx' past s).
Proof.
  intros Hnd Hin Hctx Hle [Ht Hd] ctx'. unfold flash_start.
  destruct (cls i); [exact I|]. unfold call, post.
  destruct (drv_flash_start E i images ctx' past); simpl; [exact I|].
  split; [repeat constructor; auto|].
  split; [now apply tracked_restart | now apply all_done_app].
Qed.

(** *** The pieces of the executor *)

Section Plan.

Variable p : plan.
Hypothesis p_keys : NoDup (ids p).

Lemma verify_spec i images ctx st evs0 past s :
  (i, images) ∈ p ->
  p_contexts st !! impl_id i = Some ctx ->
  supervised p (p_contexts st) (done_impls st) evs0 ->
  post p evs0
    (fun st' evs => supervised p (p_contexts st') (done_impls st') evs)
    (verify E p i images ctx st past s).
Proof.
  intros Hin Hctx Ht. unfold verify.
  eapply post_bind.
  { apply post_quiet; [apply quiet_flash_post_check | exact Ht]. }
  intros [r|] past1 s1 Ht1.
  - (* the verification failed *)
    unfold get_retries, retries_of in *.
    destruct (cls i) as [|check_period retries] eqn:Hcls; [exact I|].
    rewrite bind_ret.
    destruct (Z.leb_spec (retry_count ctx) retries) as [Hle | Hgt].
    + eapply post_bind.
      { apply post_restart; eauto. unfold retries_of. now rewrite Hcls. }
      intros [] past2 s2 Ht2. now apply post_ret.
    + apply post_kill_all_raise; [apply Ht1|].
      split; [assumption|]. split; [eauto|].
      unfold retries_of. now rewrite Hcls.
  - (* the verification passed *)
    eapply post_bind.
    { apply post_hash_record. exact Ht1. }
    intros [] past2 s2 [[Ht2 Hd2] Hrec]. apply post_ret. simpl.
    split; [assumption|]. now apply (all_done_add p _ _ i images).
Qed.

Lemma poll_all_spec loop_ts0 items st evs0 past s :
  (forall x, x ∈ items -> x ∈ p) ->
  supervised p (p_contexts st) (done_impls st) evs0 ->
  post p evs0
    (fun st' evs => supervised p (p_contexts st') (done_impls st') evs)
    (poll_all E p loop_ts0 items st past s).
Proof.
  revert st evs0 past s.
  induction items as [|[i images] items IH]; intros st evs0 past s Hsub Ht.
  - now apply post_ret.
  - assert (Hin : (i, images) ∈ p) by (apply Hsub; left).
    assert (Hsub' : forall x, x ∈ items -> x ∈ p)
      by (intros x Hx; apply Hsub; now right).
    simpl. destruct (decide (impl_id i ∈ done_impls st)); [now apply IH|].
    unfold contexts_get.
    destruct (p_contexts st !! impl_id i) as [ctx|] eqn:Hctx; [|exact I].
    rewrite bind_ret.
    eapply post_bind.
    { apply post_quiet; [apply quiet_time_now | exact Ht]. }
    intros ts past1 s1 Ht1. unfold get_check_period.
    destruct (cls i) as [|check_period retries] eqn:Hcls; [exact I|].
    rewrite bind_ret.
    destruct (Qltb check_period (ts - loop_ts0)); [|now apply IH].
    eapply post_bind.
    { apply post_quiet; [apply quiet_flash_check_done | exact Ht1]. }
    intros [|] past2 s2 Ht2; [|now apply IH].
    eapply post_bind.
    { now apply verify_spec. }
    intros st' past3 s3 Ht3. now apply IH.
Qed.

(** When the supervision returns, the hashes of every driver of the
    plan have been recorded. *)
Lemma supervise_spec fuel sd loop_ts0 ts st evs0 past s :
  supervised p (p_contexts st) (done_impls st) evs0 ->
  post p evs0
    (fun _ evs => forall i images, (i, images) ∈ p -> recorded images evs)
    (supervise E fuel p sd loop_ts0 ts st past s).
Proof.
  revert ts st evs0 past s.
  induction fuel as [|fuel IH]; intros ts st evs0 past s Ht; simpl;
    (destruct (Qltb (ts - loop_ts0) (inject_Z (max_estimated_duration sd)));
     [|apply post_kill_all_raise; [apply Ht | exact I]]).
  - exact I.
  - eapply post_bind.
    { apply (post_quiet p evs0 (p_contexts st) (done_impls st)); [|exact Ht].
      unfold target_timestamp. apply quiet_call. exact I. }
    intros [] past1 s1 Ht1.
    eapply post_bind.
    { apply (post_quiet p _ (p_contexts st) (done_impls st)); [|exact Ht1].
      unfold time_sleep. apply quiet_call. exact I. }
    intros [] past2 s2 Ht2.
    eapply post_bind.
    { apply poll_all_spec; [auto | exact Ht2]. }
    intros st' past3 s3 Ht3.
    eapply post_bind.
    { apply post_quiet; [apply quiet_time_now | exact Ht3]. }
    intros ts' past4 s4 Ht4.
    destruct (Nat.eqb_spec (size (done_impls st')) (length p)) as [Hsize|_];
      [|now apply IH].
    apply post_ret. apply (all_done_complete p (done_impls st')); auto.
    apply Ht4.
Qed.

End Plan.

(** The first loop leaves every driver started once. *)
Lemma start_all_spec items :
  forall done_items st evs0 past s,
    NoDup (ids (done_items ++ items)) ->
    tracked done_items (contexts st) evs0 ->
    fresh items evs0 ->
    (forall m', out (start_all E items st past s) <> Err (RuntimeError m'))
    /\ Forall (fun e => ~ is_kill e) (emitted (start_all E items st past s))
    /\ (forall st',
          out (start_all E items st past s) = Ok st' ->
          tracked (done_items ++ items) (contexts st')
            (evs0 ++ emitted (start_all E items st past s))).
Proof.
  induction items as [|[i images] items IH];
    intros done_items st evs0 past s Hnd Ht Hfresh.
  - simpl. split; [discriminate|]. split; [constructor|].
    intros st' H. injection H as <-. now rewrite !app_nil_r.
  - rewrite start_all_cons. unfold time_now. rewrite bind_ask.
    unfold get_check_period.
    destruct (cls i) as [|check_period retries] eqn:Hcls.
    { simpl. split; [discriminate|]. split; [repeat constructor; auto|].
      discriminate. }
    rewrite bind_ret. unfold flash_start. rewrite Hcls, bind_call.
    set (ctx := {| ts0 := time_time E past; retry_count := 1 |}).
    destruct (drv_flash_start E i images ctx (past ++ [EvTime])).
    { simpl. split; [discriminate|]. split; [repeat constructor; auto|].
      discriminate. }
    simpl.
    set (st1 := {| contexts := <[impl_id i := ctx]> (contexts st);
                   max_estimated_duration := _;
                   min_check_period := _;
                   all_images := _ |}).
    set (past1 := (past ++ [EvTime]) ++ [EvFlashStart i images ctx]).
    assert (Hnd' : NoDup (ids ((done_items ++ [(i, images)]) ++ items)))
      by now rewrite <- app_assoc.
    assert (Hnew : ~ impl_id i ∈ ids done_items).
    { unfold ids in Hnd. rewrite fmap_app in Hnd.
      apply NoDup_app in Hnd as (_ & Hdis & _). intros Hc.
      apply (Hdis _ Hc). simpl. left. }
    assert (Hothers : forall j images', (j, images') ∈ items ->
                                        impl_id i <> impl_id j).
    { unfold ids in Hnd. rewrite fmap_app in Hnd.
      apply NoDup_app in Hnd as (_ & _ & Hnd). simpl in Hnd.
      apply NoDup_cons in Hnd as [Hni _]. intros j images' Hj Heq.
      apply Hni. rewrite Heq. apply list_elem_of_fmap. now exists (j, images'). }
    destruct (IH (done_items ++ [(i, images)]) st1
                (evs0 ++ [EvTime; EvFlashStart i images ctx]) past1 s)
      as (Hne & Hnk & Hok).
    + exact Hnd'.
    + apply tracked_first_start; auto. apply (Hfresh i images). left.
    + intros j images' Hj. rewrite starts_for_app.
      rewrite (Hfresh j images') by now right.
      unfold starts_for. simpl.
      destruct (Nat.eqb_spec (impl_id i) (impl_id j)) as [Heq|]; [|reflexivity].
      now destruct (Hothers j images' Hj).
    + split; [assumption|].
      split; [repeat constructor; auto|].
      intros st' Hst'. specialize (Hok st' Hst').
      rewrite <- app_assoc in Hok. simpl in Hok.
      now rewrite <- app_assoc in Hok.
Qed.

(** The executor, for a plan whose keys are distinct. *)
Lemma flash_parallel_do_spec fuel p past s :
  NoDup (ids p) ->
  post p []
    (fun _ evs => forall i images, (i, images) ∈ p -> recorded images evs)
    (_flash_parallel_do E fuel p past s).
Proof.
  intros Hnd. unfold _flash_parallel_do.
  set (st0 := {| contexts := ∅; max_estimated_duration := 0;
                 min_check_period := 4; all_images := [] |}).
  destruct (start_all_spec p [] st0 [] past s) as (Hne & Hnk & Hok).
  - exact Hnd.
  - intros i images Hin. inversion Hin.
  - intros j images Hj. reflexivity.
  - unfold bind at 1. cbv zeta.
    destruct (out (start_all E p st0 past s)) as [sd|e|] eqn:Hout.
    + apply (post_prefix p [] _
               (fun _ evs => forall i images,
                               (i, images) ∈ p -> recorded images evs));
        [assumption|].
      specialize (Hok sd eq_refl). simpl in Hok.
      assert (Hs : supervised p (contexts sd) ∅
                     ([] ++ emitted (start_all E p st0 past s))).
      { split; [exact Hok|]. intros id Hid. set_solver. }
      eapply post_bind.
      { apply (post_quiet p _ (contexts sd) ∅);
          [apply quiet_time_now | exact Hs]. }
      intros loop_ts0 past1 s1 Ht1.
      now apply supervise_spec.
    + unfold post. simpl. destruct e; auto. now destruct (Hne m).
    + exact I.
Qed.

End Supervision.

Section Retries_and_kills.

Variable E : Env.

(** C4, as the code has it.  Whenever the executor raises its own
    [RuntimeError] (a driver is out of retries, or the deadline has
    passed), what it did ends with one [flash_kill] for each driver of
    the plan, in the order of the plan, done or not; there is no other
    [flash_kill]; and the context each driver is killed with is the one
    it was last started with. *)
Theorem flash_parallel_do_kills_all fuel p past s m :
  NoDup (ids p) ->
  out (_flash_parallel_do E fuel p past s) = Err (RuntimeError m) ->
  exists before contexts,
    emitted (_flash_parallel_do E fuel p past s)
    = before ++ kills_of p contexts m
    /\ Forall (fun e => ~ is_kill e) before
    /\ forall i images,
         (i, images) ∈ p ->
         last (starts_for (impl_id i) before) = Some (contexts !!! impl_id i).
Proof.
  intros Hnd Hout. pose proof (flash_parallel_do_spec E fuel p past s Hnd) as H.
  unfold post in H. rewrite Hout in H.
  destruct H as (before & contexts & He & Hnk & Ht & _).
  exists before, contexts. split; [assumption|]. split; [assumption|].
  intros i images Hin. destruct (Ht i images Hin) as (ctx & Hctx & Hs & Hb).
  simpl in Hs. rewrite Hs, (lookup_total_correct _ _ _ Hctx).
  rewrite attempts_last by lia. now destruct ctx.
Qed.

(** Whenever the executor gives up on a driver (the message of its
    [RuntimeError] names the driver), [flash_start] has been called on
    that driver [retries + 1] times: once at first and [retries] times
    again, each time with the context of the driver, whose
    [retry_count] went 1, 2, ..., [retries + 1]. *)
Lemma flash_parallel_do_gives_up_after_retries fuel p past s i images rc r :
  NoDup (ids p) ->
  0 <= retries_of i ->
  out (_flash_parallel_do E fuel p past s)
  = Err (RuntimeError (MsgAborting i images rc r)) ->
  (i, images) ∈ p
  /\ rc = retries_of i + 1
  /\ (exists t0,
        starts_for (impl_id i) (emitted (_flash_parallel_do E fuel p past s))
        = attempts t0 (retries_of i + 1))
  /\ length (starts_for (impl_id i)
               (emitted (_flash_parallel_do E fuel p past s)))
     = S (Z.to_nat (retries_of i)).
Proof.
  intros Hnd Hretries Hout.
  pose proof (flash_parallel_do_spec E fuel p past s Hnd) as H.
  unfold post in H. rewrite Hout in H.
  destruct H as (before & contexts & He & Hnk & Ht & Hin & (ctx & Hctx & Hrc) & Hgt).
  destruct (Ht i images Hin) as (ctx' & Hctx' & Hs & Hb).
  rewrite Hctx in Hctx'. injection Hctx' as <-. simpl in Hs.
  assert (Heq : rc = retries_of i + 1) by lia.
  assert (Hstarts :
            starts_for (impl_id i)
              (emitted (_flash_parallel_do E fuel p past s))
            = attempts (ts0 ctx) (retries_of i + 1)).
  { rewrite He, starts_for_app, starts_for_kills, app_nil_r, Hs.
    f_equal. lia. }
  split; [assumption|]. split; [assumption|].
  split; [now exists (ts0 ctx)|].
  rewrite Hstarts, attempts_length. lia.
Qed.

End Retries_and_kills.

Lemma flash_parallel_do_kills_all_witness :
  let e := Lab.env Lab.always_fails Lab.finished Lab.starts (fun _ => false)
             (Lab.registry_of (Lab.shell 1 2 0)) in
  let i := Lab.shell 1 2 0 in
  let images := [("rom", "/home/u/fw.bin")] in
  let m := MsgAborting i images 1 "flashing failed" in
  let r := _flash_parallel_do e 10 [(i, images)] [] ∅ in
  exists before contexts,
    emitted r = before ++ kills_of [(i, images)] contexts m
    /\ Forall (fun e => ~ is_kill e) before
    /\ forall i' images',
         (i', images') ∈ [(i, images)] ->
         last (starts_for (impl_id i') before) = Some (contexts !!! impl_id i').
Proof.
  intros e i images m.
  apply (flash_parallel_do_kills_all e 10 [(i, images)] [] ∅ m).
  - apply NoDup_singleton.
  - vm_compute. reflexivity.
Defined.

(** C4 as the specification states it does not hold on every fatal
    path: two drivers of the parallel bucket; the first is started,
    then [flash_start] of the second raises; the executor hands the
    exception on and the first driver is not killed. *)
Lemma flash_parallel_do_error_without_kill :
  let e := Lab.env Lab.always_passes Lab.finished Lab.second_fails
             (fun _ => false) (Lab.registry_of (Lab.jtag 1)) in
  let p := [(Lab.jtag 1, [("rom", "rom.bin")]);
            (Lab.jtag 2, [("bios", "bios.bin")])] in
  let r := _flash_parallel_do e 10 p [] ∅ in
  NoDup (ids p)
  /\ out r = Err (Raised "cannot spawn")
  /\ starts_for 1 (emitted r) = [{| ts0 := 0; retry_count := 1 |}]
  /\ Forall (fun e => ~ is_kill e) (emitted r).
Proof.
  intros e p r.
  split.
  { apply NoDup_cons. split; [|apply NoDup_singleton].
    intros H. apply list_elem_of_singleton in H. discriminate. }
  split; [vm_compute; reflexivity|].
  split; [vm_compute; reflexivity|].
  vm_compute. repeat constructor; auto.
Qed.

(** Nor are the drivers killed when polling one of them raises. *)
Lemma flash_parallel_do_poll_error_without_kill :
  let e := Lab.env Lab.always_fails (fun _ => Raises "poll failed")
             Lab.starts (fun _ => false) (Lab.registry_of (Lab.shell 1 2 0)) in
  let i := Lab.shell 1 2 0 in
  let images := [("rom", "/home/u/fw.bin")] in
  let r := _flash_parallel_do e 10 [(i, images)] [] ∅ in
  out r = Err (Raised "poll failed")
  /\ starts_for (impl_id i) (emitted r) = [{| ts0 := 0; retry_count := 1 |}]
  /\ Forall (fun e => ~ is_kill e) (emitted r).
Proof.
  intros e i images r.
  split; [vm_compute; reflexivity|].
  split; [vm_compute; reflexivity|].
  vm_compute. repeat constructor; auto.
Qed.

(** *** A single driver that never passes verification *)

Lemma Qltb_true (a b : Q) : (a < b)%Q -> Qltb a b = true.
Proof.
  intros H. unfold Qltb. destruct (Qle_bool b a) eqn:Hle; [|reflexivity].
  apply Qle_bool_iff in Hle. now apply Qlt_not_le in H.
Qed.

Section Single_driver.

Variable E : Env.
Variable i : impl.
Variable images : image_map.
Variable check_period : Q.
Variable retries : Z.
Variable loop_ts0 : Q.

Hypothesis i_class : cls i = impl2_c check_period retries.
Hypothesis start_returns : forall ctx h, drv_flash_start E i images ctx h = None.
Hypothesis always_finished :
  forall ctx h, drv_flash_check_done E i images ctx h = Returns true.
Hypothesis never_verified :
  forall ctx h, exists d, drv_flash_post_check E i images ctx h = Returns (Some d).
Hypothesis kill_returns :
  forall ctx m h, drv_flash_kill E i images ctx m h = None.

Local Abbreviation in_time := (in_time E i check_period loop_ts0).

(** One pass over the single driver, when it is polled in time. *)
Lemma poll_single ctx st past s :
  p_contexts st !! impl_id i = Some ctx ->
  done_impls st = ∅ ->
  in_time past ->
  out (poll_all E [(i, images)] loop_ts0 [(i, images)] st past s)
  = out ((st' <- verify E [(i, images)] i images ctx st ;; ret st')
           ((past ++ [EvTime]) ++ [EvFlashCheckDone i images ctx]) s).
Proof.
  intros Hctx Hdone [Hin _]. simpl.
  destruct (decide (impl_id i ∈ done_impls st)) as [Hc|_];
    [rewrite Hdone in Hc; set_solver|].
  unfold contexts_get. rewrite Hctx, out_bind_ret.
  unfold time_now. rewrite (out_bind_ask _ _ _ _ _ (time_time E past)) by reflexivity.
  unfold get_check_period. rewrite i_class, out_bind_ret.
  rewrite (Qltb_true _ _ Hin).
  unfold flash_check_done. rewrite i_class.
  now rewrite (out_bind_ask _ _ _ _ _ true) by apply always_finished.
Qed.

Lemma verify_restarts ctx st past s :
  retry_count ctx <= retries ->
  out (verify E [(i, images)] i images ctx st past s)
  = Ok {| p_contexts :=
            <[impl_id i := {| ts0 := ts0 ctx;
                              retry_count := retry_count ctx + 1 |}]>
              (p_contexts st);
          done := done st;
          done_impls := done_impls st |}.
Proof.
  intros Hle. unfold verify, flash_post_check. rewrite i_class.
  destruct (never_verified ctx past) as [d Hd].
  rewrite (out_bind_ask _ _ _ _ _ (Some d)) by exact Hd.
  unfold get_retries. rewrite i_class, out_bind_ret.
  destruct (Z.leb_spec (retry_count ctx) retries) as [_|Hgt]; [|lia].
  unfold flash_start. rewrite i_class.
  now rewrite out_bind_call by apply start_returns.
Qed.

Lemma verify_gives_up ctx st past s :
  p_contexts st !! impl_id i = Some ctx ->
  retries < retry_count ctx ->
  exists d,
    out (verify E [(i, images)] i images ctx st past s)
    = Err (RuntimeError (MsgAborting i images (retry_count ctx) d)).
Proof.
  intros Hctx Hgt. unfold verify, flash_post_check. rewrite i_class.
  destruct (never_verified ctx past) as [d Hd]. exists d.
  rewrite (out_bind_ask _ _ _ _ _ (Some d)) by exact Hd.
  unfold get_retries. rewrite i_class, out_bind_ret.
  destruct (Z.leb_spec (retry_count ctx) retries) as [Hle|_]; [lia|].
  simpl kill_all. unfold contexts_get. rewrite Hctx.
  unfold flash_kill. rewrite i_class.
  set (m := MsgAborting i images (retry_count ctx) d).
  assert (Hk : out ((x <- ret ctx ;;
                     call (EvFlashKill i images x m)
                       (drv_flash_kill E i images x m) ;;; ret tt)
                      (past ++ [EvFlashPostCheck i images ctx]) s) = Ok tt).
  { rewrite out_bind_ret. now rewrite out_bind_call by apply kill_returns. }
  now rewrite (out_bind_ok _ _ _ _ tt Hk).
Qed.

Lemma supervise_step fuel p sd ts st :
  supervise E (S fuel) p sd loop_ts0 ts st
  = if Qltb (ts - loop_ts0) (inject_Z (max_estimated_duration sd)) then
      target_timestamp ;;;
      time_sleep (min_check_period sd) ;;;
      st' <- poll_all E p loop_ts0 p st ;;
      ts' <- time_now E ;;
      if Nat.eqb (size (done_impls st')) (length p) then ret tt
      else supervise E fuel p sd loop_ts0 ts' st'
    else
      let m := MsgTimedout (all_images sd) (max_estimated_duration sd) in
      kill_all E p (p_contexts st) m ;;;
      raise (RuntimeError m).
Proof. reflexivity. Qed.

Lemma supervise_gives_up (n : nat) :
  forall rc tc fuel sd ts st past s,
    (forall l, l <> [] -> in_time (past ++ l)) ->
    rc + Z.of_nat n = retries + 1 ->
    1 <= rc ->
    p_contexts st !! impl_id i = Some {| ts0 := tc; retry_count := rc |} ->
    done_impls st = ∅ ->
    max_estimated_duration sd = estimated_duration i ->
    Qltb (ts - loop_ts0) (inject_Z (estimated_duration i)) = true ->
    (n < fuel)%nat ->
    exists d,
      out (supervise E fuel [(i, images)] sd loop_ts0 ts st past s)
      = Err (RuntimeError (MsgAborting i images (retries + 1) d)).
Proof.
  induction n as [|n IH];
    intros rc tc fuel sd ts st past s Hclock Hrc Hpos Hctx Hdone Hed Hguard Hfuel.
  all: destruct fuel as [|fuel]; [lia|].
  all: rewrite supervise_step, Hed, Hguard.
  all: unfold target_timestamp, time_sleep.
  all: rewrite out_bind_call by reflexivity.
  all: rewrite out_bind_call by reflexivity.
  all: set (past1 := (past ++ [EvTimestamp]) ++ [EvSleep (min_check_period sd)]).
  all: assert (Hin1 : in_time past1)
    by (unfold past1; rewrite <- app_assoc; apply Hclock; discriminate).
  all: pose proof (poll_single _ st past1 s Hctx Hdone Hin1) as Hpoll.
  - (* out of retries *)
    destruct (verify_gives_up {| ts0 := tc; retry_count := rc |} st
                ((past1 ++ [EvTime])
                 ++ [EvFlashCheckDone i images {| ts0 := tc; retry_count := rc |}])
                s Hctx) as [d Hd]; [simpl; lia|].
    exists d. apply out_bind_err. rewrite Hpoll.
    rewrite (out_bind_err _ _ _ _ _ Hd). simpl. do 3 f_equal. lia.
  - (* one more attempt *)
    pose proof (verify_restarts {| ts0 := tc; retry_count := rc |} st
                  ((past1 ++ [EvTime])
                   ++ [EvFlashCheckDone i images
                         {| ts0 := tc; retry_count := rc |}])
                  s) as Hv.
    simpl in Hv. specialize (Hv ltac:(lia)).
    rewrite (out_bind_ok _ _ _ _ _ Hv) in Hpoll. simpl in Hpoll.
    rewrite (out_bind_ok _ _ _ _ _ Hpoll).
    unfold time_now.
    rewrite (out_bind_ask _ _ _ _ _ (time_time E _)) by reflexivity.
    simpl done_impls. rewrite Hdone. simpl Nat.eqb. cbv iota.
    apply (IH (rc + 1) tc).
    + intros l Hl. unfold past1. rewrite <- !app_assoc. apply Hclock.
      discriminate.
    + lia.
    + lia.
    + simpl. apply lookup_insert_eq.
    + reflexivity.
    + assumption.
    + apply Qltb_true.
      match goal with
      | |- (time_time E ?h - _ < _)%Q =>
          assert (Hin_time' : in_time h)
            by (unfold past1; rewrite <- !app_assoc; apply Hclock;
                discriminate)
      end.
      apply Hin_time'.
    + lia.
Qed.

End Single_driver.

(** With a single supervised driver in the plan that is finished each
    time it is polled and never passes verification, and a clock that
    stays between the first check and the deadline, the executor gives
    up on the driver, whatever the bound on iterations above
    [retries]. *)
Lemma flash_parallel_do_single_driver_gives_up
    E i images check_period retries past s fuel :
  cls i = impl2_c check_period retries ->
  0 <= retries ->
  0 < estimated_duration i ->
  (forall ctx h, drv_flash_start E i images ctx h = None) ->
  (forall ctx h, drv_flash_check_done E i images ctx h = Returns true) ->
  (forall ctx h,
      exists d, drv_flash_post_check E i images ctx h = Returns (Some d)) ->
  (forall ctx m h, drv_flash_kill E i images ctx m h = None) ->
  let ctx0 := {| ts0 := time_time E past; retry_count := 1 |} in
  let h0 := past ++ [EvTime; EvFlashStart i images ctx0] in
  (forall l, l <> [] ->
             in_time E i check_period (time_time E h0) ((h0 ++ [EvTime]) ++ l)) ->
  (Z.to_nat retries < fuel)%nat ->
  exists d,
    out (_flash_parallel_do E fuel [(i, images)] past s)
    = Err (RuntimeError (MsgAborting i images (retries + 1) d)).
Proof.
  intros Hcls Hretries Hed Hstart Hdone Hpost Hkill ctx0 h0 Hclock Hfuel.
  unfold _flash_parallel_do.
  set (st0 := {| contexts := ∅; max_estimated_duration := 0;
                 min_check_period := 4; all_images := [] |}).
  set (sd := {| contexts := <[impl_id i := ctx0]> ∅;
                max_estimated_duration := Z.max (estimated_duration i) 0;
                min_check_period := Qmin check_period 4;
                all_images := [] ++ map fst images |}).
  assert (Hsd : start_all E [(i, images)] st0 past s
                = Run (Ok sd) [EvTime; EvFlashStart i images ctx0] s).
  { rewrite start_all_cons. unfold time_now. rewrite bind_ask.
    unfold get_check_period. rewrite Hcls, bind_ret.
    unfold flash_start. rewrite Hcls, bind_call, Hstart. reflexivity. }
  rewrite out_bind_ok with (a := sd) by now rewrite Hsd.
  rewrite Hsd. simpl emitted. simpl store. fold h0.
  unfold time_now.
  rewrite (out_bind_ask _ _ _ _ _ (time_time E h0)) by reflexivity.
  apply (supervise_gives_up E i images check_period retries (time_time E h0)
           Hcls Hstart Hdone Hpost Hkill (Z.to_nat retries) 1 (time_time E past)).
  - exact Hclock.
  - lia.
  - lia.
  - simpl. apply lookup_insert_eq.
  - reflexivity.
  - simpl. lia.
  - apply Qltb_true.
    assert (H0 : (0 < inject_Z (estimated_duration i))%Q)
      by (unfold Qlt; simpl; lia).
    lra.
  - assumption.
Qed.



(** ** The period of the supervision loop *)

Section Period.

Variable E : Env.

Lemma lowest_min x bound l :
  (lowest (Qmin x bound) l == Qmin x (lowest bound l))%Q.
Proof.
  induction l as [|y l IH]; simpl; [reflexivity|].
  rewrite IH. rewrite !Q.min_assoc. now rewrite (Q.min_comm y x).
Qed.

(** The first loop takes the lowest of the [check_period] of the
    drivers and of what it starts from. *)
Lemma start_all_min_check_period items :
  forall st past s sd,
    out (start_all E items st past s) = Ok sd ->
    (min_check_period sd == lowest (min_check_period st) (check_periods items))%Q.
Proof.
  induction items as [|[i images] items IH]; intros st past s sd Hok.
  - injection Hok as <-. reflexivity.
  - rewrite start_all_cons in Hok. unfold time_now in Hok.
    rewrite out_bind_ask with (a := time_time E past) in Hok by reflexivity.
    unfold get_check_period, check_periods in *. simpl.
    destruct (cls i) as [|check_period retries] eqn:Hcls; [discriminate|].
    rewrite out_bind_ret in Hok.
    apply bind_ok_inv in Hok as ([] & _ & Hok).
    apply IH in Hok. simpl in Hok. rewrite Hok. apply lowest_min.
Qed.

(** Apart from the supervision loop itself, nothing sleeps. *)
Lemma only_hash_record P images :
  (forall e, is_hash_record e -> P e) -> only P (_hash_record E images).
Proof.
  intros HP. induction images as [|[t n] images IH]; simpl;
    autounfold with flash_prims; repeat only_step.
  - apply only_ask. now apply HP.
  - intros past s. unfold target_fsdb_set.
    destruct (fsdb_set E _ _ past); repeat constructor; now apply HP.
  - intros past s. unfold target_fsdb_set.
    destruct (fsdb_set E _ _ past); repeat constructor; now apply HP.
Qed.

Lemma only_kill_all P items contexts m :
  (forall e, is_kill e -> P e) -> only P (kill_all E items contexts m).
Proof.
  intros HP. induction items as [|[i images] items IH]; simpl;
    autounfold with flash_prims; repeat only_step.
  apply only_call. now apply HP.
Qed.

Lemma only_start_all P items st :
  (forall e, is_first_start e -> P e) -> only P (start_all E items st).
Proof.
  intros HP. revert st. induction items as [|[i images] items IH]; intros st;
    simpl; autounfold with flash_prims; repeat only_step.
  - apply only_ask. now apply HP.
  - apply only_call. now apply HP.
Qed.

Lemma only_verify P p i images ctx st :
  (forall e, ~ is_sleep e -> P e) -> only P (verify E p i images ctx st).
Proof.
  intros HP.
  assert (H1 : forall images, only P (_hash_record E images)).
  { intros images'. apply only_hash_record. intros e He. apply HP.
    now destruct e. }
  assert (H2 : forall items contexts m, only P (kill_all E items contexts m)).
  { intros items contexts m. apply only_kill_all. intros e He. apply HP.
    now destruct e. }
  unfold verify. autounfold with flash_prims. repeat only_step.
  all: first [apply only_ask | apply only_call]; apply HP; auto.
Qed.

Lemma only_poll_all P p loop_ts0 items st :
  (forall e, ~ is_sleep e -> P e) -> only P (poll_all E p loop_ts0 items st).
Proof.
  intros HP.
  pose proof (fun i images ctx st => only_verify P p i images ctx st HP) as Hv.
  revert st. induction items as [|[i images] items IH]; intros st; simpl;
    autounfold with flash_prims; repeat only_step.
  all: first [apply only_ask | apply only_call]; apply HP; auto.
Qed.

Lemma only_supervise fuel p sd loop_ts0 ts st seconds :
  (min_check_period sd == seconds)%Q ->
  only (sleeps_for seconds) (supervise E fuel p sd loop_ts0 ts st).
Proof.
  intros Hsd.
  assert (HP : forall e, ~ is_sleep e -> sleeps_for seconds e).
  { intros e He. destruct e; try exact I. now destruct He. }
  pose proof (fun loop_ts0 items st =>
                only_poll_all (sleeps_for seconds) p loop_ts0 items st HP) as Hp.
  assert (Hk : forall contexts m, only (sleeps_for seconds)
                                    (kill_all E p contexts m)).
  { intros contexts m. apply only_kill_all. intros e He. apply HP.
    now destruct e. }
  revert ts st. induction fuel as [|fuel IH]; intros ts st; simpl;
    autounfold with flash_prims; repeat only_step.
  all: apply only_call; exact Hsd.
Qed.

(** Every sleep of the executor lasts the lowest of 4 seconds and of
    the [check_period] of the drivers of the plan. *)
Lemma flash_parallel_do_sleep_length fuel p past s seconds :
  EvSleep seconds ∈ emitted (_flash_parallel_do E fuel p past s) ->
  (seconds == lowest 4 (check_periods p))%Q.
Proof.
  unfold _flash_parallel_do.
  set (st0 := {| contexts := ∅; max_estimated_duration := 0;
                 min_check_period := 4; all_images := [] |}).
  assert (Hstart : Forall (fun e => ~ is_sleep e)
                     (emitted (start_all E p st0 past s))).
  { apply only_start_all. intros e He. now destruct e. }
  unfold bind at 1. cbv zeta.
  destruct (out (start_all E p st0 past s)) as [sd|e|] eqn:Hout; simpl.
  - pose proof (start_all_min_check_period p st0 past s sd Hout) as Hmin.
    simpl in Hmin. intros Hin.
    apply elem_of_app in Hin as [Hin | Hin].
    + rewrite Forall_forall in Hstart. now destruct (Hstart _ Hin).
    + assert (Hs : only (sleeps_for (lowest 4 (check_periods p)))
                     (loop_ts0 <- time_now E ;;
                      supervise E fuel p sd loop_ts0 loop_ts0
                        {| p_contexts := contexts sd; done := ∅;
                           done_impls := ∅ |})).
      { apply only_bind; [apply only_ask; exact I|]. intros t0.
        now apply only_supervise. }
      specialize (Hs (past ++ emitted (start_all E p st0 past s))
                    (store (start_all E p st0 past s))).
      rewrite Forall_forall in Hs. exact (Hs _ Hin).
  - intros Hin. rewrite Forall_forall in Hstart. now destruct (Hstart _ Hin).
  - intros Hin. rewrite Forall_forall in Hstart. now destruct (Hstart _ Hin).
Qed.

End Period.

(** C5 as the specification states it does not hold: with a single
    driver whose [check_period] is 10, the loop sleeps 4 seconds at a
    time, never 10. *)
Lemma flash_parallel_do_sleeps_four :
  let e := Lab.env Lab.always_passes Lab.finished Lab.starts (fun _ => false)
             (Lab.registry_of (Lab.shell 1 10 0)) in
  let r := _flash_parallel_do e 10 [(Lab.shell 1 10 0, [("rom", "fw.bin")])]
             [] ∅ in
  check_periods [(Lab.shell 1 10 0, [("rom", "fw.bin")])] = [10%Q]
  /\ out r = Ok tt
  /\ sleeps (emitted r) = [4; 4; 4]%Q
  /\ ~ EvSleep 10 ∈ emitted r.
Proof.
  intros e r. split; [reflexivity|]. split; [vm_compute; reflexivity|].
  split; [vm_compute; reflexivity|].
  intros Hin. vm_compute in Hin.
  repeat (apply elem_of_cons in Hin as [Hin | Hin]; [discriminate|]).
  inversion Hin.
Qed.


(** ** The order of the operations of a successful run *)

Section Order.

Variable E : Env.

Lemma bind_ok_full {A B} (m : M A) (f : A -> M B) past s b :
  out (bind m f past s) = Ok b ->
  exists a,
    out (m past s) = Ok a
    /\ out (f a (past ++ emitted (m past s)) (store (m past s))) = Ok b
    /\ emitted (bind m f past s)
       = emitted (m past s)
         ++ emitted (f a (past ++ emitted (m past s)) (store (m past s))).
Proof.
  intros H. destruct (bind_ok_inv m f past s b H) as (a & Ha & Hb).
  exists a. split; [assumption|]. split; [assumption|].
  now rewrite (bind_ok m f past s a Ha).
Qed.

Lemma try_finally_ok_full {A} (body : M A) (handler : M unit) past s a :
  out (try_finally body handler past s) = Ok a ->
  out (body past s) = Ok a
  /\ out (handler (past ++ emitted (body past s)) (store (body past s))) = Ok tt
  /\ emitted (try_finally body handler past s)
     = emitted (body past s)
       ++ emitted (handler (past ++ emitted (body past s)) (store (body past s))).
Proof.
  unfold try_finally. cbv zeta.
  destruct (out (body past s)) as [a'|e|]; simpl;
    destruct (out (handler _ _)) as [[]|e'|]; simpl; try discriminate.
  intros H. injection H as ->. auto.
Qed.

(** *** Pieces that return *)

Lemma when_ok_ret P {A} (a : A) : when_ok P (ret a).
Proof. intros past s a' _. constructor. Qed.

Lemma when_ok_raise P {A} e : when_ok P (@raise A e).
Proof. intros past s a H. discriminate. Qed.

Lemma when_ok_out_of_fuel P {A} : when_ok P (@out_of_fuel A).
Proof. intros past s a H. discriminate. Qed.

Lemma when_ok_bind P {A B} (m : M A) (f : A -> M B) :
  when_ok P m -> (forall a, when_ok P (f a)) -> when_ok P (bind m f).
Proof.
  intros Hm Hf past s b H.
  destruct (bind_ok_full m f past s b H) as (a & Ha & Hb & ->).
  apply Forall_app. split; [eapply Hm | eapply Hf]; eassumption.
Qed.

Lemma when_ok_then_raise P {A B} (m : M A) e :
  when_ok P (bind m (fun _ => @raise B e)).
Proof.
  intros past s b H. apply bind_ok_inv in H as (a & _ & H). discriminate.
Qed.

Lemma when_ok_call P e ans : P e -> when_ok P (call e ans).
Proof.
  intros He past s a _. unfold call. destruct (ans past); repeat constructor; auto.
Qed.

Lemma when_ok_ask P {A} e (ans : list event -> answer A) :
  P e -> when_ok P (ask e ans).
Proof.
  intros He past s a _. unfold ask. destruct (ans past); repeat constructor; auto.
Qed.

Lemma when_ok_fsdb_set P key value :
  P (EvFsdbSet key value) -> when_ok P (target_fsdb_set E key value).
Proof.
  intros He past s a _. unfold target_fsdb_set.
  destruct (fsdb_set E key value past); repeat constructor; auto.
Qed.

Ltac when_ok_step :=
  match goal with
  | |- when_ok _ (bind _ (fun _ => raise _)) => apply when_ok_then_raise
  | |- when_ok _ (bind _ _) => apply when_ok_bind; [|intros ?]
  | |- when_ok _ (ret _) => apply when_ok_ret
  | |- when_ok _ (raise _) => apply when_ok_raise
  | |- when_ok _ out_of_fuel => apply when_ok_out_of_fuel
  | |- when_ok _ (call _ _) => apply when_ok_call; exact I
  | |- when_ok _ (ask _ _) => apply when_ok_ask; exact I
  | |- when_ok _ (target_fsdb_set _ _ _) => apply when_ok_fsdb_set; exact I
  | |- when_ok _ (match ?x with _ => _ end) => destruct x
  | H : _ |- when_ok _ _ => apply H
  end.

Ltac when_ok_auto := autounfold with flash_prims; repeat when_ok_step.

Lemma when_ok_hash_record images : when_ok is_polling (_hash_record E images).
Proof. induction images as [|[t n] images IH]; simpl; when_ok_auto. Qed.

Lemma when_ok_verify p i images ctx st :
  when_ok is_polling (verify E p i images ctx st).
Proof.
  pose proof when_ok_hash_record. unfold verify. when_ok_auto.
Qed.

Lemma when_ok_poll_all p loop_ts0 items st :
  when_ok is_polling (poll_all E p loop_ts0 items st).
Proof.
  pose proof when_ok_verify.
  revert st. induction items as [|[i images] items IH]; intros st; simpl;
    when_ok_auto.
Qed.

(** Polling that returns has killed no driver. *)
Lemma when_ok_supervise fuel p sd loop_ts0 ts st :
  when_ok is_polling (supervise E fuel p sd loop_ts0 ts st).
Proof.
  pose proof when_ok_poll_all.
  revert ts st. induction fuel as [|fuel IH]; intros ts st; simpl;
    when_ok_auto.
Qed.

(** The first loop starts the drivers in the order of the plan. *)
Lemma start_all_ok items :
  forall st past s sd,
    out (start_all E items st past s) = Ok sd ->
    Forall is_first_start (emitted (start_all E items st past s))
    /\ started_plan (emitted (start_all E items st past s)) = items.
Proof.
  induction items as [|[i images] items IH]; intros st past s sd.
  - intros _. split; [constructor | reflexivity].
  - rewrite start_all_cons. unfold time_now. rewrite bind_ask.
    unfold get_check_period.
    destruct (cls i) as [|check_period retries] eqn:Hcls; [discriminate|].
    rewrite bind_ret. unfold flash_start. rewrite Hcls, bind_call.
    destruct (drv_flash_start E i images _ _); [discriminate|].
    simpl. intros Hok. destruct (IH _ _ _ _ Hok) as [Hall Hplan].
    split.
    + repeat constructor. exact Hall.
    + unfold started_plan in *. simpl. now rewrite Hplan.
Qed.

Lemma consoles_each_ok (ev : string -> event)
    (ans : string -> list event -> option string) console_names :
  forall past s,
    out (consoles_each (fun c => call (ev c) (ans c)) console_names past s)
    = Ok tt ->
    emitted (consoles_each (fun c => call (ev c) (ans c)) console_names past s)
    = map ev console_names.
Proof.
  induction console_names as [|c console_names IH]; intros past s.
  - reflexivity.
  - simpl. rewrite bind_call. destruct (ans c past); [discriminate|].
    simpl. intros H. now rewrite IH.
Qed.

Lemma flash_consoles_disable_ok p :
  forall past s,
    out (_flash_consoles_disable E p past s) = Ok tt ->
    emitted (_flash_consoles_disable E p past s)
    = map EvConsoleDisable (consoles_of p).
Proof.
  induction p as [|[i images] p IH]; intros past s H.
  - reflexivity.
  - simpl in *. destruct (bind_ok_full _ _ _ _ _ H) as ([] & H1 & H2 & ->).
    unfold consoles_of. simpl. rewrite map_app. f_equal.
    + now apply consoles_each_ok.
    + now apply IH.
Qed.

Lemma flash_consoles_enable_ok p :
  forall past s,
    out (_flash_consoles_enable E p past s) = Ok tt ->
    emitted (_flash_consoles_enable E p past s)
    = map EvConsoleEnable (consoles_of p).
Proof.
  induction p as [|[i images] p IH]; intros past s H.
  - reflexivity.
  - simpl in *. destruct (bind_ok_full _ _ _ _ _ H) as ([] & H1 & H2 & ->).
    unfold consoles_of. simpl. rewrite map_app. f_equal.
    + now apply consoles_each_ok.
    + now apply IH.
Qed.

Lemma power_sequence_ok sequence past s :
  out (match sequence with
       | Some (step :: steps) => target_power_sequence E (step :: steps)
       | _ => ret tt
       end past s) = Ok tt ->
  emitted (match sequence with
           | Some (step :: steps) => target_power_sequence E (step :: steps)
           | _ => ret tt
           end past s) = power_events sequence.
Proof.
  destruct sequence as [[|step steps]|]; try reflexivity.
  unfold target_power_sequence, call. simpl.
  now destruct (power_sequence_run E (step :: steps) past).
Qed.

Lemma flash_parallel_do_ok fuel p past s :
  out (_flash_parallel_do E fuel p past s) = Ok tt ->
  exists starts polls,
    emitted (_flash_parallel_do E fuel p past s) = starts ++ polls
    /\ Forall is_first_start starts
    /\ started_plan starts = p
    /\ Forall is_polling polls.
Proof.
  unfold _flash_parallel_do. intros H.
  destruct (bind_ok_full _ _ _ _ _ H) as (sd & Hsd & Hrest & ->).
  destruct (start_all_ok _ _ _ _ _ Hsd) as [Hstarts Hplan].
  eexists _, _. split; [reflexivity|]. split; [assumption|].
  split; [assumption|].
  revert Hrest. generalize (past ++ emitted (start_all E p
    {| contexts := ∅; max_estimated_duration := 0; min_check_period := 4;
       all_images := [] |} past s)).
  generalize (store (start_all E p
    {| contexts := ∅; max_estimated_duration := 0; min_check_period := 4;
       all_images := [] |} past s)).
  intros s' past' Hrest.
  assert (Hw : when_ok is_polling
                 (loop_ts0 <- time_now E ;;
                  supervise E fuel p sd loop_ts0 loop_ts0
                    {| p_contexts := contexts sd; done := ∅;
                       done_impls := ∅ |})).
  { pose proof when_ok_supervise. when_ok_auto. }
  exact (Hw past' s' tt Hrest).
Qed.

Lemma recorded_after_starts images starts polls :
  Forall is_first_start starts ->
  recorded images (starts ++ polls) -> recorded images polls.
Proof.
  intros Hstarts Hrec t n Hin. rewrite Forall_forall in Hstarts.
  destruct (Hrec t n Hin) as [[digest Hd] Hn].
  apply elem_of_app in Hd as [Hd | Hd]; [now destruct (Hstarts _ Hd)|].
  apply elem_of_app in Hn as [Hn | Hn]; [now destruct (Hstarts _ Hn)|].
  split; [now exists digest | assumption].
Qed.

(** A run of the executor that returns has recorded, while polling,
    the hashes of every driver of the plan. *)
Lemma flash_parallel_do_ok_recorded fuel p past s :
  NoDup (ids p) ->
  out (_flash_parallel_do E fuel p past s) = Ok tt ->
  exists starts polls,
    emitted (_flash_parallel_do E fuel p past s) = starts ++ polls
    /\ Forall is_first_start starts
    /\ started_plan starts = p
    /\ Forall is_polling polls
    /\ forall i images, (i, images) ∈ p -> recorded images polls.
Proof.
  intros Hnd Hok.
  destruct (flash_parallel_do_ok fuel p past s Hok)
    as (starts & polls & He & Hstarts & Hplan & Hpolls).
  exists starts, polls. repeat (split; [assumption|]).
  intros i images Hin.
  pose proof (flash_parallel_do_spec E fuel p past s Hnd) as H.
  unfold post in H. rewrite Hok in H. destruct H as [_ H]. simpl in H.
  apply (recorded_after_starts images starts); [assumption|].
  rewrite <- He. now apply (H i images).
Qed.

(** The body of the [try] of [_flash_parallel]. *)
Lemma flash_parallel_body_ok fuel p past s :
  NoDup (ids p) ->
  out ((log_image_names_impl p ;;;
        _flash_consoles_disable E p ;;;
        _flash_parallel_do E fuel p) past s) = Ok tt ->
  exists starts polls,
    emitted ((log_image_names_impl p ;;;
              _flash_consoles_disable E p ;;;
              _flash_parallel_do E fuel p) past s)
    = map EvConsoleDisable (consoles_of p) ++ starts ++ polls
    /\ Forall is_first_start starts
    /\ started_plan starts = p
    /\ Forall is_polling polls
    /\ forall i images, (i, images) ∈ p -> recorded images polls.
Proof.
  intros Hnd H.
  destruct (bind_ok_full _ _ _ _ _ H) as ([] & Hlog & H' & E1).
  destruct (bind_ok_full _ _ _ _ _ H') as ([] & Hdis & Hdo & E2).
  destruct (flash_parallel_do_ok_recorded _ _ _ _ Hnd Hdo)
    as (starts & polls & E3 & Hstarts & Hplan & Hpolls & Hrec).
  exists starts, polls. split; [|auto].
  rewrite E1, E2.
  assert (Hnil : emitted (log_image_names_impl p past s) = [])
    by now destruct p.
  rewrite Hnil at 1. simpl. f_equal.
  - now apply flash_consoles_disable_ok.
  - exact E3.
Qed.

(** The [finally] clause of [_flash_parallel]. *)
Lemma flash_parallel_handler_ok p post_ past s :
  out ((log_image_names_impl p ;;;
        _flash_consoles_enable E p ;;;
        match post_ with
        | Some (step :: steps) => target_power_sequence E (step :: steps)
        | _ => ret tt
        end) past s) = Ok tt ->
  emitted ((log_image_names_impl p ;;;
            _flash_consoles_enable E p ;;;
            match post_ with
            | Some (step :: steps) => target_power_sequence E (step :: steps)
            | _ => ret tt
            end) past s)
  = map EvConsoleEnable (consoles_of p) ++ power_events post_.
Proof.
  intros H.
  destruct (bind_ok_full _ _ _ _ _ H) as ([] & Hlog & H' & E1).
  destruct (bind_ok_full _ _ _ _ _ H') as ([] & Hen & Hpost & E2).
  rewrite E1, E2.
  assert (Hnil : emitted (log_image_names_impl p past s) = [])
    by now destruct p.
  rewrite Hnil at 1. simpl. f_equal.
  - now apply flash_consoles_enable_ok.
  - now apply power_sequence_ok.
Qed.

(** C6, as the code has it.  In a run of [_flash_parallel] that
    returns, the calls come in this order: the pre power sequence (if
    any); the consoles are disabled; each driver of the plan is
    started once, in the order of the plan; polling, in which drivers
    are restarted and, as each driver passes verification, its hashes
    are recorded; the consoles are enabled; the post power sequence
    (if any).  The hashes of every driver of the plan are written while
    polling, thus before the consoles are enabled again and before the
    post power sequence. *)
Theorem flash_parallel_order fuel p pre post_ past s :
  NoDup (ids p) ->
  out (_flash_parallel E fuel p pre post_ past s) = Ok tt ->
  exists starts polls,
    emitted (_flash_parallel E fuel p pre post_ past s)
    = power_events pre
      ++ map EvConsoleDisable (consoles_of p)
      ++ starts
      ++ polls
      ++ map EvConsoleEnable (consoles_of p)
      ++ power_events post_
    /\ Forall is_first_start starts
    /\ started_plan starts = p
    /\ Forall is_polling polls
    /\ forall i images, (i, images) ∈ p -> recorded images polls.
Proof.
  unfold _flash_parallel. intros Hnd H.
  destruct (bind_ok_full _ _ _ _ _ H) as ([] & Hpre & Hrest & E1).
  destruct (try_finally_ok_full _ _ _ _ _ Hrest) as (Hbody & Hhandler & E2).
  destruct (flash_parallel_body_ok _ _ _ _ Hnd Hbody)
    as (starts & polls & E3 & Hstarts & Hplan & Hpolls & Hrec).
  pose proof (flash_parallel_handler_ok _ _ _ _ Hhandler) as E4.
  exists starts, polls. split; [|auto].
  rewrite E1, E2. f_equal; [now apply power_sequence_ok|].
  transitivity ((map EvConsoleDisable (consoles_of p) ++ starts ++ polls)
                ++ map EvConsoleEnable (consoles_of p) ++ power_events post_).
  - f_equal; assumption.
  - now rewrite <- !app_assoc.
Qed.

End Order.

(** A driver that flashes and verifies well. *)
Lemma flash_parallel_order_witness :
  let e := Lab.env Lab.always_passes Lab.finished Lab.starts (fun _ => false)
             (Lab.registry_of (Lab.shell 1 2 0)) in
  let p := [(Lab.shell 1 2 0, [("rom", "fw.bin")])] in
  let r := _flash_parallel e 10 p (Some Lab.off_full) (Some Lab.on_full) [] ∅ in
  exists starts polls,
    emitted r
    = power_events (Some Lab.off_full)
      ++ map EvConsoleDisable (consoles_of p)
      ++ starts
      ++ polls
      ++ map EvConsoleEnable (consoles_of p)
      ++ power_events (Some Lab.on_full)
    /\ Forall is_first_start starts
    /\ started_plan starts = p
    /\ Forall is_polling polls
    /\ forall i images, (i, images) ∈ p -> recorded images polls.
Proof.
  intros e p.
  apply (flash_parallel_order e 10 p (Some Lab.off_full) (Some Lab.on_full)
           [] ∅).
  - apply NoDup_singleton.
  - vm_compute. reflexivity.
Defined.

(** C6 as the specification states it does not hold: the hashes are
    not written last.  In this successful run the two metadata keys
    are written while the console is still disabled, before the post
    power sequence. *)
Lemma flash_parallel_hash_before_post_sequence :
  let e := Lab.env Lab.always_passes Lab.finished Lab.starts (fun _ => false)
             (Lab.registry_of (Lab.shell 1 2 0)) in
  let p := [(Lab.shell 1 2 0, [("rom", "fw.bin")])] in
  let r := _flash_parallel e 10 p (Some Lab.off_full) (Some Lab.on_full) [] ∅ in
  out r = Ok tt
  /\ exists before,
       emitted r
       = before
         ++ [EvHashFile "fw.bin";
             EvFsdbSet "interfaces.images.rom.last_sha512" "cf83e1357eefb8bd";
             EvFsdbSet "interfaces.images.rom.last_name" "fw.bin";
             EvTime;
             EvConsoleEnable "serial0";
             EvPowerSequence Lab.on_full].
Proof.
  intros e p r. split; [vm_compute; reflexivity|].
  exists (take 14 (emitted r)). vm_compute. reflexivity.
Qed.

(** ** The post power sequence after a failure *)

Section Post_sequence.

Variable E : Env.

Hypothesis power_returns : forall sequence h, power_sequence_run E sequence h = None.
Hypothesis enable_returns : forall console_name h, console_put_enable E console_name h = None.

Lemma consoles_each_enable_returns console_names past s :
  out (consoles_each (target_console_put_enable E) console_names past s) = Ok tt.
Proof.
  revert past. induction console_names as [|c console_names IH]; intros past.
  - reflexivity.
  - simpl. unfold target_console_put_enable at 1.
    rewrite out_bind_call by apply enable_returns. apply IH.
Qed.

Lemma flash_consoles_enable_returns p past s :
  out (_flash_consoles_enable E p past s) = Ok tt.
Proof.
  revert past s. induction p as [|[i images] p IH]; intros past s.
  - reflexivity.
  - simpl. rewrite (out_bind_ok _ _ _ _ tt) by apply consoles_each_enable_returns.
    apply IH.
Qed.

(** When the power rail and the consoles answer, a run of
    [_flash_parallel] that raises ends with the call of the post power
    sequence: the [finally] clause runs it after a failure as it does
    after a success. *)
Lemma flash_parallel_post_sequence_on_failure fuel p pre step steps past s e :
  p <> [] ->
  out (_flash_parallel E fuel p pre (Some (step :: steps)) past s) = Err e ->
  last (emitted (_flash_parallel E fuel p pre (Some (step :: steps)) past s))
  = Some (EvPowerSequence (step :: steps)).
Proof.
  intros Hp. unfold _flash_parallel.
  set (PRE := match pre with
              | Some (step0 :: steps0) => target_power_sequence E (step0 :: steps0)
              | _ => ret tt
              end).
  set (BODY := (log_image_names_impl p ;;;
                _flash_consoles_disable E p ;;; _flash_parallel_do E fuel p)).
  set (HANDLER := (log_image_names_impl p ;;;
                   _flash_consoles_enable E p ;;;
                   target_power_sequence E (step :: steps))).
  assert (Hpre : out (PRE past s) = Ok tt).
  { unfold PRE. destruct pre as [[|step0 steps0]|]; try reflexivity.
    unfold target_power_sequence, call. now rewrite power_returns. }
  assert (Hh : forall past' s', out (HANDLER past' s') = Ok tt).
  { intros past' s'. unfold HANDLER. destruct p as [|x p']; [contradiction|].
    unfold log_image_names_impl. rewrite out_bind_ret.
    rewrite (out_bind_ok _ _ _ _ tt) by apply flash_consoles_enable_returns.
    unfold target_power_sequence, call. now rewrite power_returns. }
  assert (He : forall past' s',
             emitted (HANDLER past' s')
             = map EvConsoleEnable (consoles_of p)
               ++ [EvPowerSequence (step :: steps)]).
  { intros past' s'.
    apply (flash_parallel_handler_ok E p (Some (step :: steps))). apply Hh. }
  rewrite (bind_ok _ _ _ _ tt Hpre). simpl. unfold try_finally. cbv zeta.
  specialize (Hh (past ++ emitted (PRE past s)
                  ++ emitted (BODY (past ++ emitted (PRE past s))
                                (store (PRE past s))))
                (store (BODY (past ++ emitted (PRE past s))
                          (store (PRE past s))))).
  destruct (out (BODY _ _)) as [[]|e'|] eqn:Hbody; simpl.
  - rewrite <- app_assoc, Hh. discriminate.
  - rewrite <- app_assoc, Hh. simpl. intros _.
    rewrite He, !app_assoc. apply last_snoc.
  - discriminate.
Qed.

End Post_sequence.

(** C1 (the code departs from it): a supervised driver with no retry
    whose verification fails.  The executor kills the driver and
    raises; the [finally] clause of [_flash_parallel] then enables the
    console and runs the post power sequence all the same. *)
Theorem flash_parallel_post_sequence_after_failure :
  let e := Lab.env Lab.always_fails Lab.finished Lab.starts (fun _ => false)
             (Lab.registry_of (Lab.shell 1 2 0)) in
  let images := [("rom", "/home/u/fw.bin")] in
  let r := _flash_parallel e 10 [(Lab.shell 1 2 0, images)]
             (Some Lab.off_full) (Some Lab.on_full) [] ∅ in
  out r = Err (RuntimeError
                 (MsgAborting (Lab.shell 1 2 0) images 1 "flashing failed"))
  /\ last (emitted r) = Some (EvPowerSequence Lab.on_full)
  /\ exists before ctx m,
       emitted r = before ++ [EvFlashKill (Lab.shell 1 2 0) images ctx m;
                              EvConsoleEnable "serial0";
                              EvPowerSequence Lab.on_full].
Proof.
  intros e images r.
  split; [vm_compute; reflexivity|].
  split; [vm_compute; reflexivity|].
  exists (take 14 (emitted r)). eexists _, _. vm_compute. reflexivity.
Qed.

(** * More of the code: the request, the errors, the supervision *)

(** ** More reasoning about computations *)

Lemma app_eq_split {A} (l1 l2 before after : list A) x :
  l1 ++ l2 = before ++ x :: after ->
  (exists l, l1 = before ++ x :: l /\ after = l ++ l2)
  \/ (exists l, before = l1 ++ l /\ l2 = l ++ x :: after).
Proof.
  revert before. induction l1 as [|a l1 IH]; intros before H.
  - right. exists before. now split.
  - destruct before as [|b before]; simpl in H.
    + injection H as -> <-. left. exists l1. now split.
    + injection H as -> H. destruct (IH _ H) as [(l & -> & ->)|(l & -> & ->)].
      * left. exists l. now split.
      * right. exists l. now split.
Qed.

Lemma Qltb_false (a b : Q) : (b <= a)%Q -> Qltb a b = false.
Proof.
  intros H. unfold Qltb. apply Qle_bool_iff in H. now rewrite H.
Qed.

Lemma Qltb_lt (a b : Q) : Qltb a b = true -> (a < b)%Q.
Proof.
  unfold Qltb. intros H. apply Qnot_le_lt. intros Hle.
  apply Qle_bool_iff in Hle. now rewrite Hle in H.
Qed.

Lemma start_all_unfold E i images items st :
  start_all E ((i, images) :: items) st
  = (now <- time_now E ;;
     check_period_i <- get_check_period i ;;
     flash_start E i images {| ts0 := now; retry_count := 1 |} ;;;
     start_all E items
       {| contexts :=
            <[impl_id i := {| ts0 := now; retry_count := 1 |}]> (contexts st);
          max_estimated_duration :=
            Z.max (estimated_duration i) (max_estimated_duration st);
          min_check_period := Qmin check_period_i (min_check_period st);
          all_images := all_images st ++ map fst images |}).
Proof. reflexivity. Qed.

Section Only_more.

Variable P : event -> Prop.

Lemma only_bind_with {A B} (R : A -> Prop) (m : M A) (f : A -> M B) :
  only P m -> returns R m -> (forall a, R a -> only P (f a)) ->
  only P (bind m f).
Proof.
  intros Hm HR Hf past s. unfold bind. cbv zeta.
  destruct (out (m past s)) as [a| |] eqn:Ho; simpl; auto.
  apply Forall_app; split; auto. apply Hf. eapply HR, Ho.
Qed.

Lemma only_fsdb_set E key value :
  P (EvFsdbSet key value) -> only P (target_fsdb_set E key value).
Proof.
  intros H past s. unfold target_fsdb_set.
  destruct (fsdb_set E key value past); simpl; auto.
Qed.

End Only_more.

Lemma ends_bind_with {A B} (R : A -> Prop) (m : M A) (f : A -> M B) :
  ends m -> returns R m -> (forall a, R a -> ends (f a)) -> ends (bind m f).
Proof.
  intros Hm HR Hf past s. unfold bind. cbv zeta. specialize (Hm past s).
  destruct (out (m past s)) as [a| |] eqn:Ho; simpl.
  - apply Hf. eapply HR, Ho.
  - discriminate.
  - now destruct Hm.
Qed.

Section Safe.

Variable P : exn -> Prop.
Hypothesis passes_on : forall what, P (Raised what).

Lemma safe_intro {A} (R : A -> Prop) (m : M A) :
  throws P m -> returns R m -> safe P R m.
Proof.
  intros Ht Hr past s. destruct (out (m past s)) eqn:Ho; auto.
  - eapply Hr, Ho.
  - eapply Ht, Ho.
Qed.

Lemma safe_throws {A} (R : A -> Prop) (m : M A) : safe P R m -> throws P m.
Proof. intros H past s e Ho. specialize (H past s). now rewrite Ho in H. Qed.

Lemma safe_ret {A} (R : A -> Prop) (a : A) : R a -> safe P R (ret a).
Proof. intros H past s. exact H. Qed.

Lemma safe_raise {A} (R : A -> Prop) e : P e -> safe P R (@raise A e).
Proof. intros H past s. exact H. Qed.

Lemma safe_out_of_fuel {A} (R : A -> Prop) : safe P R (@out_of_fuel A).
Proof. intros past s. exact I. Qed.

Lemma safe_bind {A B} (RA : A -> Prop) (RB : B -> Prop)
    (m : M A) (f : A -> M B) :
  safe P RA m -> (forall a, RA a -> safe P RB (f a)) -> safe P RB (bind m f).
Proof.
  intros Hm Hf past s. unfold bind. cbv zeta. specialize (Hm past s).
  destruct (out (m past s)) as [a| |]; simpl; auto.
  now apply Hf.
Qed.

Lemma safe_bind_ret {A B} (R : B -> Prop) (a : A) (f : A -> M B) :
  safe P R (f a) -> safe P R (bind (ret a) f).
Proof. intros H past s. rewrite bind_ret. apply H. Qed.

Lemma safe_weaken {A} (R R' : A -> Prop) (m : M A) :
  (forall a, R a -> R' a) -> safe P R m -> safe P R' m.
Proof.
  intros H Hm past s. specialize (Hm past s).
  destruct (out (m past s)); auto.
Qed.

Lemma safe_call e ans : safe P anything (call e ans).
Proof.
  intros past s. unfold call.
  destruct (ans past); simpl; [apply passes_on|exact I].
Qed.

Lemma safe_ask {A} e (ans : list event -> answer A) :
  safe P anything (ask e ans).
Proof.
  intros past s. unfold ask.
  destruct (ans past); simpl; [exact I|apply passes_on].
Qed.

Lemma safe_fsdb_set E key value : safe P anything (target_fsdb_set E key value).
Proof.
  intros past s. unfold target_fsdb_set.
  destruct (fsdb_set E key value past); simpl; [apply passes_on|exact I].
Qed.

Lemma safe_try_finally {A} (R : A -> Prop) (body : M A) (handler : M unit) :
  safe P R body -> safe P anything handler ->
  safe P R (try_finally body handler).
Proof.
  intros Hb Hh past s. unfold try_finally. cbv zeta.
  specialize (Hb past s).
  specialize (Hh (past ++ emitted (body past s)) (store (body past s))).
  destruct (out (body past s)); simpl; auto;
    destruct (out (handler _ _)); simpl; auto.
Qed.

End Safe.

Ltac safe_step :=
  match goal with
  | |- safe _ anything (call _ _) => apply safe_call; assumption
  | |- safe _ anything (ask _ _) => apply safe_ask; assumption
  | |- safe _ anything (target_fsdb_set _ _ _) => apply safe_fsdb_set; assumption
  | |- safe _ _ (call _ _) =>
      eapply safe_weaken; [|apply safe_call; assumption]; intros; try exact I
  | |- safe _ _ (ask _ _) =>
      eapply safe_weaken; [|apply safe_ask; assumption]; intros; try exact I
  | |- safe _ _ (bind (call _ _) _) =>
      apply (safe_bind _ anything); [apply safe_call; assumption|intros ? _]
  | |- safe _ _ (bind (ask _ _) _) =>
      apply (safe_bind _ anything); [apply safe_ask; assumption|intros ? _]
  | |- safe _ _ (bind (target_fsdb_set _ _ _) _) =>
      apply (safe_bind _ anything); [apply safe_fsdb_set; assumption|intros ? _]
  | |- safe _ _ (bind (ret _) _) => apply safe_bind_ret; cbv beta
  | |- safe _ _ (ret _) => apply safe_ret; try exact I
  | |- safe _ _ (raise _) => apply safe_raise; try exact I
  | |- safe _ _ out_of_fuel => apply safe_out_of_fuel
  | |- safe _ _ (try_finally _ _) => apply safe_try_finally
  end.

(** The pieces of the executor never run out of iterations by
    themselves. *)
Section Ends_more.

Variable E : Env.

Lemma ends_fsdb_set key value : ends (target_fsdb_set E key value).
Proof.
  intros past s. unfold target_fsdb_set.
  destruct (fsdb_set E _ _ _); discriminate.
Qed.

Lemma ends_hash_record images : ends (_hash_record E images).
Proof.
  pose proof ends_fsdb_set.
  induction images as [|[t n] images IH]; simpl.
  - apply ends_ret.
  - unfold hash_file_hexdigest. repeat ends_step.
Qed.

Lemma ends_kill_all items contexts m : ends (kill_all E items contexts m).
Proof.
  induction items as [|[i images] items IH]; simpl;
    autounfold with flash_prims; repeat ends_step.
Qed.

Lemma ends_start_all items : forall st, ends (start_all E items st).
Proof.
  induction items as [|[i images] items IH]; intros st; simpl;
    autounfold with flash_prims; repeat ends_step.
Qed.

Lemma ends_verify p i images ctx st : ends (verify E p i images ctx st).
Proof.
  unfold verify. autounfold with flash_prims.
  pose proof (ends_hash_record images).
  pose proof (ends_kill_all p (p_contexts st)).
  repeat ends_step.
Qed.

Lemma ends_poll_all p loop_ts0 items :
  forall st, ends (poll_all E p loop_ts0 items st).
Proof.
  induction items as [|[i images] items IH]; intros st; simpl.
  - apply ends_ret.
  - pose proof (ends_verify p i images).
    autounfold with flash_prims. repeat ends_step.
Qed.

Lemma ends_flash_consoles_disable p : ends (_flash_consoles_disable E p).
Proof.
  induction p as [|[i images] p IH]; simpl; repeat ends_step.
  apply ends_consoles_each. intros c. autounfold with flash_prims.
  repeat ends_step.
Qed.

Lemma ends_flash_parallel fuel p pre post_ :
  ends (_flash_parallel_do E fuel p) -> ends (_flash_parallel E fuel p pre post_).
Proof.
  intros H. unfold _flash_parallel.
  pose proof (ends_flash_consoles_disable p).
  pose proof (ends_flash_consoles_enable E p).
  autounfold with flash_prims. repeat ends_step.
Qed.

End Ends_more.

(** What [_flash_parallel] and the executor emit. *)
Section Only_flashing.

Variable E : Env.
Variable P : event -> Prop.
Hypothesis polling : forall e, is_polling e -> P e.
Hypothesis kills : forall e, is_kill e -> P e.

Ltac flashing_only_step :=
  match goal with
  | |- only _ (call _ _) =>
      apply only_call; first [apply polling; exact I|apply kills; exact I]
  | |- only _ (ask _ _) =>
      apply only_ask; first [apply polling; exact I|apply kills; exact I]
  | |- only _ (target_fsdb_set _ _ _) =>
      apply only_fsdb_set; apply polling; exact I
  | _ => only_step
  end.

Ltac flashing_only := autounfold with flash_prims; repeat flashing_only_step.

Lemma only_flashing_hash_record images : only P (_hash_record E images).
Proof. induction images as [|[t n] images IH]; simpl; flashing_only. Qed.

Lemma only_flashing_kill_all items contexts m :
  only P (kill_all E items contexts m).
Proof. induction items as [|[i images] items IH]; simpl; flashing_only. Qed.

Lemma only_flashing_start_all items : forall st, only P (start_all E items st).
Proof.
  induction items as [|[i images] items IH]; intros st;
    [|rewrite start_all_unfold]; simpl; flashing_only.
Qed.

Lemma only_flashing_verify p i images ctx st :
  only P (verify E p i images ctx st).
Proof.
  pose proof (only_flashing_hash_record images).
  pose proof (only_flashing_kill_all p (p_contexts st)).
  unfold verify. flashing_only.
Qed.

Lemma only_flashing_poll_all p loop_ts0 items :
  forall st, only P (poll_all E p loop_ts0 items st).
Proof.
  induction items as [|[i images] items IH]; intros st; simpl.
  - flashing_only.
  - pose proof (only_flashing_verify p i images). flashing_only.
Qed.

Lemma only_flashing_supervise p sd loop_ts0 fuel :
  forall ts st, only P (supervise E fuel p sd loop_ts0 ts st).
Proof.
  induction fuel as [|fuel IH]; intros ts st;
    pose proof (only_flashing_kill_all p (p_contexts st));
    pose proof (only_flashing_poll_all p loop_ts0 p st).
  - simpl. flashing_only.
  - rewrite supervise_step. flashing_only.
Qed.

Lemma only_flashing_flash_parallel_do fuel p :
  only P (_flash_parallel_do E fuel p).
Proof.
  unfold _flash_parallel_do.
  pose proof (only_flashing_start_all p).
  pose proof (only_flashing_supervise p).
  flashing_only.
Qed.

Hypothesis consoles : forall e, is_console e -> P e.

Lemma only_flashing_consoles_each (ev : string -> event) ans console_names :
  (forall c, is_console (ev c)) ->
  only P (consoles_each (fun c => call (ev c) (ans c)) console_names).
Proof.
  intros H. induction console_names as [|c console_names IH]; simpl.
  - apply only_ret.
  - apply only_bind; [apply only_call; auto|intros _; exact IH].
Qed.

Lemma only_flashing_consoles_disable p : only P (_flash_consoles_disable E p).
Proof.
  induction p as [|[i images] p IH]; simpl.
  - apply only_ret.
  - apply only_bind; [|intros _; exact IH].
    apply only_flashing_consoles_each. intros c. exact I.
Qed.

Lemma only_flashing_consoles_enable p : only P (_flash_consoles_enable E p).
Proof.
  induction p as [|[i images] p IH]; simpl.
  - apply only_ret.
  - apply only_bind; [|intros _; exact IH].
    apply only_flashing_consoles_each. intros c. exact I.
Qed.

Lemma only_power_sequence sequence :
  (forall sq, sequence = Some sq -> P (EvPowerSequence sq)) ->
  only P (match sequence with
          | Some (step :: steps) => target_power_sequence E (step :: steps)
          | _ => ret tt
          end).
Proof.
  intros H. destruct sequence as [[|step steps]|]; try apply only_ret.
  unfold target_power_sequence. apply only_call. now apply H.
Qed.

Lemma only_flashing_flash_parallel fuel p pre post_ :
  (forall sq, pre = Some sq \/ post_ = Some sq -> P (EvPowerSequence sq)) ->
  only P (_flash_parallel E fuel p pre post_).
Proof.
  intros H. unfold _flash_parallel.
  apply only_bind; [apply only_power_sequence; auto|intros _].
  apply only_try_finally.
  - apply only_bind;
      [unfold log_image_names_impl; destruct p; only_step|intros _].
    apply only_bind; [apply only_flashing_consoles_disable|intros _].
    apply only_flashing_flash_parallel_do.
  - apply only_bind;
      [unfold log_image_names_impl; destruct p; only_step|intros _].
    apply only_bind; [apply only_flashing_consoles_enable|intros _].
    apply only_power_sequence; auto.
Qed.

End Only_flashing.

(** ** The first loop of [put_flash]: resolving the request *)

Section Path_translation.

Lemma substring_all (s : string) : substring 0 (String.length s) s = s.
Proof. induction s; simpl; congruence. Qed.

Lemma prefix_split (p s : string) :
  String.prefix p s = true ->
  s = p +:+ substring (String.length p) (String.length s - String.length p) s.
Proof.
  revert s. induction p as [|a p IH]; intros s H; simpl.
  - rewrite Nat.sub_0_r. now rewrite substring_all.
  - destruct s as [|b s]; simpl in *; [discriminate|].
    destruct (Ascii.ascii_dec a b) as [->|]; [|discriminate].
    change (String b s
            = String b (p +:+ substring (String.length p)
                                (String.length s - String.length p) s)).
    f_equal. now apply IH.
Qed.

(** [img_name.replace(path, path_translated, 1)] when [img_name]
    starts with [path]. *)
Lemma replace_first_prefix old new s :
  String.prefix old s = true ->
  exists rest, s = old +:+ rest /\ replace_first old new s = new +:+ rest.
Proof.
  intros H.
  exists (substring (String.length old) (String.length s - String.length old) s).
  split; [now apply prefix_split|].
  destruct s; unfold replace_first; fold replace_first; rewrite H; reflexivity.
Qed.

Lemma translate_allowed_returns allowed img_name :
  returns (translated allowed img_name) (translate_allowed allowed img_name).
Proof.
  induction allowed as [|[path tr] allowed IH]; intros past s f; simpl.
  - discriminate.
  - destruct (String.prefix path img_name) eqn:Hp.
    + intros H. injection H as <-.
      destruct (replace_first_prefix path tr img_name Hp) as (rest & H1 & H2).
      exists [], path, tr, allowed, rest. repeat split; auto.
    + intros H.
      destruct (IH past s f H)
        as (before & p & t & after & rest & -> & Hb & H1 & H2).
      exists ((path, tr) :: before), p, t, after, rest. repeat split; auto.
Qed.

(** X4.  The loop over [ttbl.store.paths_allowed]: when it finds an
    allowed prefix, the file name it gives is the image name with the
    first prefix of the table that matches replaced by its
    translation, the rest of the name being kept; it calls no
    collaborator and leaves the metadata store as it is. *)
Theorem translate_allowed_first_match allowed img_name past s file_name :
  out (translate_allowed allowed img_name past s) = Ok file_name ->
  translated allowed img_name file_name
  /\ emitted (translate_allowed allowed img_name past s) = []
  /\ store (translate_allowed allowed img_name past s) = s.
Proof.
  intros H. split; [eapply translate_allowed_returns, H|].
  clear H. induction allowed as [|[path tr] allowed IH]; simpl.
  - now split.
  - destruct (String.prefix path img_name); [now split|exact IH].
Qed.

End Path_translation.

Lemma translate_allowed_first_match_witness :
  translated [("/mnt/images/", "/srv/images/")]
    "/mnt/images/bios.bin" "/srv/images/bios.bin"
  /\ emitted (translate_allowed [("/mnt/images/", "/srv/images/")]
                "/mnt/images/bios.bin" [] ∅) = []
  /\ store (translate_allowed [("/mnt/images/", "/srv/images/")]
              "/mnt/images/bios.bin" [] ∅) = ∅.
Proof.
  apply (translate_allowed_first_match [("/mnt/images/", "/srv/images/")]
           "/mnt/images/bios.bin" [] ∅ "/srv/images/bios.bin").
  reflexivity.
Defined.

(** *** Assignments to the buckets *)

Section Buckets.

Lemma od_set_types key value d :
  image_types (od_set key value d)
  = if decide (key ∈ image_types d) then image_types d
    else image_types d ++ [key].
Proof.
  unfold image_types.
  induction d as [|[k v] d IH]; simpl.
  - destruct (decide (key ∈ [])) as [H|H]; [inversion H|reflexivity].
  - destruct (String.eqb key k) eqn:Hk.
    + apply String.eqb_eq in Hk as ->. simpl.
      destruct (decide (k ∈ k :: map fst d)) as [H|H]; [reflexivity|].
      exfalso. apply H. constructor.
    + apply String.eqb_neq in Hk. simpl. rewrite IH.
      destruct (decide (key ∈ map fst d)) as [H|H];
        destruct (decide (key ∈ k :: map fst d)) as [H'|H']; try reflexivity.
      * exfalso. apply H'. now constructor.
      * exfalso. apply H.
        apply elem_of_cons in H' as [->|]; [contradiction|assumption].
Qed.

Lemma od_set_NoDup key value d :
  NoDup (image_types d) -> NoDup (image_types (od_set key value d)).
Proof.
  intros H. rewrite od_set_types.
  destruct (decide (key ∈ image_types d)); [assumption|].
  apply NoDup_app. repeat split; auto.
  - intros x Hx Hx'. apply list_elem_of_singleton in Hx' as ->. contradiction.
  - apply NoDup_singleton.
Qed.

Lemma od_set_not_empty key value d : od_set key value d <> [].
Proof.
  destruct d as [|[k v] d]; simpl; [discriminate|].
  destruct (String.eqb key k); discriminate.
Qed.

(** [d[key] = value; d[key]] *)
Lemma od_set_new key value d : (key, value) ∈ od_set key value d.
Proof.
  induction d as [|[k v] d IH]; simpl.
  - constructor.
  - destruct (String.eqb key k) eqn:Hk.
    + apply String.eqb_eq in Hk as ->. constructor.
    + now constructor.
Qed.

(** [d[key] = value; d[k]] for another key [k] *)
Lemma od_set_keeps key value d k v :
  k <> key -> (k, v) ∈ d -> (k, v) ∈ od_set key value d.
Proof.
  intros Hne. induction d as [|[k' v'] d IH]; simpl; intros H.
  - inversion H.
  - apply elem_of_cons in H as [H|H].
    + injection H as <- <-.
      destruct (String.eqb key k) eqn:Hk.
      * apply String.eqb_eq in Hk. congruence.
      * constructor.
    + destruct (String.eqb key k'); constructor; auto.
Qed.

Lemma bucket_set_ids i key value b :
  ids (bucket_set i key value b)
  = if decide (impl_id i ∈ ids b) then ids b else ids b ++ [impl_id i].
Proof.
  unfold ids.
  induction b as [|[i' d] b IH]; simpl.
  - destruct (decide (impl_id i ∈ [])) as [H|H]; [inversion H|reflexivity].
  - destruct (Nat.eqb (impl_id i) (impl_id i')) eqn:Hi.
    + apply Nat.eqb_eq in Hi. simpl. rewrite Hi.
      destruct (decide (impl_id i'
                        ∈ impl_id i' :: map (fun x => impl_id (fst x)) b))
        as [H|H]; [reflexivity|].
      exfalso. apply H. constructor.
    + apply Nat.eqb_neq in Hi. simpl. rewrite IH.
      destruct (decide (impl_id i ∈ map (fun x => impl_id (fst x)) b)) as [H|H];
        destruct (decide (impl_id i
                          ∈ impl_id i' :: map (fun x => impl_id (fst x)) b))
          as [H'|H']; try reflexivity.
      * exfalso. apply H'. now constructor.
      * exfalso. apply H.
        apply elem_of_cons in H' as [?|]; [contradiction|assumption].
Qed.

Lemma bucket_set_NoDup i key value b :
  NoDup (ids b) -> NoDup (ids (bucket_set i key value b)).
Proof.
  intros H. rewrite bucket_set_ids.
  destruct (decide (impl_id i ∈ ids b)); [assumption|].
  apply NoDup_app. repeat split; auto.
  - intros x Hx Hx'. apply list_elem_of_singleton in Hx' as ->. contradiction.
  - apply NoDup_singleton.
Qed.

Lemma bucket_set_Forall (Q : impl * image_map -> Prop) i key value b :
  Q (i, [(key, value)]) ->
  (forall i' d, impl_id i = impl_id i' -> Q (i', d) -> Q (i', od_set key value d)) ->
  Forall Q b -> Forall Q (bucket_set i key value b).
Proof.
  intros Hnew Hset. induction b as [|[i' d] b IH]; simpl; intros H.
  - now constructor.
  - apply Forall_cons in H as [H1 H2].
    destruct (Nat.eqb (impl_id i) (impl_id i')) eqn:Hi.
    + apply Nat.eqb_eq in Hi. constructor; auto.
    + constructor; auto.
Qed.

(** The image lands in the dictionary of its driver. *)
Lemma bucket_set_new i key value b :
  exists i0 d,
    (i0, d) ∈ bucket_set i key value b
    /\ impl_id i0 = impl_id i /\ (key, value) ∈ d.
Proof.
  induction b as [|[i' d] b IH]; simpl.
  - exists i, [(key, value)]. repeat split; constructor.
  - destruct (Nat.eqb (impl_id i) (impl_id i')) eqn:Hi.
    + apply Nat.eqb_eq in Hi.
      exists i', (od_set key value d). repeat split; auto.
      * constructor.
      * apply od_set_new.
    + destruct IH as (i0 & d0 & H1 & H2 & H3).
      exists i0, d0. repeat split; auto. now constructor.
Qed.

(** The images of the other drivers and of the other image types
    stay. *)
Lemma bucket_set_keeps i key value b i0 d k v :
  (i0, d) ∈ b -> (k, v) ∈ d ->
  ~ (impl_id i = impl_id i0 /\ key = k) ->
  exists d', (i0, d') ∈ bucket_set i key value b /\ (k, v) ∈ d'.
Proof.
  intros Hin Hkv Hne.
  induction b as [|[i' d0] b IH]; simpl.
  - inversion Hin.
  - apply elem_of_cons in Hin as [Hin|Hin].
    + injection Hin as <- <-.
      destruct (Nat.eqb (impl_id i) (impl_id i0)) eqn:Hi.
      * apply Nat.eqb_eq in Hi.
        exists (od_set key value d). split; [constructor|].
        apply od_set_keeps; [|assumption]. intros ->. apply Hne. now split.
      * exists d. split; [constructor|auto].
    + destruct (IH Hin) as (d' & H1 & H2).
      destruct (Nat.eqb (impl_id i) (impl_id i')).
      * exists d. split; [now constructor|auto].
      * exists d'. split; [now constructor|auto].
Qed.

Lemma bucket_keys_ok_set i key value b :
  bucket_keys_ok b -> bucket_keys_ok (bucket_set i key value b).
Proof.
  intros [H1 H2]. split.
  - now apply bucket_set_NoDup.
  - apply bucket_set_Forall; auto.
    + simpl. split; [discriminate|]. apply NoDup_singleton.
    + intros i' d _ [_ Hd]. simpl. split.
      * apply od_set_not_empty.
      * now apply od_set_NoDup.
Qed.

End Buckets.

(** *** The loop *)

Section Request.

Variable E : Env.
Variable user_path : string.

Lemma with_lock_decompress_ok lock_file_name file_name past s f :
  out (with_lock E lock_file_name
         (ask (EvDecompress file_name) (maybe_decompress E file_name)) past s)
  = Ok f ->
  exists h, maybe_decompress E file_name h = Returns f.
Proof.
  unfold with_lock. intros H.
  apply bind_ok_inv in H as (u & _ & H).
  apply try_finally_ok_full in H as (H & _).
  unfold ask in H.
  destruct (maybe_decompress E file_name _) eqn:Hd; [|discriminate].
  simpl in H. injection H as ->. eauto.
Qed.

Lemma file_name_of_ok img_name past s file_name :
  out ((if negb (isabs img_name) then ret (path_join user_path img_name)
        else translate_allowed (paths_allowed E) img_name) past s)
  = Ok file_name ->
  file_name_of E user_path img_name file_name.
Proof.
  unfold file_name_of. destruct (isabs img_name); simpl.
  - apply translate_allowed_returns.
  - intros H. now injection H as <-.
Qed.

(** An invariant of the buckets that each turn of the loop keeps holds
    when the loop returns.  A turn resolves the image type, finds the
    name of the file and has it decompressed. *)
Lemma classify_fold (I : image_map -> plan * plan -> Prop) :
  (forall done ty name i t file_name h f b,
      impl_get_by_name E ty = Returns (i, t) ->
      file_name_of E user_path name file_name ->
      maybe_decompress E file_name h = Returns f ->
      I done b -> I (done ++ [(ty, name)]) (bucket_step i t f b)) ->
  forall images done serial par,
    I done (serial, par) ->
    returns (fun b => I (done ++ images) b)
      (classify E user_path images serial par).
Proof.
  intros Hstep images.
  induction images as [|[ty name] images IH];
    intros done serial par HI past s b Hout.
  - simpl in Hout. injection Hout as <-. now rewrite app_nil_r.
  - simpl in Hout.
    apply bind_ok_inv in Hout as (found & Hfound & Hout).
    unfold self_impl_get_by_name in Hfound.
    destruct (impl_get_by_name E ty) as [[i t]|] eqn:Hreg; [|discriminate].
    injection Hfound as <-.
    apply bind_ok_inv in Hout as (file_name & Hfile & Hout).
    apply file_name_of_ok in Hfile.
    apply bind_ok_inv in Hout as (f & Hdec & Hout).
    apply with_lock_decompress_ok in Hdec as (h & Hdec).
    pose proof (Hstep done ty name i t file_name h f (serial, par)
                  Hreg Hfile Hdec HI) as HI'.
    unfold bucket_step in HI'. simpl in HI'.
    destruct (parallel i);
      apply bind_ok_inv in Hout as (u & _ & Hout);
      apply IH with (done := done ++ [(ty, name)]) in Hout; auto;
      now rewrite <- app_assoc in Hout.
Qed.

Lemma classify_keeps_keys images serial par :
  bucket_keys_ok serial -> bucket_keys_ok par ->
  returns (fun b => bucket_keys_ok (fst b) /\ bucket_keys_ok (snd b))
    (classify E user_path images serial par).
Proof.
  intros Hs Hp.
  apply (classify_fold
           (fun _ b => bucket_keys_ok (fst b) /\ bucket_keys_ok (snd b)))
    with (done := []); [|now split].
  intros done ty name i t file_name h f b _ _ _ [Hs' Hp'].
  unfold bucket_step. destruct (parallel i); simpl; split; auto;
    now apply bucket_keys_ok_set.
Qed.

(** X1.  When the first loop of [put_flash] returns, each of its two
    buckets holds each driver once; each driver of a bucket has at
    least one image, and each of its image types once. *)
Theorem classify_buckets_keys images past s serial par :
  out (classify E user_path images [] [] past s) = Ok (serial, par) ->
  NoDup (ids serial) /\ NoDup (ids par)
  /\ forall i d, (i, d) ∈ serial ++ par -> d <> [] /\ NoDup (image_types d).
Proof.
  intros H.
  destruct (classify_keeps_keys images [] [] (conj (NoDup_nil_2) (Forall_nil_2 _))
              (conj (NoDup_nil_2) (Forall_nil_2 _)) past s (serial, par) H)
    as [[Hs1 Hs2] [Hp1 Hp2]].
  split; [assumption|]. split; [assumption|].
  intros i d Hin. simpl in *.
  rewrite Forall_forall in Hs2, Hp2.
  apply elem_of_app in Hin as [Hin|Hin];
    [apply (Hs2 _ Hin)|apply (Hp2 _ Hin)].
Qed.

Lemma resolves_more images more i t :
  resolves E images i t -> resolves E (images ++ more) i t.
Proof.
  intros (ty & name & H1 & H2). exists ty, name. split; auto.
  apply elem_of_app. now left.
Qed.

Lemma entry_sound_more images more flag x :
  entry_sound E images flag x -> entry_sound E (images ++ more) flag x.
Proof.
  intros (H1 & (t & H2) & H3). split; [assumption|]. split.
  - exists t. now apply resolves_more.
  - intros t' Ht'. destruct (H3 t' Ht') as (i & Hi & Hid).
    exists i. split; auto. now apply resolves_more.
Qed.

Lemma entry_sound_set done ty name i t f b :
  impl_get_by_name E ty = Returns (i, t) ->
  Forall (entry_sound E done (parallel i)) b ->
  Forall (entry_sound E (done ++ [(ty, name)]) (parallel i))
    (bucket_set i t f b).
Proof.
  intros Hreg Hb.
  assert (resolves E (done ++ [(ty, name)]) i t) as Hres.
  { exists ty, name. split; auto. apply elem_of_app. right. constructor. }
  apply bucket_set_Forall.
  - split; [reflexivity|]. split; [now exists t|].
    simpl. intros t' Ht'. apply list_elem_of_singleton in Ht' as ->.
    now exists i.
  - intros i' d Hid (H1 & H2 & H3). split; [assumption|]. split; [assumption|].
    simpl. intros t' Ht'. rewrite od_set_types in Ht'.
    destruct (decide (t ∈ image_types d)).
    + now apply H3.
    + apply elem_of_app in Ht' as [Ht'|Ht']; [now apply H3|].
      apply list_elem_of_singleton in Ht' as ->. exists i. split; auto.
  - eapply Forall_impl; [exact Hb|]. intros x. apply entry_sound_more.
Qed.

Lemma classify_keeps_sound images done serial par :
  Forall (entry_sound E done false) serial ->
  Forall (entry_sound E done true) par ->
  returns (fun b => Forall (entry_sound E (done ++ images) false) (fst b)
                    /\ Forall (entry_sound E (done ++ images) true) (snd b))
    (classify E user_path images serial par).
Proof.
  intros Hs Hp.
  apply (classify_fold
           (fun done b => Forall (entry_sound E done false) (fst b)
                          /\ Forall (entry_sound E done true) (snd b)));
    [|now split].
  intros done' ty name i t file_name h f b Hreg _ _ [Hs' Hp'].
  pose proof (entry_sound_set done' ty name i t f) as Hset.
  unfold bucket_step. destruct (parallel i); simpl; split.
  - eapply Forall_impl; [exact Hs'|]. intros x. apply entry_sound_more.
  - now apply Hset.
  - now apply Hset.
  - eapply Forall_impl; [exact Hp'|]. intros x. apply entry_sound_more.
Qed.

(** The drivers of the buckets are drivers the registry knows. *)
Lemma classify_registered images :
  returns (fun b => Forall (fun x => registered E (fst x)) (fst b)
                    /\ Forall (fun x => registered E (fst x)) (snd b))
    (classify E user_path images [] []).
Proof.
  intros past s b H.
  apply (classify_keeps_sound images [] [] []) in H as [Hs Hp];
    [|constructor..].
  split; (eapply Forall_impl; [eassumption|]);
    intros [i d] (_ & (t & ty & n & _ & Hr) & _); now exists ty, t.
Qed.

(** X2.  When the first loop of [put_flash] returns, the serial bucket
    holds drivers whose [parallel] is [False] and the parallel bucket
    drivers whose [parallel] is [True]; each driver of a bucket is the
    driver of some entry of the request, and each image type it is
    given is the real image type of an entry of the request that
    resolves to it. *)
Theorem classify_buckets_sound images past s serial par :
  out (classify E user_path images [] [] past s) = Ok (serial, par) ->
  Forall (entry_sound E images false) serial
  /\ Forall (entry_sound E images true) par.
Proof.
  intros H.
  apply (classify_keeps_sound images [] [] [] (Forall_nil_2 _) (Forall_nil_2 _)
           past s (serial, par) H).
Qed.

(** X3.  The file a driver is given for an image type is the one of
    the last entry of the request that resolves to this driver and
    this image type (as the comment in [put_flash] says of aliases:
    with *NAME-AKA:FILEA NAME:FILEB*, FILEB is flashed and FILEA
    ignored): the buckets hold, for the driver, the image type with
    what [maybe_decompress] returned for the file of that entry. *)
Theorem classify_last_file_wins images past s buckets i image_type img_name :
  out (classify E user_path images [] [] past s) = Ok buckets ->
  last_given E images i image_type img_name ->
  exists i0 d file_name h real_file_name,
    (i0, d) ∈ bucket_of i buckets
    /\ impl_id i0 = impl_id i
    /\ (image_type, real_file_name) ∈ d
    /\ file_name_of E user_path img_name file_name
    /\ maybe_decompress E file_name h = Returns real_file_name.
Proof.
  intros H.
  revert i image_type img_name.
  apply (classify_fold
           (fun done b =>
              forall i image_type img_name,
                last_given E done i image_type img_name ->
                exists i0 d file_name h real_file_name,
                  (i0, d) ∈ bucket_of i b
                  /\ impl_id i0 = impl_id i
                  /\ (image_type, real_file_name) ∈ d
                  /\ file_name_of E user_path img_name file_name
                  /\ maybe_decompress E file_name h = Returns real_file_name))
    with (images := images) (done := []) (serial := []) (par := [])
         (past := past) (s := s) (a := buckets); auto.
  - intros done ty name i t file_name h f b Hreg Hfile Hdec IH j u n
           (before & ty' & after & Heq & Hreg' & Hlast).
    induction after as [|last_ after' _] using rev_ind.
    + (* the entry just read *)
      apply app_inj_tail in Heq as [-> Heq]. injection Heq as -> ->.
      rewrite Hreg in Hreg'. injection Hreg' as -> ->.
      destruct (bucket_set_new j u f (bucket_of j b)) as (i0 & d & H1 & H2 & H3).
      exists i0, d, file_name, h, f. repeat split; auto.
      unfold bucket_of, bucket_step in *. now destruct (parallel j).
    + (* an earlier entry *)
      rewrite app_comm_cons, app_assoc in Heq.
      apply app_inj_tail in Heq as [-> <-].
      destruct (IH j u n) as (i0 & d & fn & h' & rf & H1 & H2 & H3 & H4 & H5).
      { exists before, ty', after'. repeat split; auto.
        intros a b' c d' Hin. apply (Hlast a b'). apply elem_of_app. now left. }
      assert (~ (impl_id i = impl_id i0 /\ t = u)) as Hne.
      { intros [Ha Hb]. apply (Hlast ty name i t).
        - apply elem_of_app. right. constructor.
        - assumption.
        - split; congruence. }
      unfold bucket_of, bucket_step in *.
      destruct (parallel i) eqn:Hpi; destruct (parallel j) eqn:Hpj; simpl in *.
      * destruct (bucket_set_keeps i t f _ i0 d u rf H1 H3 Hne)
          as (d' & Hd1 & Hd2).
        exists i0, d', fn, h', rf. repeat split; auto.
      * exists i0, d, fn, h', rf. repeat split; auto.
      * exists i0, d, fn, h', rf. repeat split; auto.
      * destruct (bucket_set_keeps i t f _ i0 d u rf H1 H3 Hne)
          as (d' & Hd1 & Hd2).
        exists i0, d', fn, h', rf. repeat split; auto.
  - intros i image_type img_name (before & ty' & after & Heq & _).
    now destruct before.
Qed.

End Request.

Lemma classify_buckets_keys_witness :
  let serial := [(Lab.shell 1 2 0, [("rom", "/home/u/fw.bin")])] in
  NoDup (ids serial) /\ NoDup (ids [])
  /\ forall i d, (i, d) ∈ serial ++ [] -> d <> [] /\ NoDup (image_types d).
Proof.
  apply (classify_buckets_keys
           (Lab.env Lab.always_passes Lab.finished Lab.starts (fun _ => false)
              (Lab.registry_of (Lab.shell 1 2 0)))
           "/home/u" [("rom", "fw.bin")] [] ∅).
  reflexivity.
Defined.

Lemma classify_buckets_sound_witness :
  let e := Lab.env Lab.always_passes Lab.finished Lab.starts (fun _ => false)
             (Lab.registry_of (Lab.shell 1 2 0)) in
  Forall (entry_sound e [("rom", "fw.bin")] false)
    [(Lab.shell 1 2 0, [("rom", "/home/u/fw.bin")])]
  /\ Forall (entry_sound e [("rom", "fw.bin")] true) [].
Proof.
  apply (classify_buckets_sound
           (Lab.env Lab.always_passes Lab.finished Lab.starts (fun _ => false)
              (Lab.registry_of (Lab.shell 1 2 0)))
           "/home/u" [("rom", "fw.bin")] [] ∅).
  reflexivity.
Defined.

(** An alias and its target in one request, as in the comment of
    [put_flash]: with *rom-aka:a.bin rom:b.bin*, the driver is given
    b.bin for the image type rom, and a.bin is ignored. *)
Lemma classify_last_file_wins_witness :
  let e := Lab.env Lab.always_passes Lab.finished Lab.starts (fun _ => false)
             (Bench.aliased (Lab.shell 1 2 0)) in
  let request := [("rom-aka", "a.bin"); ("rom", "b.bin")] in
  let buckets := ([(Lab.shell 1 2 0, [("rom", "/home/u/b.bin")])], []) in
  out (classify e "/home/u" request [] [] [] ∅) = Ok buckets
  /\ exists i0 d file_name h real_file_name,
       (i0, d) ∈ bucket_of (Lab.shell 1 2 0) buckets
       /\ impl_id i0 = impl_id (Lab.shell 1 2 0)
       /\ ("rom", real_file_name) ∈ d
       /\ file_name_of e "/home/u" "b.bin" file_name
       /\ maybe_decompress e file_name h = Returns real_file_name.
Proof.
  intros e request buckets. split; [reflexivity|].
  apply (classify_last_file_wins e "/home/u" request [] ∅ buckets
           (Lab.shell 1 2 0) "rom" "b.bin").
  - reflexivity.
  - exists [("rom-aka", "a.bin")], "rom", []. split; [reflexivity|].
    split; [reflexivity|]. intros a b c d H. inversion H.
Defined.

(** ** What a request does to the files and to the power rail *)

Section Resolution_events.

Variable E : Env.
Variable user_path : string.
Variable P : event -> Prop.

Hypothesis locks : forall l, P (EvLock l) /\ P (EvUnlock l).
Hypothesis touches :
  forall f, String.prefix user_path f = true -> P (EvFileTouch f).

Lemma only_classify_files images :
  (forall img_type img_name file_name,
      (img_type, img_name) ∈ images ->
      file_name_of E user_path img_name file_name ->
      P (EvDecompress file_name)) ->
  forall serial par, only P (classify E user_path images serial par).
Proof.
  induction images as [|[ty name] images IH]; intros H serial par; simpl.
  - apply only_ret.
  - apply only_bind; [unfold self_impl_get_by_name; only_auto|intros [i t]].
    apply (only_bind_with P (file_name_of E user_path name)).
    + destruct (isabs name); simpl;
        [apply only_translate_allowed|apply only_ret].
    + intros past s f Hf. eapply file_name_of_ok, Hf.
    + intros file_name Hfile.
      apply only_bind.
      { unfold with_lock. apply only_bind; [apply only_call, locks|intros _].
        apply only_try_finally; [|apply only_call, locks].
        apply only_ask. apply (H ty name); [constructor|assumption]. }
      intros f.
      assert (only P (if String.prefix user_path f
                      then call (EvFileTouch f) (file_touch E f)
                      else ret tt)) as Ht.
      { destruct (String.prefix user_path f) eqn:Hp; [|apply only_ret].
        apply only_call. now apply touches. }
      destruct (parallel i); (apply only_bind; [exact Ht|intros _]);
        apply IH; intros a b c Hab; apply (H a b c); now constructor.
Qed.

Hypothesis flashing : forall e, is_flashing e -> P e.
Hypothesis timestamp : P EvTimestamp.

Lemma only_after_classify fuel self (buckets : plan * plan) :
  only P
    (let '(serial, parallel_) := buckets in
     target_timestamp ;;;
     flash_serial E fuel serial ;;;
     match parallel_ with
     | _ :: _ =>
         _flash_parallel E fuel parallel_
           (self_power_sequence_pre self) (self_power_sequence_post self)
     | [] => ret tt
     end ;;;
     ret ([] : list (string * string))).
Proof.
  assert (forall p pre post_, only P (_flash_parallel E fuel p pre post_)) as Hf.
  { intros. apply only_flashing_flash_parallel; intros; apply flashing;
      unfold is_flashing; simpl; tauto. }
  destruct buckets as [serial par].
  apply only_bind; [now apply only_call|intros _].
  apply only_bind.
  - induction serial as [|[i d] serial IH]; simpl; [apply only_ret|].
    apply only_bind; [apply Hf|intros _; exact IH].
  - intros _. apply only_bind; [|intros _; apply only_ret].
    destruct par; [apply only_ret|apply Hf].
Qed.

Lemma only_put_flash_files fuel self images :
  (forall img_type img_name file_name,
      (img_type, img_name) ∈ images ->
      file_name_of E user_path img_name file_name ->
      P (EvDecompress file_name)) ->
  only P (put_flash E fuel self images user_path).
Proof.
  intros H. unfold put_flash.
  apply only_bind; [now apply only_classify_files|intros buckets].
  apply only_after_classify.
Qed.

End Resolution_events.

Section Request_events.

Variable E : Env.
Variable user_path : string.

(** X5.  The files a request has decompressed (the only files
    [put_flash] itself has opened) are files of the request: for an
    entry with a relative name, the file of that name under the
    storage of the user; for an entry with an absolute name, the name
    with an allowed prefix replaced by its translation. *)
Theorem put_flash_opens_requested fuel self images past s file_name :
  EvDecompress file_name
    ∈ emitted (put_flash E fuel self images user_path past s) ->
  exists img_type img_name,
    (img_type, img_name) ∈ images
    /\ file_name_of E user_path img_name file_name.
Proof.
  intros H.
  set (P := fun e => match e with
                     | EvDecompress f =>
                         exists img_type img_name,
                           (img_type, img_name) ∈ images
                           /\ file_name_of E user_path img_name f
                     | _ => True
                     end).
  assert (only P (put_flash E fuel self images user_path)) as Honly.
  { apply only_put_flash_files.
    - intros l. now split.
    - intros f _. exact I.
    - intros [] He; try exact I. unfold is_flashing in He. simpl in He. tauto.
    - exact I.
    - intros ty name f Hin Hf. now exists ty, name. }
  specialize (Honly past s). rewrite Forall_forall in Honly.
  apply (Honly _ H).
Qed.

(** X7.  The files whose modification time a request refreshes are
    under the storage of the user. *)
Theorem put_flash_touches_user_files fuel self images past s file_name :
  EvFileTouch file_name
    ∈ emitted (put_flash E fuel self images user_path past s) ->
  String.prefix user_path file_name = true.
Proof.
  intros H.
  set (P := fun e => match e with
                     | EvFileTouch f => String.prefix user_path f = true
                     | _ => True
                     end).
  assert (only P (put_flash E fuel self images user_path)) as Honly.
  { apply only_put_flash_files.
    - intros l. now split.
    - intros f Hf. exact Hf.
    - intros [] He; try exact I. unfold is_flashing in He. simpl in He. tauto.
    - exact I.
    - intros ty name f Hin Hf. exact I. }
  specialize (Honly past s). rewrite Forall_forall in Honly.
  apply (Honly _ H).
Qed.

(** X8.  The power sequences a request runs are the pre and post
    sequences of the interface and those of the drivers of the request
    that are not parallel: the sequences of a parallel driver are
    never run. *)
Theorem put_flash_power_sequences fuel self images past s sequence :
  EvPowerSequence sequence
    ∈ emitted (put_flash E fuel self images user_path past s) ->
  sequence_of E self images sequence.
Proof.
  set (P := fun e => match e with
                     | EvPowerSequence sq => sequence_of E self images sq
                     | _ => True
                     end).
  assert (forall e, ~ is_power e -> P e) as Hnp.
  { intros [] H; try exact I. now destruct H. }
  assert (only P (put_flash E fuel self images user_path)) as Honly.
  { unfold put_flash.
    apply (only_bind_with P
             (fun b => Forall (entry_sound E images false) (fst b)
                       /\ Forall (entry_sound E images true) (snd b))).
    - eapply only_impl; [|apply only_classify]. intros [] He; try exact I.
      destruct He.
    - apply (classify_keeps_sound E user_path images [] [] []); constructor.
    - intros [serial par] [Hs _]. simpl in Hs.
      apply only_bind; [apply only_call; exact I|intros _].
      apply only_bind.
      + clear -Hs Hnp. induction Hs as [|[i d] serial Hi _ IH]; simpl.
        * apply only_ret.
        * apply only_bind; [|intros _; exact IH].
          apply only_flashing_flash_parallel;
            try (intros e He; apply Hnp; destruct e; simpl in *; tauto).
          intros sq Hsq. simpl. right. right.
          destruct Hi as (Hpar & (t & Hres) & _). simpl in *.
          exists i, t. split; [assumption|split; assumption].
      + intros _. apply only_bind; [|intros _; apply only_ret].
        destruct par; [apply only_ret|].
        apply only_flashing_flash_parallel;
          try (intros e He; apply Hnp; destruct e; simpl in *; tauto).
        intros sq [Hsq|Hsq]; simpl; [now left|right; now left]. }
  intros H. specialize (Honly past s). rewrite Forall_forall in Honly.
  apply (Honly _ H).
Qed.

(** *** The decompression lock *)

Lemma under_lock_app evs1 evs2 :
  under_lock E evs1 -> under_lock E evs2 -> under_lock E (evs1 ++ evs2).
Proof.
  intros H1 H2 before f after Heq.
  apply app_eq_split in Heq as [(l & Heq & ->)|(l & -> & Heq)].
  - destruct (H1 _ _ _ Heq) as (b' & a' & -> & ->).
    exists b', (a' ++ evs2). now split.
  - destruct (H2 _ _ _ Heq) as (b' & a' & -> & ->).
    exists (evs1 ++ b'), a'. split; [now rewrite app_assoc|reflexivity].
Qed.

Lemma under_lock_without evs :
  Forall (fun e => ~ is_decompress e) evs -> under_lock E evs.
Proof.
  intros H before f after ->. apply Forall_app in H as [_ H].
  apply Forall_cons in H as [H _]. now destruct H.
Qed.

Lemma locking_bind {A B} (m : M A) (f : A -> M B) :
  locking E m -> (forall a, locking E (f a)) -> locking E (bind m f).
Proof.
  intros Hm Hf past s. unfold bind. cbv zeta.
  destruct (out (m past s)); simpl; auto.
  apply under_lock_app; auto. apply Hf.
Qed.

Lemma locking_only {A} (m : M A) :
  only (fun e => ~ is_decompress e) m -> locking E m.
Proof. intros H past s. apply under_lock_without, H. Qed.

(** [with lock: maybe_decompress(file_name)]: the lock is released
    whether the decompression returns or raises. *)
Lemma locking_decompress file_name :
  locking E (with_lock E (lock_file_name_of E file_name)
               (ask (EvDecompress file_name) (maybe_decompress E file_name))).
Proof.
  intros past s. unfold with_lock. rewrite bind_call.
  destruct (lock_acquire E _ past); simpl.
  - apply under_lock_without. repeat constructor. intros [].
  - unfold try_finally, ask, call. cbv zeta.
    destruct (maybe_decompress E file_name _); simpl;
      intros before f after Heq;
      (destruct before as [|b0 [|b1 [|b2 before]]]; simplify_eq/=;
       [exists [], []; now split|now destruct before]).
Qed.

Lemma locking_classify images :
  forall serial par, locking E (classify E user_path images serial par).
Proof.
  induction images as [|[ty name] images IH]; intros serial par; simpl.
  - apply locking_only, only_ret.
  - apply locking_bind;
      [apply locking_only; unfold self_impl_get_by_name; only_auto
      |intros [i t]].
    apply locking_bind.
    { apply locking_only. destruct (isabs name); simpl;
        [apply only_translate_allowed|apply only_ret]. }
    intros file_name. apply locking_bind; [apply locking_decompress|intros f].
    assert (locking E (if String.prefix user_path f
                       then call (EvFileTouch f) (file_touch E f)
                       else ret tt)) as Ht.
    { apply locking_only. destruct (String.prefix user_path f);
        [apply only_call; intros []|apply only_ret]. }
    destruct (parallel i); (apply locking_bind; [exact Ht|intros _; apply IH]).
Qed.

(** X6.  A request decompresses a file under the lock of that file
    only: each call to [commonl.maybe_decompress] comes right after the
    lock file of the file was taken, and the lock is released right
    after the call, whether the call returned or raised. *)
Theorem put_flash_decompresses_under_lock fuel self images past s
    before file_name after :
  emitted (put_flash E fuel self images user_path past s)
  = before ++ EvDecompress file_name :: after ->
  exists before' after',
    before = before' ++ [EvLock (lock_file_name_of E file_name)]
    /\ after = EvUnlock (lock_file_name_of E file_name) :: after'.
Proof.
  revert before file_name after.
  change (under_lock E (emitted (put_flash E fuel self images user_path past s))).
  revert past s. change (locking E (put_flash E fuel self images user_path)).
  unfold put_flash.
  apply locking_bind; [apply locking_classify|intros buckets].
  apply locking_only. apply only_after_classify.
  - intros e He Hd.
    destruct e; unfold is_flashing in He; simpl in *; tauto.
  - intros [].
Qed.

End Request_events.

Lemma put_flash_opens_requested_witness :
  let e := Lab.env Lab.always_passes Lab.finished Lab.starts (fun _ => false)
             (Lab.registry_of (Lab.shell 1 2 0)) in
  exists img_type img_name,
    (img_type, img_name) ∈ [("rom", "fw.bin")]
    /\ file_name_of e "/home/u" img_name "/home/u/fw.bin".
Proof.
  apply (put_flash_opens_requested
           (Lab.env Lab.always_passes Lab.finished Lab.starts (fun _ => false)
              (Lab.registry_of (Lab.shell 1 2 0)))
           "/home/u" 10%nat Lab.itf [("rom", "fw.bin")] [] ∅).
  apply list_elem_of_In. vm_compute. right. left. reflexivity.
Defined.

Lemma put_flash_touches_user_files_witness :
  String.prefix "/home/u" "/home/u/fw.bin" = true.
Proof.
  apply (put_flash_touches_user_files
           (Lab.env Lab.always_passes Lab.finished Lab.starts (fun _ => false)
              (Lab.registry_of (Lab.shell 1 2 0)))
           "/home/u" 10%nat Lab.itf [("rom", "fw.bin")] [] ∅).
  apply list_elem_of_In. vm_compute. do 3 right. left. reflexivity.
Defined.

(** The driver is serial: its own pre sequence is run. *)
Lemma put_flash_power_sequences_witness :
  let e := Lab.env Lab.always_passes Lab.finished Lab.starts (fun _ => false)
             (Lab.registry_of (Lab.shell 1 2 0)) in
  sequence_of e Lab.itf [("rom", "fw.bin")] Lab.off_full.
Proof.
  apply (put_flash_power_sequences
           (Lab.env Lab.always_passes Lab.finished Lab.starts (fun _ => false)
              (Lab.registry_of (Lab.shell 1 2 0)))
           "/home/u" 10%nat Lab.itf [("rom", "fw.bin")] [] ∅).
  apply list_elem_of_In. vm_compute. do 5 right. left. reflexivity.
Defined.

Lemma put_flash_decompresses_under_lock_witness :
  let e := Lab.env Lab.always_passes Lab.finished Lab.starts (fun _ => false)
             (Lab.registry_of (Lab.shell 1 2 0)) in
  let r := put_flash e 10 Lab.itf [("rom", "fw.bin")] "/home/u" [] ∅ in
  exists before' after',
    [EvLock (lock_file_name_of e "/home/u/fw.bin")]
    = before' ++ [EvLock (lock_file_name_of e "/home/u/fw.bin")]
    /\ drop 2 (emitted r)
       = EvUnlock (lock_file_name_of e "/home/u/fw.bin") :: after'.
Proof.
  intros e r.
  apply (put_flash_decompresses_under_lock e "/home/u" 10%nat Lab.itf
           [("rom", "fw.bin")] [] ∅
           [EvLock (lock_file_name_of e "/home/u/fw.bin")] "/home/u/fw.bin"
           (drop 2 (emitted r))).
  vm_compute. reflexivity.
Defined.

(** ** The exceptions of a request *)

(** *** Supervised drivers: no error of the interpreter *)

Section Errors.

Variable E : Env.

Let passes_on : forall what, deliberate (Raised what) := fun _ => I.

Lemma safe_hash_record images :
  safe deliberate anything (_hash_record E images).
Proof.
  induction images as [|[t n] images IH]; simpl.
  - safe_step.
  - unfold hash_file_hexdigest. repeat safe_step. exact IH.
Qed.

Lemma safe_kill_all items contexts m :
  Forall (fun x => is_supervised (fst x)) items ->
  covers items contexts ->
  safe deliberate anything (kill_all E items contexts m).
Proof.
  induction 1 as [|[i images] items Hi _ IH]; intros Hc; simpl.
  - safe_step.
  - destruct (Hc (i, images)) as [ctx Hctx]; [constructor|]. simpl in Hctx.
    unfold contexts_get. rewrite Hctx. safe_step.
    unfold flash_kill. unfold is_supervised in Hi. simpl in Hi.
    destruct (cls i); [contradiction|]. safe_step.
    apply IH. intros x Hx. apply Hc. now constructor.
Qed.

Lemma covers_insert p contexts id ctx :
  covers p contexts -> covers p (<[id := ctx]> contexts).
Proof.
  intros H x Hx. destruct (decide (id = impl_id (fst x))) as [->|Hne].
  - rewrite lookup_insert_eq. eauto.
  - rewrite lookup_insert_ne by assumption. now apply H.
Qed.

Section Plan.

Variable p : plan.
Hypothesis p_supervised : Forall (fun x => is_supervised (fst x)) p.

Lemma safe_verify i images ctx st :
  is_supervised i -> covers p (p_contexts st) ->
  safe deliberate (fun st' => covers p (p_contexts st'))
    (verify E p i images ctx st).
Proof.
  intros Hi Hc. unfold verify, flash_post_check, get_retries, flash_start.
  unfold is_supervised in Hi. destruct (cls i); [contradiction|].
  safe_step.
  match goal with
  | |- safe _ _ (match ?r with _ => _ end) => destruct r as [d|]
  end.
  - safe_step. destruct (retry_count ctx <=? _)%Z.
    + safe_step. safe_step. simpl. now apply covers_insert.
    + apply (safe_bind _ anything); [now apply safe_kill_all|intros _ _].
      safe_step.
  - apply (safe_bind _ anything); [now apply safe_hash_record|intros _ _].
    now safe_step.
Qed.

Lemma safe_poll_all loop_ts0 items :
  (forall x, x ∈ items -> x ∈ p) ->
  forall st,
    covers p (p_contexts st) ->
    safe deliberate (fun st' => covers p (p_contexts st'))
      (poll_all E p loop_ts0 items st).
Proof.
  induction items as [|[i images] items IH]; intros Hsub st Hc; simpl.
  - now safe_step.
  - assert (forall x, x ∈ items -> x ∈ p) as Hsub'.
    { intros x Hx. apply Hsub. now constructor. }
    assert ((i, images) ∈ p) as Hin by (apply Hsub; constructor).
    assert (is_supervised i) as Hi.
    { rewrite Forall_forall in p_supervised. apply (p_supervised _ Hin). }
    destruct (decide (impl_id i ∈ done_impls st)); [now apply IH|].
    destruct (Hc _ Hin) as [ctx0 Hctx0]. simpl in Hctx0.
    unfold contexts_get. rewrite Hctx0.
    unfold get_check_period, flash_check_done, time_now.
    pose proof Hi as Hi'. unfold is_supervised in Hi'.
    destruct (cls i) as [|cp r] eqn:Hcls; [contradiction|].
    safe_step. safe_step. safe_step.
    destruct (Qltb _ _); [|now apply IH].
    safe_step.
    match goal with |- safe _ _ (if ?b then _ else _) => destruct b end;
      [|now apply IH].
    eapply safe_bind; [now apply safe_verify|].
    intros st' Hc'. now apply IH.
Qed.

Lemma safe_supervise sd loop_ts0 fuel :
  forall ts st,
    covers p (p_contexts st) ->
    safe deliberate anything (supervise E fuel p sd loop_ts0 ts st).
Proof.
  induction fuel as [|fuel IH]; intros ts st Hc.
  - simpl. destruct (Qltb _ _); [apply safe_out_of_fuel|].
    apply (safe_bind _ anything); [now apply safe_kill_all|intros _ _].
    safe_step.
  - rewrite supervise_step. destruct (Qltb _ _).
    + unfold target_timestamp, time_sleep, time_now.
      safe_step. safe_step.
      eapply safe_bind; [now apply safe_poll_all|].
      intros st' Hc'. safe_step.
      destruct (Nat.eqb _ _); [safe_step|now apply IH].
    + apply (safe_bind _ anything); [now apply safe_kill_all|intros _ _].
      safe_step.
Qed.

End Plan.

(** The first loop of the executor makes a context for each driver. *)
Lemma safe_start_all items :
  Forall (fun x => is_supervised (fst x)) items ->
  forall done_items st,
    covers done_items (contexts st) ->
    safe deliberate (fun sd => covers (done_items ++ items) (contexts sd))
      (start_all E items st).
Proof.
  induction 1 as [|[i images] items Hi _ IH]; intros done_items st Hc.
  - simpl. safe_step. now rewrite app_nil_r.
  - rewrite start_all_unfold.
    unfold time_now, get_check_period, flash_start.
    unfold is_supervised in Hi. simpl in Hi.
    destruct (cls i); [contradiction|].
    safe_step. safe_step. safe_step.
    replace (done_items ++ (i, images) :: items)
      with ((done_items ++ [(i, images)]) ++ items) by now rewrite <- app_assoc.
    apply IH. simpl. intros x Hx. apply elem_of_app in Hx as [Hx|Hx].
    + now apply (covers_insert done_items).
    + apply list_elem_of_singleton in Hx as ->. simpl.
      rewrite lookup_insert_eq. eauto.
Qed.

Lemma safe_flash_parallel_do fuel p :
  Forall (fun x => is_supervised (fst x)) p ->
  safe deliberate anything (_flash_parallel_do E fuel p).
Proof.
  intros Hp. unfold _flash_parallel_do.
  eapply safe_bind.
  - apply (safe_start_all p Hp []). intros x Hx. inversion Hx.
  - intros sd Hc. unfold time_now. safe_step.
    now apply safe_supervise.
Qed.

Lemma safe_consoles_each (ev : string -> event) ans console_names :
  safe deliberate anything
    (consoles_each (fun c => call (ev c) (ans c)) console_names).
Proof.
  induction console_names as [|c console_names IH]; simpl.
  - safe_step.
  - safe_step. exact IH.
Qed.

Lemma safe_flash_consoles_disable p :
  safe deliberate anything (_flash_consoles_disable E p).
Proof.
  induction p as [|[i images] p IH]; simpl.
  - safe_step.
  - apply (safe_bind _ anything); [|intros _ _; exact IH].
    apply safe_consoles_each.
Qed.

Lemma safe_flash_consoles_enable p :
  safe deliberate anything (_flash_consoles_enable E p).
Proof.
  induction p as [|[i images] p IH]; simpl.
  - safe_step.
  - apply (safe_bind _ anything); [|intros _ _; exact IH].
    apply safe_consoles_each.
Qed.

Lemma safe_power_sequence sequence :
  safe deliberate anything
    (match sequence with
     | Some (step :: steps) => target_power_sequence E (step :: steps)
     | _ => ret tt
     end).
Proof.
  destruct sequence as [[|step steps]|]; unfold target_power_sequence;
    safe_step.
Qed.

(** [put_flash] gives [_flash_parallel] a plan that is not empty. *)
Lemma safe_flash_parallel fuel p pre post_ :
  p <> [] ->
  Forall (fun x => is_supervised (fst x)) p ->
  safe deliberate anything (_flash_parallel E fuel p pre post_).
Proof.
  intros Hne Hp. unfold _flash_parallel.
  apply (safe_bind _ anything); [apply safe_power_sequence|intros _ _].
  destruct p as [|x p]; [contradiction|]. unfold log_image_names_impl.
  apply safe_try_finally.
  - safe_step.
    apply (safe_bind _ anything);
      [apply safe_flash_consoles_disable|intros _ _].
    now apply safe_flash_parallel_do.
  - safe_step.
    apply (safe_bind _ anything);
      [apply safe_flash_consoles_enable|intros _ _].
    apply safe_power_sequence.
Qed.

Lemma safe_flash_serial fuel serial :
  Forall (fun x => is_supervised (fst x)) serial ->
  safe deliberate anything (flash_serial E fuel serial).
Proof.
  induction 1 as [|[i images] serial Hi _ IH]; simpl.
  - safe_step.
  - apply (safe_bind _ anything); [|intros _ _; exact IH].
    apply safe_flash_parallel; [discriminate|]. now constructor.
Qed.

End Errors.

(** *** The errors of the first loop *)

Section Classify_errors.

Variable E : Env.
Variable user_path : string.
Variable P : exn -> Prop.
Hypothesis passes_on : forall what, P (Raised what).

Lemma safe_translate_allowed allowed img_name :
  (Forall (fun x => String.prefix (fst x) img_name = false) allowed ->
   P (PermissionError img_name)) ->
  safe P anything (translate_allowed allowed img_name).
Proof.
  induction allowed as [|[path tr] allowed IH]; intros H; simpl.
  - apply safe_raise. apply H. constructor.
  - destruct (String.prefix path img_name) eqn:Hp.
    + now apply safe_ret.
    + apply IH. intros Ha. apply H. now constructor.
Qed.

Lemma safe_with_lock {A} lock_file_name (body : M A) :
  safe P anything body -> safe P anything (with_lock E lock_file_name body).
Proof.
  intros H. unfold with_lock. safe_step.
  apply safe_try_finally; [assumption|]. safe_step.
Qed.

Lemma safe_classify images :
  (forall img_type img_name,
      (img_type, img_name) ∈ images -> not_allowed E img_name ->
      P (PermissionError img_name)) ->
  forall serial par,
    safe P anything (classify E user_path images serial par).
Proof.
  induction images as [|[ty name] images IH]; intros H serial par; simpl.
  - now apply safe_ret.
  - unfold self_impl_get_by_name.
    destruct (impl_get_by_name E ty) as [[i t]|what].
    + safe_step.
      apply (safe_bind _ anything).
      { destruct (isabs name) eqn:Habs; simpl.
        - apply safe_translate_allowed. intros Ha.
          apply (H ty name); [constructor|now split].
        - now apply safe_ret. }
      intros file_name _.
      apply (safe_bind _ anything).
      { apply safe_with_lock. safe_step. }
      intros f _.
      destruct (parallel i).
      * apply (safe_bind _ anything).
        { destruct (String.prefix user_path f); safe_step. }
        intros _ _. apply IH. intros a b Hab. apply (H a b). now constructor.
      * apply (safe_bind _ anything).
        { destruct (String.prefix user_path f); safe_step. }
        intros _ _. apply IH. intros a b Hab. apply (H a b). now constructor.
    + apply (safe_bind _ (fun _ => False)); [apply safe_raise, passes_on|].
      intros ? [].
Qed.

End Classify_errors.

(** *** The errors of the executor, whatever the drivers *)

Section After_resolution.

Variable E : Env.
Variable P : exn -> Prop.
Hypothesis passes_on : forall what, P (Raised what).
Hypothesis internal : forall e, is_internal e -> P e.

Ltac flashing_step :=
  match goal with
  | |- safe _ _ (raise _) =>
      apply safe_raise; first [apply internal; exact I|assumption]
  | |- safe _ _ (bind (raise _) _) =>
      apply (safe_bind _ (fun _ => False));
      [apply safe_raise, internal; exact I|intros ? []]
  | |- safe _ _ (match ?x with _ => _ end) => destruct x
  | |- safe _ _ (bind _ _) => apply (safe_bind _ anything); [|intros ? _]
  | _ => safe_step
  | H : _ |- safe _ _ _ => apply H
  end.

Ltac flashing := autounfold with flash_prims; repeat flashing_step.

Lemma flashing_hash_record images : safe P anything (_hash_record E images).
Proof. induction images as [|[t n] images IH]; simpl; flashing. Qed.

Lemma flashing_kill_all items contexts m :
  safe P anything (kill_all E items contexts m).
Proof. induction items as [|[i images] items IH]; simpl; flashing. Qed.

(** What the first loop of the executor leaves in [all_images] and
    [estimated_duration]. *)
Lemma flashing_start_all items :
  forall st,
    safe P (fun sd =>
              all_images sd = all_images st ++ plan_image_types items
              /\ max_estimated_duration sd
                 = deadline_from (max_estimated_duration st) items)
      (start_all E items st).
Proof.
  induction items as [|[i images] items IH]; intros st.
  - simpl. apply safe_ret. now rewrite app_nil_r.
  - rewrite start_all_unfold. autounfold with flash_prims.
    destruct (cls i).
    + repeat flashing_step.
    + safe_step. safe_step. safe_step.
      eapply safe_weaken; [|apply IH]. simpl. intros sd [-> ->].
      split; [now rewrite <- app_assoc|reflexivity].
Qed.

Lemma flashing_verify p i images ctx st :
  safe P anything (verify E p i images ctx st).
Proof.
  pose proof (flashing_hash_record images).
  pose proof (flashing_kill_all p (p_contexts st)).
  unfold verify. flashing.
Qed.

Lemma flashing_poll_all p loop_ts0 items :
  forall st, safe P anything (poll_all E p loop_ts0 items st).
Proof.
  induction items as [|[i images] items IH]; intros st; simpl.
  - flashing.
  - pose proof (flashing_verify p i images). flashing.
Qed.

Lemma flashing_supervise p sd loop_ts0 fuel :
  P (RuntimeError
       (MsgTimedout (all_images sd) (max_estimated_duration sd))) ->
  forall ts st, safe P anything (supervise E fuel p sd loop_ts0 ts st).
Proof.
  intros Ht.
  induction fuel as [|fuel IH]; intros ts st;
    pose proof (flashing_kill_all p (p_contexts st));
    pose proof (flashing_poll_all p loop_ts0 p st).
  - simpl. flashing.
  - rewrite supervise_step. flashing.
Qed.

Lemma flashing_flash_parallel_do fuel p :
  P (RuntimeError (MsgTimedout (plan_image_types p) (deadline p))) ->
  safe P anything (_flash_parallel_do E fuel p).
Proof.
  intros Ht. unfold _flash_parallel_do.
  eapply safe_bind; [apply flashing_start_all|].
  simpl. intros sd [Ha Hd]. unfold time_now. safe_step.
  apply flashing_supervise. now rewrite Ha, Hd.
Qed.

Lemma flashing_consoles_each (ev : string -> event) ans console_names :
  safe P anything (consoles_each (fun c => call (ev c) (ans c)) console_names).
Proof. induction console_names as [|c console_names IH]; simpl; flashing. Qed.

Lemma flashing_consoles_disable p :
  safe P anything (_flash_consoles_disable E p).
Proof.
  induction p as [|[i images] p IH]; simpl.
  - flashing.
  - apply (safe_bind _ anything);
      [apply flashing_consoles_each|intros _ _; exact IH].
Qed.

Lemma flashing_consoles_enable p :
  safe P anything (_flash_consoles_enable E p).
Proof.
  induction p as [|[i images] p IH]; simpl.
  - flashing.
  - apply (safe_bind _ anything);
      [apply flashing_consoles_each|intros _ _; exact IH].
Qed.

Hypothesis timeouts : forall a d, P (RuntimeError (MsgTimedout a d)).

Lemma flashing_flash_parallel fuel p pre post_ :
  safe P anything (_flash_parallel E fuel p pre post_).
Proof.
  pose proof (flashing_consoles_disable p).
  pose proof (flashing_consoles_enable p).
  pose proof (flashing_flash_parallel_do fuel p (timeouts _ _)).
  unfold _flash_parallel. flashing.
Qed.

Lemma flashing_flash_serial fuel serial :
  safe P anything (flash_serial E fuel serial).
Proof.
  induction serial as [|[i images] serial IH]; simpl.
  - flashing.
  - pose proof (flashing_flash_parallel fuel [(i, images)]). flashing.
Qed.

End After_resolution.

(** The [PermissionError] of [put_flash] comes out of its first loop:
    nothing that runs after it raises one. *)
Lemma put_flash_denied_in_first_loop E fuel self images user_path past s
    img_name :
  out (put_flash E fuel self images user_path past s)
  = Err (PermissionError img_name) ->
  out (classify E user_path images [] [] past s)
  = Err (PermissionError img_name)
  /\ emitted (put_flash E fuel self images user_path past s)
     = emitted (classify E user_path images [] [] past s).
Proof.
  unfold put_flash. intros H.
  destruct (out (classify E user_path images [] [] past s))
    as [[serial par]|e|] eqn:Hc.
  - exfalso. rewrite (bind_ok _ _ _ _ _ Hc) in H. cbv zeta in H.
    cbn [out] in H.
    assert (safe not_denial anything
              (target_timestamp ;;;
               flash_serial E fuel serial ;;;
               match par with
               | _ :: _ =>
                   _flash_parallel E fuel par
                     (self_power_sequence_pre self)
                     (self_power_sequence_post self)
               | [] => ret tt
               end ;;;
               ret ([] : list (string * string)))) as Hsafe.
    { assert (forall what, not_denial (Raised what)) as passes_on
        by exact (fun _ => I).
      assert (forall e, is_internal e -> not_denial e) as internal.
      { intros [] He; try exact I. now destruct He. }
      unfold target_timestamp. safe_step.
      apply (safe_bind _ anything);
        [apply flashing_flash_serial; auto; intros; exact I|intros _ _].
      apply (safe_bind _ anything); [|intros _ _; now apply safe_ret].
      destruct par; [now apply safe_ret|].
      apply flashing_flash_parallel; auto; intros; exact I. }
    specialize (Hsafe (past ++ emitted (classify E user_path images [] [] past s))
                  (store (classify E user_path images [] [] past s))).
    rewrite H in Hsafe. exact Hsafe.
  - rewrite (bind_err _ _ _ _ _ Hc) in *. cbn [out emitted] in *.
    injection H as ->. now split.
  - rewrite (bind_fuel _ _ _ _ Hc) in H. discriminate.
Qed.

(** X9.  The [PermissionError] that [put_flash] raises itself (the
    [raise] statement of its first loop, which the model keeps apart
    from whatever comes out of a collaborator, an exception of the
    same class included) is raised only for a file name of the
    request that is absolute and that no prefix of
    [ttbl.store.paths_allowed] covers; the error names that file.
    When it is raised, the request has done nothing but take locks,
    decompress and touch files: no driver, console, power rail or
    metadata key has been touched. *)
Theorem put_flash_permission_error E fuel self images user_path past s img_name :
  out (put_flash E fuel self images user_path past s)
  = Err (PermissionError img_name) ->
  (exists img_type, (img_type, img_name) ∈ images)
  /\ isabs img_name = true
  /\ Forall (fun x => String.prefix (fst x) img_name = false) (paths_allowed E)
  /\ Forall is_resolution
       (emitted (put_flash E fuel self images user_path past s)).
Proof.
  intros H.
  assert (Forall is_resolution
            (emitted (put_flash E fuel self images user_path past s)))
    as Hevents.
  { destruct (put_flash_denied_in_first_loop _ _ _ _ _ _ _ _ H) as [_ ->].
    apply only_classify. }
  assert (safe (permission_denied E images) anything
            (put_flash E fuel self images user_path)) as Hsafe.
  { assert (forall what, permission_denied E images (Raised what)) as passes_on
      by exact (fun _ => I).
    assert (forall e, is_internal e -> permission_denied E images e)
      as internal.
    { intros [] He; try exact I. now destruct He. }
    unfold put_flash.
    apply (safe_bind _ anything).
    - apply safe_classify; [assumption|].
      intros ty n Hin Hn. simpl. split; [now exists ty|assumption].
    - intros [serial par] _. unfold target_timestamp. safe_step.
      apply (safe_bind _ anything);
        [apply flashing_flash_serial; auto; intros; exact I|intros _ _].
      apply (safe_bind _ anything); [|intros _ _; now apply safe_ret].
      destruct par; [now apply safe_ret|].
      apply flashing_flash_parallel; auto; intros; exact I. }
  specialize (Hsafe past s). rewrite H in Hsafe.
  destruct Hsafe as [H1 [H2 H3]]. auto.
Qed.

(** X15.  When the executor times out, its message lists the image
    types of all the drivers of the plan, in the order of the plan,
    and gives as the time waited the largest [estimated_duration] of
    the plan (0 when there is none above 0). *)
Theorem flash_parallel_do_timeout_message E fuel p past s all_images_ seconds :
  out (_flash_parallel_do E fuel p past s)
  = Err (RuntimeError (MsgTimedout all_images_ seconds)) ->
  all_images_ = plan_image_types p /\ seconds = deadline p.
Proof.
  intros H.
  pose proof (flashing_flash_parallel_do E
                (fun e => match e with
                          | RuntimeError (MsgTimedout a d) =>
                              a = plan_image_types p /\ d = deadline p
                          | _ => True
                          end)) as Hsafe.
  specialize (Hsafe (fun _ => I)).
  assert (forall e, is_internal e ->
                    match e with
                    | RuntimeError (MsgTimedout a d) =>
                        a = plan_image_types p /\ d = deadline p
                    | _ => True
                    end) as Hint.
  { intros [[]| | | | |] He; try exact I. destruct He. }
  specialize (Hsafe Hint fuel p (conj eq_refl eq_refl) past s).
  now rewrite H in Hsafe.
Qed.

(** X10.  When every driver of the registry is of class [impl2_c], a
    request raises nothing but the errors the code raises on purpose
    ([RuntimeError] of the executor, [PermissionError]) and what its
    collaborators raise: no [AttributeError], no [KeyError] from the
    table of contexts, no [UnboundLocalError] from the log lines of
    [_flash_parallel]. *)
Theorem put_flash_deliberate_errors E fuel self images user_path past s e :
  (forall img_type i image_type,
      impl_get_by_name E img_type = Returns (i, image_type) ->
      is_supervised i) ->
  out (put_flash E fuel self images user_path past s) = Err e ->
  deliberate e.
Proof.
  intros Hreg. revert past s e.
  change (throws deliberate (put_flash E fuel self images user_path)).
  apply (safe_throws _ anything). unfold put_flash.
  assert (forall what, deliberate (Raised what)) as passes_on
    by exact (fun _ => I).
  eapply safe_bind.
  - apply safe_intro.
    + apply (safe_throws _ anything). apply safe_classify; [assumption|].
      intros; exact I.
    + apply classify_registered.
  - intros [serial par] [Hs Hp]. simpl in Hs, Hp.
    assert (forall b : plan,
               Forall (fun x => registered E (fst x)) b ->
               Forall (fun x => is_supervised (fst x)) b) as Hsup.
    { intros b Hb. eapply Forall_impl; [exact Hb|].
      intros [i d] (ty & t & Hr). now apply Hreg in Hr. }
    unfold target_timestamp. safe_step.
    apply (safe_bind _ anything); [apply safe_flash_serial; auto|intros _ _].
    apply (safe_bind _ anything); [|intros _ _; now apply safe_ret].
    destruct par as [|x par]; [now apply safe_ret|].
    apply safe_flash_parallel; auto.
Qed.

(** The second entry of the request is denied, after the file of the
    first was locked, decompressed and touched. *)
Lemma put_flash_permission_error_witness :
  let e := Lab.env Lab.always_passes Lab.finished Lab.starts (fun _ => false)
             (Bench.aliased (Lab.shell 1 2 0)) in
  let request := [("rom-aka", "fw.bin"); ("rom", "/etc/shadow")] in
  (exists img_type, (img_type, "/etc/shadow") ∈ request)
  /\ isabs "/etc/shadow" = true
  /\ Forall (fun x => String.prefix (fst x) "/etc/shadow" = false)
       (paths_allowed e)
  /\ Forall is_resolution
       (emitted (put_flash e 10 Lab.itf request "/home/u" [] ∅)).
Proof.
  intros e request.
  apply (put_flash_permission_error e 10%nat Lab.itf request "/home/u" [] ∅).
  reflexivity.
Defined.

(** A flasher that never finishes is given up after 60 seconds. *)
Lemma flash_parallel_do_timeout_message_witness :
  let p := [(Lab.shell 1 2 0, [("rom", "fw.bin")])] in
  ["rom"] = plan_image_types p /\ 60 = deadline p.
Proof.
  apply (flash_parallel_do_timeout_message
           (Lab.env Lab.always_passes Bench.never_finished Lab.starts
              (fun _ => false) (Lab.registry_of (Lab.shell 1 2 0)))
           40%nat [(Lab.shell 1 2 0, [("rom", "fw.bin")])] [] ∅).
  vm_compute. reflexivity.
Defined.

Lemma put_flash_deliberate_errors_witness :
  deliberate (Raised "unknown image type").
Proof.
  apply (put_flash_deliberate_errors
           (Lab.env Lab.always_passes Lab.finished Lab.starts (fun _ => false)
              (Lab.registry_of (Lab.shell 1 2 0)))
           10%nat Lab.itf [("bios", "fw.bin")] "/home/u" [] ∅).
  - intros ty i t. simpl. unfold Lab.registry_of.
    destruct (String.eqb ty "rom"); [|discriminate].
    intros H. injection H as <- _. exact I.
  - reflexivity.
Defined.

(** ** The supervision loop ends *)

Section Deadline.

Variable E : Env.

Lemma deadline_from_start_all items :
  forall st past s sd,
    out (start_all E items st past s) = Ok sd ->
    max_estimated_duration sd = deadline_from (max_estimated_duration st) items.
Proof.
  induction items as [|[i images] items IH]; intros st past s sd H.
  - simpl in H. now injection H as <-.
  - rewrite start_all_cons in H.
    apply bind_ok_inv in H as (now_ & _ & H).
    apply bind_ok_inv in H as (cp & _ & H).
    apply bind_ok_inv in H as (u & _ & H).
    apply IH in H. exact H.
Qed.

Lemma deadline_from_ge d p : d <= deadline_from d p.
Proof.
  revert d. induction p as [|x p IH]; intros d; simpl; [lia|].
  unfold deadline_from in *. simpl.
  specialize (IH (Z.max (estimated_duration (fst x)) d)). lia.
Qed.

Lemma deadline_from_le d p :
  d <= 0 -> Forall (fun x => estimated_duration (fst x) <= 0) p ->
  deadline_from d p <= 0.
Proof.
  intros Hd H. revert d Hd. induction H as [|x p Hx _ IH]; intros d Hd.
  - exact Hd.
  - unfold deadline_from in *. simpl. apply IH. lia.
Qed.

Lemma lowest_above c bound l :
  (c < bound)%Q -> Forall (fun x => (c < x)%Q) l -> (c < lowest bound l)%Q.
Proof.
  intros Hb. induction 1 as [|x l Hx _ IH]; simpl; [assumption|].
  apply Q.min_glb_lt; assumption.
Qed.

(** With no time left at all, the loop is not entered, whatever the
    bound on its iterations. *)
Lemma supervise_no_time fuel p sd ts st :
  max_estimated_duration sd <= 0 ->
  supervise E fuel p sd ts ts st
  = (kill_all E p (p_contexts st)
       (MsgTimedout (all_images sd) (max_estimated_duration sd)) ;;;
     raise (RuntimeError
              (MsgTimedout (all_images sd) (max_estimated_duration sd)))).
Proof.
  intros H.
  assert (Qltb (ts - ts) (inject_Z (max_estimated_duration sd)) = false) as Hq.
  { apply Qltb_false. apply Qle_trans with 0%Q.
    - change 0%Q with (inject_Z 0). now rewrite <- Zle_Qle.
    - lra. }
  destruct fuel; simpl; now rewrite Hq.
Qed.

(** X14.  A plan whose drivers all have an [estimated_duration] of 0
    (or less), which the constructor accepts, cannot be flashed: the
    executor starts the drivers, reads the clock and, without polling
    any of them, kills them and raises its time-out (unless a driver
    raised first); this takes no iteration of the loop. *)
Theorem flash_parallel_do_no_time fuel p past s :
  Forall (fun x => estimated_duration (fst x) <= 0) p ->
  (forall u, out (_flash_parallel_do E fuel p past s) <> Ok u)
  /\ out (_flash_parallel_do E fuel p past s) <> Fuel
  /\ Forall (fun e => is_first_start e \/ is_kill e)
       (emitted (_flash_parallel_do E fuel p past s)).
Proof.
  intros Hp. unfold _flash_parallel_do.
  set (st0 := {| contexts := ∅; max_estimated_duration := 0;
                 min_check_period := 4; all_images := [] |}).
  assert (Forall (fun e => is_first_start e \/ is_kill e)
            (emitted (start_all E p st0 past s))) as Hstart.
  { apply only_start_all. now left. }
  destruct (out (start_all E p st0 past s)) as [sd| |] eqn:Hs.
  - rewrite (bind_ok _ _ _ _ _ Hs). cbv zeta. cbn [out emitted store].
    unfold time_now. rewrite bind_ask.
    cbn [out emitted store].
    rewrite supervise_no_time.
    2:{ rewrite (deadline_from_start_all _ _ _ _ _ Hs). simpl.
        now apply deadline_from_le. }
    set (K := kill_all E p _ _).
    set (h := (past ++ emitted (start_all E p st0 past s)) ++ [EvTime]).
    assert (out (K h (store (start_all E p st0 past s))) <> Fuel) as Hends
      by apply ends_kill_all.
    assert (Forall (fun e => is_first_start e \/ is_kill e)
              (emitted (K h (store (start_all E p st0 past s))))) as Hkills.
    { apply only_kill_all. intros e H. now right. }
    unfold bind. cbv zeta.
    destruct (out (K h _)) as [[]| |]; cbn [out emitted store].
    + repeat split; try discriminate.
      apply Forall_app; split; [assumption|]. constructor; [now left|].
      now rewrite app_nil_r.
    + repeat split; try discriminate.
      apply Forall_app; split; [assumption|].
      constructor; [now left|assumption].
    + now destruct Hends.
  - rewrite (bind_err _ _ _ _ _ Hs). cbn [out emitted].
    repeat split; try discriminate. assumption.
  - now apply ends_start_all in Hs.
Qed.

Hypothesis clock : clock_advances E.

Lemma clock_monotone h l : (time_time E h <= time_time E (h ++ l))%Q.
Proof.
  revert h. induction l as [|e l IH]; intros h.
  - rewrite app_nil_r. apply Qle_refl.
  - replace (h ++ e :: l) with ((h ++ [e]) ++ l) by now rewrite <- app_assoc.
    eapply Qle_trans; [apply (proj1 clock h e)|apply IH].
Qed.

(** Each iteration of the loop takes the time it sleeps at least, so
    that the time left shrinks. *)
Lemma supervise_ends p sd loop_ts0 :
  (0 < min_check_period sd)%Q ->
  forall fuel ts st past s,
    (ts <= time_time E past)%Q ->
    (inject_Z (max_estimated_duration sd) - (ts - loop_ts0)
     < inject_Z (Z.of_nat fuel) * min_check_period sd)%Q ->
    out (supervise E fuel p sd loop_ts0 ts st past s) <> Fuel.
Proof.
  intros Hd. induction fuel as [|fuel IH]; intros ts st past s Hts Hbudget.
  - simpl. rewrite Qltb_false.
    + apply ends_bind; [apply ends_kill_all|intros ?; apply ends_raise].
    + change (inject_Z (Z.of_nat 0)) with 0%Q in Hbudget. lra.
  - rewrite supervise_step.
    destruct (Qltb (ts - loop_ts0) (inject_Z (max_estimated_duration sd)));
      [|apply ends_bind; [apply ends_kill_all|intros ?; apply ends_raise]].
    unfold target_timestamp. rewrite out_bind_call by reflexivity.
    unfold time_sleep. rewrite out_bind_call by reflexivity.
    set (h := (past ++ [EvTimestamp]) ++ [EvSleep (min_check_period sd)]).
    destruct (out (poll_all E p loop_ts0 p st h s)) as [st'| |] eqn:Hp.
    + rewrite (out_bind_ok _ _ _ _ _ Hp).
      unfold time_now.
      rewrite (out_bind_ask _ _ _ _ _ (time_time E _)) by reflexivity.
      destruct (Nat.eqb _ _); [discriminate|].
      set (h' := h ++ emitted (poll_all E p loop_ts0 p st h s)).
      assert (time_time E past + min_check_period sd <= time_time E h')%Q
        as Hh'.
      { eapply Qle_trans; [|apply clock_monotone].
        eapply Qle_trans; [|apply (proj2 clock)].
        apply Qplus_le_l. apply (proj1 clock). }
      apply IH.
      * apply (proj1 clock).
      * rewrite Nat2Z.inj_succ in Hbudget. unfold Z.succ in Hbudget.
        rewrite inject_Z_plus in Hbudget.
        change (inject_Z 1) with 1%Q in Hbudget.
        lra.
    + rewrite (out_bind_err _ _ _ _ _ Hp). discriminate.
    + now apply ends_poll_all in Hp.
Qed.

Lemma ends_flash_parallel_do fuel p :
  Forall (fun check_period => (1 # 2 < check_period)%Q) (check_periods p) ->
  2 * deadline p < Z.of_nat fuel ->
  ends (_flash_parallel_do E fuel p).
Proof.
  intros Hcp Hfuel past s. unfold _flash_parallel_do.
  set (st0 := {| contexts := ∅; max_estimated_duration := 0;
                 min_check_period := 4; all_images := [] |}).
  destruct (out (start_all E p st0 past s)) as [sd| |] eqn:Hs.
  - rewrite (out_bind_ok _ _ _ _ _ Hs).
    unfold time_now.
    rewrite (out_bind_ask _ _ _ _ _ (time_time E _)) by reflexivity.
    pose proof (deadline_from_start_all _ _ _ _ _ Hs) as Hd. simpl in Hd.
    fold (deadline p) in Hd.
    pose proof (start_all_min_check_period E _ _ _ _ _ Hs) as Hm. simpl in Hm.
    assert (1 # 2 < min_check_period sd)%Q as Hhalf.
    { rewrite Hm. apply lowest_above; [reflexivity|assumption]. }
    apply supervise_ends.
    + lra.
    + apply (proj1 clock).
    + rewrite Hd.
      pose proof (deadline_from_ge 0 p) as Hge. fold (deadline p) in Hge.
      assert (inject_Z 2 * inject_Z (deadline p)
              < inject_Z (Z.of_nat fuel))%Q as Hq.
      { rewrite <- inject_Z_mult. now rewrite <- Zlt_Qlt. }
      assert (0 <= inject_Z (deadline p))%Q as Hq0.
      { change 0%Q with (inject_Z 0). now rewrite <- Zle_Qle. }
      change (inject_Z 2) with 2%Q in Hq.
      nra.
  - rewrite (out_bind_err _ _ _ _ _ Hs). discriminate.
  - now apply ends_start_all in Hs.
Qed.

(** X12.  The supervision loop of the executor ends.  When the clock
    does not go back and a sleep lasts at least what was asked for,
    and the drivers have the [check_period] above half a second that
    the constructor of [impl2_c] demands, the loop makes at most twice
    as many iterations as the largest [estimated_duration] of the plan
    has seconds, and one more: the executor returns or raises within
    any bound on the iterations above that. *)
Theorem flash_parallel_do_terminates fuel p past s :
  Forall (fun check_period => (1 # 2 < check_period)%Q) (check_periods p) ->
  2 * deadline p < Z.of_nat fuel ->
  (exists u, out (_flash_parallel_do E fuel p past s) = Ok u)
  \/ (exists e, out (_flash_parallel_do E fuel p past s) = Err e).
Proof.
  intros Hcp Hfuel.
  pose proof (ends_flash_parallel_do fuel p Hcp Hfuel past s) as H.
  destruct (out (_flash_parallel_do E fuel p past s)) as [u|e|].
  - left. now exists u.
  - right. now exists e.
  - now destruct H.
Qed.

(** *** A request ends *)

Variable longest : Z.
Hypothesis registry_durations :
  forall img_type i image_type,
    impl_get_by_name E img_type = Returns (i, image_type) ->
    estimated_duration i <= longest.
Hypothesis registry_check_periods :
  forall img_type i image_type check_period retries,
    impl_get_by_name E img_type = Returns (i, image_type) ->
    cls i = impl2_c check_period retries ->
    (1 # 2 < check_period)%Q.

Lemma deadline_from_bound d p :
  d <= longest -> Forall (fun x => registered E (fst x)) p ->
  deadline_from d p <= longest.
Proof.
  intros Hd H. revert d Hd. induction H as [|x p Hx _ IH]; intros d Hd.
  - exact Hd.
  - unfold deadline_from in *. simpl. apply IH.
    destruct Hx as (ty & t & Hx). apply registry_durations in Hx. lia.
Qed.

Lemma check_periods_bound p :
  Forall (fun x => registered E (fst x)) p ->
  Forall (fun check_period => (1 # 2 < check_period)%Q) (check_periods p).
Proof.
  induction 1 as [|[i d] p Hx _ IH]; [constructor|].
  unfold check_periods. simpl. destruct (cls i) as [|cp r] eqn:Hc; [exact IH|].
  constructor; [|exact IH]. destruct Hx as (ty & t & Hx).
  eapply registry_check_periods; eauto.
Qed.

Lemma ends_flash_parallel_registered fuel p pre post_ :
  0 <= longest -> 2 * longest < Z.of_nat fuel ->
  Forall (fun x => registered E (fst x)) p ->
  ends (_flash_parallel E fuel p pre post_).
Proof.
  intros H0 Hfuel Hp. apply ends_flash_parallel.
  apply ends_flash_parallel_do.
  - now apply check_periods_bound.
  - pose proof (deadline_from_bound 0 p H0 Hp). unfold deadline. lia.
Qed.

(** X13.  A request ends.  When the clock does not go back and a sleep
    lasts at least what was asked for, the drivers of the registry
    have an [estimated_duration] of [longest] seconds at most and the
    [check_period] above half a second that the constructor demands,
    [put_flash] returns or raises: none of its supervision loops
    makes more than [2 * longest + 1] iterations. *)
Theorem put_flash_terminates fuel self images user_path past s :
  0 <= longest -> 2 * longest < Z.of_nat fuel ->
  (exists result, out (put_flash E fuel self images user_path past s) = Ok result)
  \/ (exists e, out (put_flash E fuel self images user_path past s) = Err e).
Proof.
  intros H0 Hfuel.
  assert (ends (put_flash E fuel self images user_path)) as Hends.
  { unfold put_flash.
    apply (ends_bind_with
             (fun b => Forall (fun x => registered E (fst x)) (fst b)
                       /\ Forall (fun x => registered E (fst x)) (snd b))).
    - apply ends_classify.
    - apply classify_registered.
    - intros [serial par] [Hs Hp]. simpl in Hs, Hp.
      unfold target_timestamp. ends_step; [ends_step|].
      ends_step.
      + clear -Hs H0 Hfuel clock registry_durations registry_check_periods.
        induction Hs as [|[i d] serial Hi _ IH]; simpl; [apply ends_ret|].
        ends_step; [|exact IH].
        apply ends_flash_parallel_registered; auto.
      + ends_step; [|apply ends_ret].
        destruct par as [|x par]; [apply ends_ret|].
        now apply ends_flash_parallel_registered. }
  specialize (Hends past s).
  destruct (out (put_flash E fuel self images user_path past s)) as [r|e|].
  - left. now exists r.
  - right. now exists e.
  - now destruct Hends.
Qed.

End Deadline.

(** The clock of the bench advances. *)
Lemma steady_clock_app h l :
  (Bench.steady_clock (h ++ l)
   == Bench.steady_clock h + Bench.steady_clock l)%Q.
Proof.
  induction h as [|e h IH]; simpl.
  - lra.
  - destruct e; try exact IH. rewrite IH. lra.
Qed.

Lemma steady_clock_advances e :
  clock_advances (Lab.with_clock Bench.steady_clock e).
Proof.
  split; simpl.
  - intros h ev. rewrite steady_clock_app.
    assert (0 <= Bench.steady_clock [ev])%Q; [|lra].
    destruct ev; simpl; try lra.
    pose proof (Q.le_max_r seconds 0). lra.
  - intros h d. rewrite steady_clock_app. simpl.
    pose proof (Q.le_max_l d 0). lra.
Qed.

Lemma flash_parallel_do_no_time_witness :
  let e := Lab.env Lab.always_passes Lab.finished Lab.starts (fun _ => false)
             (Lab.registry_of Bench.hasty) in
  let r := _flash_parallel_do e 10 [(Bench.hasty, [("rom", "fw.bin")])] [] ∅ in
  (forall u, out r <> Ok u)
  /\ out r <> Fuel
  /\ Forall (fun e => is_first_start e \/ is_kill e) (emitted r).
Proof.
  apply (flash_parallel_do_no_time
           (Lab.env Lab.always_passes Lab.finished Lab.starts (fun _ => false)
              (Lab.registry_of Bench.hasty))
           10%nat [(Bench.hasty, [("rom", "fw.bin")])] [] ∅).
  repeat constructor. simpl. lia.
Defined.

(** A flasher that never finishes, supervised for 60 seconds with a
    bound of 121 iterations. *)
Lemma flash_parallel_do_terminates_witness :
  let e := Lab.with_clock Bench.steady_clock
             (Lab.env Lab.always_passes Bench.never_finished Lab.starts
                (fun _ => false) (Lab.registry_of (Lab.shell 1 2 0))) in
  let r := _flash_parallel_do e 121 [(Lab.shell 1 2 0, [("rom", "fw.bin")])]
             [] ∅ in
  (exists u, out r = Ok u) \/ (exists x, out r = Err x).
Proof.
  apply (flash_parallel_do_terminates
           (Lab.with_clock Bench.steady_clock
              (Lab.env Lab.always_passes Bench.never_finished Lab.starts
                 (fun _ => false) (Lab.registry_of (Lab.shell 1 2 0))))
           (steady_clock_advances _)
           121%nat [(Lab.shell 1 2 0, [("rom", "fw.bin")])] [] ∅).
  - repeat constructor.
  - vm_compute. reflexivity.
Defined.

Lemma put_flash_terminates_witness :
  let e := Lab.with_clock Bench.steady_clock
             (Lab.env Lab.always_passes Bench.never_finished Lab.starts
                (fun _ => false) (Lab.registry_of (Lab.shell 1 2 0))) in
  let r := put_flash e 121 Lab.itf [("rom", "fw.bin")] "/home/u" [] ∅ in
  (exists result, out r = Ok result) \/ (exists x, out r = Err x).
Proof.
  apply (put_flash_terminates
           (Lab.with_clock Bench.steady_clock
              (Lab.env Lab.always_passes Bench.never_finished Lab.starts
                 (fun _ => false) (Lab.registry_of (Lab.shell 1 2 0))))
           (steady_clock_advances _) 60).
  - intros ty i t. simpl. unfold Lab.registry_of.
    destruct (String.eqb ty "rom"); [|discriminate].
    intros H. injection H as <- _. simpl. lia.
  - intros ty i t cp r. simpl. unfold Lab.registry_of.
    destruct (String.eqb ty "rom"); [|discriminate].
    intros H. injection H as <- _. simpl. intros H. injection H as <- _.
    reflexivity.
  - lia.
  - lia.
Defined.

(** ** The [finally] clause of [_flash_parallel] *)

Section Finally.

Variable E : Env.

Lemma only_try_body fuel p :
  only is_try_body
    (log_image_names_impl p ;;;
     _flash_consoles_disable E p ;;; _flash_parallel_do E fuel p).
Proof.
  apply only_bind;
    [destruct p; unfold log_image_names_impl; only_step|intros _].
  apply only_bind.
  - clear. induction p as [|[i d] p IH]; simpl; [apply only_ret|].
    apply only_bind; [|intros _; exact IH].
    induction (consoles_disable i) as [|c l IHl]; simpl; [apply only_ret|].
    apply only_bind; [apply only_call; exact I|intros _; exact IHl].
  - intros _. apply only_flashing_flash_parallel_do;
      intros e He; destruct e; simpl in *; tauto.
Qed.

(** What enabling the consoles does: all of them in order, or up to
    the first whose [console.put_enable] raises. *)
Lemma consoles_each_enable_events names :
  forall past s,
    let r := consoles_each (target_console_put_enable E) names past s in
    (out r = Ok tt /\ emitted r = map EvConsoleEnable names)
    \/ exists what,
         out r = Err (Raised what)
         /\ enabled_until E names past (emitted r) what.
Proof.
  induction names as [|c names IH]; intros past s; cbv zeta.
  - left. now split.
  - simpl.
    pose proof (bind_call (EvConsoleEnable c) (console_put_enable E c)
                  (fun _ => consoles_each (target_console_put_enable E) names)
                  past s) as Hrun.
    fold (target_console_put_enable E c) in Hrun. rewrite Hrun. clear Hrun.
    destruct (console_put_enable E c past) as [what|] eqn:Hc;
      cbn [out emitted]; cbv beta.
    + right. exists what. split; [reflexivity|].
      exists [], c, names. simpl. rewrite app_nil_r. now repeat split.
    + destruct (IH (past ++ [EvConsoleEnable c]) s)
        as [[Ho He]|(what & Ho & enabled & c' & rest & Hn & He & Hw)].
      * left. split; [assumption|]. simpl. f_equal. exact He.
      * right. exists what. split; [assumption|].
        exists (c :: enabled), c', rest. subst names.
        split; [reflexivity|]. split; [simpl; f_equal; exact He|].
        rewrite <- Hw. f_equal. simpl. now rewrite <- app_assoc.
Qed.

Lemma flash_consoles_enable_events p :
  forall past s,
    let r := _flash_consoles_enable E p past s in
    (out r = Ok tt /\ emitted r = map EvConsoleEnable (consoles_of p))
    \/ exists what,
         out r = Err (Raised what)
         /\ enabled_until E (consoles_of p) past (emitted r) what.
Proof.
  induction p as [|[i d] p IH]; intros past s; cbv zeta.
  - left. now split.
  - simpl. unfold consoles_of. simpl. fold (consoles_of p).
    unfold bind. cbv zeta.
    destruct (consoles_each_enable_events (consoles_disable i) past s)
      as [[Ho He]|(what & Ho & enabled & c & rest & Hn & He & Hw)];
      cbv zeta in *; rewrite Ho; cbn [out emitted].
    + rewrite He.
      destruct (IH (past ++ map EvConsoleEnable (consoles_disable i))
                  (store (consoles_each (target_console_put_enable E)
                            (consoles_disable i) past s)))
        as [[Ho' He']|(what & Ho' & enabled & c & rest & Hn & He' & Hw)].
      * left. split; [assumption|]. now rewrite He', map_app.
      * right. exists what. split; [assumption|].
        exists (consoles_disable i ++ enabled), c, rest.
        rewrite Hn, He'. repeat split.
        -- now rewrite <- app_assoc.
        -- now rewrite !map_app, app_assoc.
        -- rewrite <- Hw. f_equal. now rewrite map_app, app_assoc.
    + right. exists what. split; [reflexivity|].
      exists enabled, c, (rest ++ consoles_of p). rewrite He, Hn.
      repeat split; [now rewrite <- app_assoc|assumption].
Qed.

(** X11.  The [finally] clause of [_flash_parallel] always runs: when
    the pre power sequence has returned, every run that ends, with a
    result or with an exception of the consoles, of a driver or of the
    executor, ends with the enabling of the consoles of the drivers of
    the plan, in the order of the plan (those that were not disabled
    too), and no console is enabled before that.  When each
    [console.put_enable] returns, all the consoles are enabled and the
    post power sequence is run.  When one raises, the consoles after
    it are left disabled, the post power sequence is not run, and
    that exception is what [_flash_parallel] raises, whatever the
    [try] statement had raised. *)
Theorem flash_parallel_enables_consoles fuel p pre post_ past s :
  p <> [] ->
  (forall sequence h,
      pre = Some sequence -> power_sequence_run E sequence h = None) ->
  out (_flash_parallel E fuel p pre post_ past s) <> Fuel ->
  exists body,
    Forall is_try_body body
    /\ (emitted (_flash_parallel E fuel p pre post_ past s)
        = power_events pre ++ body
          ++ map EvConsoleEnable (consoles_of p) ++ power_events post_
        \/ exists enables what,
             emitted (_flash_parallel E fuel p pre post_ past s)
             = power_events pre ++ body ++ enables
             /\ enabled_until E (consoles_of p)
                  (past ++ power_events pre ++ body) enables what
             /\ out (_flash_parallel E fuel p pre post_ past s)
                = Err (Raised what)).
Proof.
  intros Hp Hpre. unfold _flash_parallel.
  set (PRE := match pre with
              | Some (step0 :: steps0) =>
                  target_power_sequence E (step0 :: steps0)
              | _ => ret tt
              end).
  set (BODY := (log_image_names_impl p ;;;
                _flash_consoles_disable E p ;;; _flash_parallel_do E fuel p)).
  set (POST := match post_ with
               | Some (step :: steps) =>
                   target_power_sequence E (step :: steps)
               | _ => ret tt
               end).
  set (HANDLER := (log_image_names_impl p ;;;
                   _flash_consoles_enable E p ;;; POST)).
  assert (out (PRE past s) = Ok tt /\ emitted (PRE past s) = power_events pre)
    as [Hpo Hpe].
  { unfold PRE. destruct pre as [[|step0 steps0]|]; try (split; reflexivity).
    unfold target_power_sequence, call. now rewrite Hpre. }
  pose proof (only_try_body fuel p (past ++ emitted (PRE past s))
                (store (PRE past s))) as Hbody.
  fold BODY in Hbody.
  rewrite (bind_ok _ _ _ _ tt Hpo). cbv zeta. cbn [emitted out store].
  rewrite Hpe in *. unfold try_finally. cbv zeta.
  set (b := BODY (past ++ power_events pre) (store (PRE past s))) in *.
  assert (forall s',
             (emitted (HANDLER (past ++ power_events pre ++ emitted b) s')
              = map EvConsoleEnable (consoles_of p) ++ power_events post_)
             \/ exists what,
                  out (HANDLER (past ++ power_events pre ++ emitted b) s')
                  = Err (Raised what)
                  /\ enabled_until E (consoles_of p)
                       (past ++ power_events pre ++ emitted b)
                       (emitted (HANDLER (past ++ power_events pre
                                            ++ emitted b) s')) what)
    as Hh.
  { intros s'. unfold HANDLER. destruct p as [|x p']; [contradiction|].
    change (log_image_names_impl (x :: p')) with (@ret unit tt).
    rewrite bind_ret. unfold bind. cbv zeta.
    destruct (flash_consoles_enable_events (x :: p')
                (past ++ power_events pre ++ emitted b) s')
      as [[Ho He]|(what & Ho & Hu)]; cbv zeta in *; rewrite Ho;
      cbn [out emitted].
    - left. rewrite He. f_equal. unfold POST.
      destruct post_ as [[|step steps]|]; try reflexivity.
      unfold target_power_sequence, call.
      now destruct (power_sequence_run E _ _).
    - right. exists what. now split. }
  rewrite <- app_assoc.
  specialize (Hh (store b)).
  destruct (out b) as [[]|e'|] eqn:Hb; cbn [out emitted].
  - intros _. exists (emitted b). split; [assumption|].
    destruct Hh as [Hh|(what & Ho & Hu)].
    + left. destruct (out (HANDLER _ _)); cbn [emitted]; now rewrite Hh.
    + right. exists (emitted (HANDLER (past ++ power_events pre ++ emitted b)
                                (store b))), what.
      rewrite Ho. cbn [emitted out]. now repeat split.
  - intros _. exists (emitted b). split; [assumption|].
    destruct Hh as [Hh|(what & Ho & Hu)].
    + left. destruct (out (HANDLER _ _)); cbn [emitted]; now rewrite Hh.
    + right. exists (emitted (HANDLER (past ++ power_events pre ++ emitted b)
                                (store b))), what.
      rewrite Ho. cbn [emitted out]. now repeat split.
  - intros H. now destruct H.
Qed.

End Finally.

(** ** The images of a request that returned *)

Section Records.

Variable E : Env.

Lemma flash_parallel_ok_recorded fuel p pre post_ past s :
  NoDup (ids p) ->
  out (_flash_parallel E fuel p pre post_ past s) = Ok tt ->
  forall i d, (i, d) ∈ p ->
              recorded d (emitted (_flash_parallel E fuel p pre post_ past s)).
Proof.
  intros Hp H i d Hin. unfold _flash_parallel in *.
  apply bind_ok_full in H as ([] & Hpre & H & ->).
  apply try_finally_ok_full in H as (Hbody & Hh & ->).
  apply flash_parallel_body_ok in Hbody
    as (starts & polls & -> & _ & _ & _ & Hrec); [|assumption].
  apply recorded_app_r, recorded_app_l, recorded_app_r, recorded_app_r.
  now apply (Hrec i d).
Qed.

Lemma flash_serial_ok_recorded fuel serial :
  forall past s,
    out (flash_serial E fuel serial past s) = Ok tt ->
    forall i d, (i, d) ∈ serial ->
                recorded d (emitted (flash_serial E fuel serial past s)).
Proof.
  induction serial as [|[j dj] serial IH]; intros past s H i d Hin.
  - inversion Hin.
  - simpl in *. apply bind_ok_full in H as ([] & H1 & H2 & ->).
    apply elem_of_cons in Hin as [Hin|Hin].
    + injection Hin as -> ->. apply recorded_app_l.
      apply (flash_parallel_ok_recorded fuel [(j, dj)]) with (i := j); auto.
      * apply NoDup_singleton.
      * constructor.
    + apply recorded_app_r. now apply IH with (i := i).
Qed.

(** X16.  When a request returns, the first loop of [put_flash] has
    returned its two buckets, and the two metadata keys of every image
    of every driver of both buckets have been written: nothing that
    was to be flashed is left out of the records. *)
Theorem put_flash_records_all fuel self images user_path past s result :
  out (put_flash E fuel self images user_path past s) = Ok result ->
  exists serial par,
    out (classify E user_path images [] [] past s) = Ok (serial, par)
    /\ forall i d,
         (i, d) ∈ serial ++ par ->
         recorded d (emitted (put_flash E fuel self images user_path past s)).
Proof.
  intros H. unfold put_flash in *.
  apply bind_ok_full in H as ([serial par] & Hc & H & ->).
  exists serial, par. split; [assumption|].
  apply bind_ok_full in H as ([] & _ & H & ->).
  apply bind_ok_full in H as ([] & Hs & H & ->).
  apply bind_ok_full in H as ([] & Hp & _ & ->).
  intros i d Hin. apply recorded_app_r, recorded_app_r.
  apply elem_of_app in Hin as [Hin|Hin].
  - apply recorded_app_l. now apply flash_serial_ok_recorded with (i := i).
  - apply recorded_app_r, recorded_app_l.
    destruct par as [|x par]; [inversion Hin|].
    apply flash_parallel_ok_recorded with (i := i); auto.
    apply (classify_keeps_keys E user_path images [] []) in Hc;
      [apply Hc|split; constructor..].
Qed.

End Records.

(** The verification of the driver fails: the console is enabled again
    after the driver was killed, and the target is powered on. *)
Lemma flash_parallel_enables_consoles_witness :
  let e := Lab.env Lab.always_fails Lab.finished Lab.starts (fun _ => false)
             (Lab.registry_of (Lab.shell 1 2 0)) in
  let p := [(Lab.shell 1 2 0, [("rom", "fw.bin")])] in
  let r := _flash_parallel e 10 p (Some Lab.off_full) (Some Lab.on_full) [] ∅ in
  exists body,
    Forall is_try_body body
    /\ (emitted r
        = power_events (Some Lab.off_full) ++ body
          ++ map EvConsoleEnable (consoles_of p)
          ++ power_events (Some Lab.on_full)
        \/ exists enables what,
             emitted r = power_events (Some Lab.off_full) ++ body ++ enables
             /\ enabled_until e (consoles_of p)
                  ([] ++ power_events (Some Lab.off_full) ++ body) enables what
             /\ out r = Err (Raised what)).
Proof.
  apply (flash_parallel_enables_consoles
           (Lab.env Lab.always_fails Lab.finished Lab.starts (fun _ => false)
              (Lab.registry_of (Lab.shell 1 2 0)))
           10%nat
           [(Lab.shell 1 2 0, [("rom", "fw.bin")])]
           (Some Lab.off_full) (Some Lab.on_full) [] ∅).
  - discriminate.
  - reflexivity.
  - vm_compute. discriminate.
Defined.

Lemma put_flash_records_all_witness :
  let e := Lab.env Lab.always_passes Lab.finished Lab.starts (fun _ => false)
             (Lab.registry_of (Lab.shell 1 2 0)) in
  let r := put_flash e 10 Lab.itf [("rom", "fw.bin")] "/home/u" in
  exists serial par,
    out (classify e "/home/u" [("rom", "fw.bin")] [] [] [] ∅) = Ok (serial, par)
    /\ forall i d, (i, d) ∈ serial ++ par -> recorded d (emitted (r [] ∅)).
Proof.
  apply (put_flash_records_all
           (Lab.env Lab.always_passes Lab.finished Lab.starts (fun _ => false)
              (Lab.registry_of (Lab.shell 1 2 0)))
           10%nat Lab.itf [("rom", "fw.bin")] "/home/u" [] ∅ []).
  vm_compute. reflexivity.
Defined.

(** ** When the executor polls a driver, and when it stops *)

Section Polling_guard.

Variable E : Env.
Variable loop_ts0 : Q.

Lemma polled_in_time_app h evs1 evs2 :
  polled_in_time E loop_ts0 h evs1 ->
  polled_in_time E loop_ts0 (h ++ evs1) evs2 ->
  polled_in_time E loop_ts0 h (evs1 ++ evs2).
Proof.
  intros H1 H2 before i images ctx after Heq.
  apply app_eq_split in Heq as [(l & Heq & ->)|(l & -> & Heq)].
  - apply (H1 _ _ _ _ _ Heq).
  - destruct (H2 _ _ _ _ _ Heq) as (b' & cp & r & -> & Hc & Ht).
    exists (evs1 ++ b'), cp, r. repeat split; auto.
    + now rewrite app_assoc.
    + now rewrite app_assoc.
Qed.

Lemma polled_in_time_without h evs :
  Forall (fun e => ~ is_check_done e) evs -> polled_in_time E loop_ts0 h evs.
Proof.
  intros H before i images ctx after ->. apply Forall_app in H as [_ H].
  apply Forall_cons in H as [H _]. now destruct H.
Qed.

Lemma in_time_only_bind {A B} (m : M A) (f : A -> M B) :
  in_time_only E loop_ts0 m -> (forall a, in_time_only E loop_ts0 (f a)) ->
  in_time_only E loop_ts0 (bind m f).
Proof.
  intros Hm Hf past s. unfold bind. cbv zeta.
  destruct (out (m past s)); simpl; auto.
  apply polled_in_time_app; auto. apply Hf.
Qed.

Lemma in_time_only_quiet {A} (m : M A) :
  only (fun e => ~ is_check_done e) m -> in_time_only E loop_ts0 m.
Proof. intros H past s. apply polled_in_time_without, H. Qed.

Ltac not_check_done_step :=
  match goal with
  | |- only _ (call _ _) => apply only_call; intros []
  | |- only _ (ask _ _) => apply only_ask; intros []
  | |- only _ (target_fsdb_set _ _ _) => apply only_fsdb_set; intros []
  | _ => only_step
  end.

Lemma in_time_only_kill_all p contexts m :
  in_time_only E loop_ts0 (kill_all E p contexts m).
Proof.
  apply in_time_only_quiet.
  induction p as [|[i images] p IH]; simpl; autounfold with flash_prims;
    repeat not_check_done_step.
Qed.

Lemma in_time_only_verify p i images ctx st :
  in_time_only E loop_ts0 (verify E p i images ctx st).
Proof.
  assert (only (fun e => ~ is_check_done e) (_hash_record E images)) as Hh.
  { induction images as [|[t n] images IH]; simpl; autounfold with flash_prims;
      repeat not_check_done_step. }
  unfold verify. autounfold with flash_prims.
  repeat first
    [ apply in_time_only_kill_all
    | apply in_time_only_bind; [|intros ?]
    | match goal with
      | |- in_time_only _ _ (match ?x with _ => _ end) => destruct x
      end
    | apply in_time_only_quiet; first [exact Hh|repeat not_check_done_step] ].
Qed.

(** One pass over the drivers: [flash_check_done] is called behind the
    test [ts - ts0 > impl.check_period], on the clock just read. *)
Lemma in_time_only_poll_all p items :
  forall st, in_time_only E loop_ts0 (poll_all E p loop_ts0 items st).
Proof.
  induction items as [|[i images] items IH]; intros st.
  - apply in_time_only_quiet, only_ret.
  - simpl. destruct (decide (impl_id i ∈ done_impls st)); [apply IH|].
    intros past s. unfold contexts_get.
    destruct (p_contexts st !! impl_id i) as [ctx|];
      [|apply polled_in_time_without; constructor].
    rewrite bind_ret. unfold time_now. rewrite bind_ask. cbn [emitted].
    unfold get_check_period.
    destruct (cls i) as [|cp r] eqn:Hcls;
      [apply polled_in_time_without; repeat constructor; intros []|].
    rewrite bind_ret.
    destruct (Qltb cp (time_time E past - loop_ts0)) eqn:Hq.
    + unfold flash_check_done. rewrite Hcls. rewrite bind_ask.
      destruct (drv_flash_check_done E i images ctx (past ++ [EvTime]))
        as [finished|what]; cbn [emitted].
      * apply (polled_in_time_app past [EvTime; EvFlashCheckDone i images ctx]).
        { intros before j images' ctx' after Heq.
          destruct before as [|b0 [|b1 before]]; simplify_eq/=.
          - exists [], cp, r. rewrite app_nil_r. repeat split; auto.
            now apply Qltb_lt.
          - now destruct before. }
        replace (past ++ [EvTime; EvFlashCheckDone i images ctx])
          with ((past ++ [EvTime]) ++ [EvFlashCheckDone i images ctx])
          by now rewrite <- app_assoc.
        destruct finished; [|apply IH].
        apply in_time_only_bind;
          [apply in_time_only_verify|intros st'; apply IH].
      * intros before j images' ctx' after Heq.
        destruct before as [|b0 [|b1 before]]; simplify_eq/=.
        -- exists [], cp, r. rewrite app_nil_r. repeat split; auto.
           now apply Qltb_lt.
        -- now destruct before.
    + apply (polled_in_time_app past [EvTime]).
      * apply polled_in_time_without. repeat constructor. intros [].
      * apply IH.
Qed.

Lemma in_time_only_supervise p sd fuel :
  forall ts st, in_time_only E loop_ts0 (supervise E fuel p sd loop_ts0 ts st).
Proof.
  induction fuel as [|fuel IH]; intros ts st.
  - simpl. destruct (Qltb _ _); [apply in_time_only_quiet, only_out_of_fuel|].
    apply in_time_only_bind; [apply in_time_only_kill_all|intros _].
    apply in_time_only_quiet, only_raise.
  - rewrite supervise_step. destruct (Qltb _ _).
    + apply in_time_only_bind;
        [apply in_time_only_quiet, only_call; intros []|intros _].
      apply in_time_only_bind;
        [apply in_time_only_quiet, only_call; intros []|intros _].
      apply in_time_only_bind; [apply in_time_only_poll_all|intros st'].
      apply in_time_only_bind;
        [apply in_time_only_quiet, only_ask; intros []|intros ts'].
      destruct (Nat.eqb _ _); [apply in_time_only_quiet, only_ret|apply IH].
    + apply in_time_only_bind; [apply in_time_only_kill_all|intros _].
      apply in_time_only_quiet, only_raise.
Qed.

End Polling_guard.

(** X17.  The executor asks a driver whether it has finished only
    when more than the [check_period] of the driver has passed since
    the drivers were started.  Each call to [flash_check_done] comes
    right after a reading of the clock; before it come the first
    starts of all the drivers of the plan, then the reading of the
    clock that gives [ts0]; and the [check_period] of the driver is
    below the difference of the two readings. *)
Theorem flash_parallel_do_polls_in_time E fuel p past s
    before i images ctx after :
  emitted (_flash_parallel_do E fuel p past s)
  = before ++ EvFlashCheckDone i images ctx :: after ->
  exists starts middle check_period retries,
    before = starts ++ EvTime :: middle ++ [EvTime]
    /\ Forall is_first_start starts
    /\ started_plan starts = p
    /\ cls i = impl2_c check_period retries
    /\ (check_period
        < time_time E (past ++ starts ++ EvTime :: middle)
          - time_time E (past ++ starts))%Q.
Proof.
  unfold _flash_parallel_do.
  set (st0 := {| contexts := ∅; max_estimated_duration := 0;
                 min_check_period := 4; all_images := [] |}).
  assert (Forall (fun e => ~ is_check_done e)
            (emitted (start_all E p st0 past s))) as Hquiet.
  { apply only_start_all. intros e He. now destruct e. }
  destruct (out (start_all E p st0 past s)) as [sd| |] eqn:Hs.
  - rewrite (bind_ok _ _ _ _ _ Hs). cbv zeta. cbn [emitted].
    destruct (start_all_ok E _ _ _ _ _ Hs) as [Hf Hp].
    set (starts := emitted (start_all E p st0 past s)) in *.
    unfold time_now. rewrite bind_ask. cbn [emitted].
    intros Heq.
    apply app_eq_split in Heq as [(l & Heq & ->)|(l & -> & Heq)].
    { exfalso. rewrite Heq in Hquiet. apply Forall_app in Hquiet as [_ Hq].
      apply Forall_cons in Hq as [Hq _]. now apply Hq. }
    destruct l as [|e0 l]; [discriminate|]. injection Heq as <- Heq.
    pose proof (in_time_only_supervise E (time_time E (past ++ starts)) p sd fuel
                  (time_time E (past ++ starts))
                  {| p_contexts := contexts sd; done := ∅; done_impls := ∅ |}
                  ((past ++ starts) ++ [EvTime])
                  (store (start_all E p st0 past s))) as Hg.
    destruct (Hg _ _ _ _ _ Heq) as (b' & cp & r & -> & Hc & Ht).
    exists starts, b', cp, r. repeat split; auto.
    rewrite <- !app_assoc in Ht. exact Ht.
  - rewrite (bind_err _ _ _ _ _ Hs). cbn [emitted]. intros Heq. exfalso.
    rewrite Heq in Hquiet. apply Forall_app in Hquiet as [_ Hq].
    apply Forall_cons in Hq as [Hq _]. now apply Hq.
  - rewrite (bind_fuel _ _ _ _ Hs). cbn [emitted]. intros Heq. exfalso.
    rewrite Heq in Hquiet. apply Forall_app in Hquiet as [_ Hq].
    apply Forall_cons in Hq as [Hq _]. now apply Hq.
Qed.

(** *** A verified driver is left alone *)

Section Left_alone.

Variable E : Env.

Lemma verified_in_app h evs1 evs2 verified :
  verified_in E h evs1 verified ->
  verified_in E (h ++ evs1) evs2 verified ->
  verified_in E h (evs1 ++ evs2) verified.
Proof.
  intros H1 H2 before i images ctx after Heq Hv.
  apply app_eq_split in Heq as [(l & Heq & ->)|(l & -> & Heq)].
  - apply (H1 _ _ _ _ _ Heq Hv).
  - rewrite app_assoc in Hv. apply (H2 _ _ _ _ _ Heq Hv).
Qed.

Lemma verified_in_more h evs verified verified' :
  verified ⊆ verified' -> verified_in E h evs verified ->
  verified_in E h evs verified'.
Proof.
  intros Hsub H before i images ctx after Heq Hv. eapply Hsub, H; eauto.
Qed.

Lemma left_alone_app verified verified' h evs1 evs2 :
  left_alone E verified h evs1 ->
  verified ⊆ verified' ->
  verified_in E h evs1 verified' ->
  left_alone E verified' (h ++ evs1) evs2 ->
  left_alone E verified h (evs1 ++ evs2).
Proof.
  intros [H1 H1'] Hsub Hv [H2 H2']. split.
  - apply Forall_app. split; [assumption|].
    eapply Forall_impl; [exact H2|]. intros e He id Hid. apply He.
    now apply Hsub.
  - intros before i images ctx after Heq Ho.
    apply app_eq_split in Heq as [(l & Heq & ->)|(l & -> & Heq)].
    + apply Forall_app. split; [apply (H1' _ _ _ _ _ Heq Ho)|].
      eapply Forall_impl; [exact H2|]. intros e He. apply He.
      apply (Hv _ _ _ _ _ Heq Ho).
    + rewrite app_assoc in Ho. apply (H2' _ _ _ _ _ Heq Ho).
Qed.

Lemma leaves_bind {A B} verified (m : M A) (f : A -> M B) v1 v2 :
  leaves E verified m v1 -> (forall a, leaves E (v1 a) (f a) v2) ->
  leaves E verified (bind m f) v2.
Proof.
  intros Hm Hf past s. destruct (Hm past s) as [Hl Hok]. unfold bind. cbv zeta.
  destruct (out (m past s)) as [a| |] eqn:Ho; cbn [out emitted];
    [|split; [assumption|discriminate]..].
  destruct (Hok a eq_refl) as [Hsub Hv].
  destruct (Hf a (past ++ emitted (m past s)) (store (m past s))) as [Hl' Hok'].
  split.
  - eapply left_alone_app; eauto.
  - intros b Hb. destruct (Hok' b Hb) as [Hsub' Hv']. split.
    + now transitivity (v1 a).
    + apply verified_in_app; [|assumption].
      eapply verified_in_more; eauto.
Qed.

Lemma alone_bind {A B} verified (m : M A) (f : A -> M B) v1 :
  leaves E verified m v1 -> (forall a, alone E (v1 a) (f a)) ->
  alone E verified (bind m f).
Proof.
  intros Hm Hf past s. destruct (Hm past s) as [Hl Hok]. unfold bind. cbv zeta.
  destruct (out (m past s)) as [a| |] eqn:Ho; cbn [out emitted];
    try assumption.
  destruct (Hok a eq_refl) as [Hsub Hv].
  eapply left_alone_app; eauto. apply Hf.
Qed.

(** Computations that neither start, poll nor verify a driver. *)
Lemma leaves_quiet {A} verified (m : M A) :
  only (fun e => forall id, ~ polls_driver id e) m ->
  leaves E verified m (fun _ => verified).
Proof.
  intros H past s. specialize (H past s). split; [split|].
  - eapply Forall_impl; [exact H|]. intros e He id _. apply He.
  - intros before i images ctx after Heq _. rewrite Heq in H.
    apply Forall_app in H as [_ H]. apply Forall_cons in H as [H _].
    exfalso. now apply (H (impl_id i)).
  - intros a _. split; [reflexivity|].
    intros before i images ctx after Heq _. rewrite Heq in H.
    apply Forall_app in H as [_ H]. apply Forall_cons in H as [H _].
    exfalso. now apply (H (impl_id i)).
Qed.

Lemma alone_quiet {A} verified (m : M A) :
  only (fun e => forall id, ~ polls_driver id e) m -> alone E verified m.
Proof. intros H past s. apply (leaves_quiet verified m H past s). Qed.

(** One event that is not a verification. *)
Lemma left_alone_one verified h e :
  (forall id, id ∈ verified -> ~ polls_driver id e) ->
  ~ is_post_check e ->
  left_alone E verified h [e] /\ verified_in E h [e] verified.
Proof.
  intros H Hn. split; [split|].
  - now constructor.
  - intros before i images ctx after Heq _.
    destruct before as [|b0 before]; simplify_eq/=; [now destruct Hn|].
    now destruct before.
  - intros before i images ctx after Heq _.
    destruct before as [|b0 before]; simplify_eq/=; [now destruct Hn|].
    now destruct before.
Qed.

Lemma leaves_call verified e ans :
  (forall id, id ∈ verified -> ~ polls_driver id e) ->
  ~ is_post_check e ->
  leaves E verified (call e ans) (fun _ => verified).
Proof.
  intros H Hn past s. destruct (left_alone_one verified past e H Hn) as [H1 H2].
  unfold call. destruct (ans past); cbn [out emitted]; (split; [assumption|]).
  - discriminate.
  - intros a _. now split.
Qed.

Lemma leaves_ask {A} verified e (ans : list event -> answer A) :
  (forall id, id ∈ verified -> ~ polls_driver id e) ->
  ~ is_post_check e ->
  leaves E verified (ask e ans) (fun _ => verified).
Proof.
  intros H Hn past s. destruct (left_alone_one verified past e H Hn) as [H1 H2].
  unfold ask. destruct (ans past); cbn [out emitted]; (split; [assumption|]).
  - intros a' _. now split.
  - discriminate.
Qed.

Lemma leaves_ret {A} verified (a : A) (v : A -> gset nat) :
  verified ⊆ v a -> leaves E verified (ret a) v.
Proof.
  intros H past s. split; [split|].
  - constructor.
  - intros before i images ctx after Heq. now destruct before.
  - intros a' Ha. injection Ha as <-. split; [assumption|].
    intros before i images ctx after Heq. now destruct before.
Qed.

Lemma leaves_raise {A} verified e (v : A -> gset nat) :
  leaves E verified (@raise A e) v.
Proof.
  intros past s. split; [split|].
  - constructor.
  - intros before i images ctx after Heq. now destruct before.
  - discriminate.
Qed.

(** The verification itself: the driver is verified when
    [flash_post_check] returns [None]. *)
Lemma leaves_post_check verified i images ctx :
  impl_id i ∉ verified ->
  leaves E verified (flash_post_check E i images ctx)
    (fun r => match r with
              | None => verified ∪ {[impl_id i]}
              | Some _ => verified
              end).
Proof.
  intros Hi. unfold flash_post_check. destruct (cls i); [apply leaves_raise|].
  intros past s. unfold ask.
  assert (left_alone E verified past [EvFlashPostCheck i images ctx]) as Hl.
  { split.
    - constructor; [|constructor]. intros id Hid Hp. simpl in Hp. congruence.
    - intros before j images' ctx' after Heq _.
      destruct before as [|b0 before]; simplify_eq/=; [constructor|].
      now destruct before. }
  destruct (drv_flash_post_check E i images ctx past) as [r|what] eqn:Ho;
    cbn [out emitted]; (split; [assumption|]); [|discriminate].
  intros a Ha. injection Ha as <-. split.
  - destruct r; [reflexivity|]. apply union_subseteq_l.
  - intros before j images' ctx' after Heq Hv.
    destruct before as [|b0 before]; simplify_eq/=; [|now destruct before].
    rewrite app_nil_r in Hv. rewrite Ho in Hv. injection Hv as ->.
    apply elem_of_union. right. now apply elem_of_singleton.
Qed.

Ltac alone_step :=
  match goal with
  | |- only _ (call _ _) => apply only_call; intros ? []
  | |- only _ (ask _ _) => apply only_ask; intros ? []
  | |- only _ (target_fsdb_set _ _ _) => apply only_fsdb_set; intros ? []
  | _ => only_step
  end.

Lemma alone_hash_record images :
  only (fun e => forall id, ~ polls_driver id e) (_hash_record E images).
Proof.
  induction images as [|[t n] images IH]; simpl; autounfold with flash_prims;
    repeat alone_step.
Qed.

Lemma alone_kill_all p contexts m :
  only (fun e => forall id, ~ polls_driver id e) (kill_all E p contexts m).
Proof.
  induction p as [|[i images] p IH]; simpl; autounfold with flash_prims;
    repeat alone_step.
Qed.

(** A driver that passes its verification joins [done_impls]; one that
    fails it is started again, or all are killed. *)
Lemma leaves_verify p i images ctx st :
  impl_id i ∉ done_impls st ->
  leaves E (done_impls st) (verify E p i images ctx st) done_impls.
Proof.
  intros Hi. unfold verify.
  eapply leaves_bind; [now apply leaves_post_check|].
  intros [d|].
  - eapply leaves_bind; [apply leaves_quiet; unfold get_retries; only_auto|].
    intros retries. cbv beta. destruct (retry_count ctx <=? retries)%Z.
    + eapply leaves_bind.
      * unfold flash_start. destruct (cls i); [apply leaves_quiet, only_raise|].
        apply leaves_call; [|intros []].
        intros id Hid Hp. simpl in Hp. congruence.
      * intros ?. now apply leaves_ret.
    + eapply leaves_bind; [apply leaves_quiet, alone_kill_all|].
      intros ?. apply leaves_raise.
  - eapply leaves_bind; [apply leaves_quiet, alone_hash_record|].
    intros ?. now apply leaves_ret.
Qed.

(** One pass over the drivers skips those of [done_impls]. *)
Lemma leaves_poll_all p loop_ts0 items :
  forall st,
    leaves E (done_impls st) (poll_all E p loop_ts0 items st) done_impls.
Proof.
  induction items as [|[i images] items IH]; intros st; simpl.
  - now apply leaves_ret.
  - destruct (decide (impl_id i ∈ done_impls st)) as [|Hi]; [apply IH|].
    eapply leaves_bind; [apply leaves_quiet; unfold contexts_get; only_auto|].
    intros ctx. cbv beta.
    eapply leaves_bind;
      [apply leaves_quiet; unfold time_now; apply only_ask; intros ? []|].
    intros ts. cbv beta.
    eapply leaves_bind;
      [apply leaves_quiet; unfold get_check_period; only_auto|].
    intros cp. cbv beta. destruct (Qltb _ _); [|apply IH].
    eapply leaves_bind.
    { unfold flash_check_done.
      destruct (cls i); [apply leaves_quiet, only_raise|].
      apply leaves_ask; [|intros []]. intros id Hid Hp. simpl in Hp.
      congruence. }
    intros [|]; [|apply IH].
    eapply leaves_bind; [now apply leaves_verify|]. intros st'. apply IH.
Qed.

Lemma alone_supervise p sd loop_ts0 fuel :
  forall ts st,
    alone E (done_impls st) (supervise E fuel p sd loop_ts0 ts st).
Proof.
  induction fuel as [|fuel IH]; intros ts st.
  - simpl. destruct (Qltb _ _); [apply alone_quiet, only_out_of_fuel|].
    eapply alone_bind; [apply leaves_quiet, alone_kill_all|].
    intros ?. apply alone_quiet, only_raise.
  - rewrite supervise_step. destruct (Qltb _ _).
    + eapply alone_bind;
        [apply leaves_quiet, only_call; intros ? []|intros ?].
      eapply alone_bind;
        [apply leaves_quiet, only_call; intros ? []|intros ?].
      eapply alone_bind; [apply leaves_poll_all|intros st'].
      eapply alone_bind;
        [apply leaves_quiet, only_ask; intros ? []|intros ts'].
      cbv beta. destruct (Nat.eqb _ _); [|apply IH].
      apply alone_quiet, only_ret.
    + eapply alone_bind; [apply leaves_quiet, alone_kill_all|].
      intros ?. apply alone_quiet, only_raise.
Qed.

Lemma leaves_start_all items :
  forall st, leaves E ∅ (start_all E items st) (fun _ => ∅).
Proof.
  induction items as [|[i images] items IH]; intros st.
  - now apply leaves_ret.
  - rewrite start_all_unfold.
    eapply leaves_bind;
      [apply leaves_quiet; unfold time_now; apply only_ask; intros ? []|].
    intros now_. cbv beta.
    eapply leaves_bind;
      [apply leaves_quiet; unfold get_check_period; only_auto|].
    intros cp. cbv beta.
    eapply leaves_bind.
    { unfold flash_start. destruct (cls i); [apply leaves_quiet, only_raise|].
      apply leaves_call; [|intros []]. intros id Hid.
      now apply not_elem_of_empty in Hid. }
    intros ?. apply IH.
Qed.

(** X18.  Once [flash_post_check] has returned [None] for a driver,
    the executor leaves the driver alone: in what follows, it does
    not call [flash_start], [flash_check_done] or [flash_post_check]
    on it again (it may still kill it, when another driver fails or
    the time is out). *)
Theorem flash_parallel_do_leaves_verified_alone fuel p past s
    before i images ctx after :
  emitted (_flash_parallel_do E fuel p past s)
  = before ++ EvFlashPostCheck i images ctx :: after ->
  drv_flash_post_check E i images ctx (past ++ before) = Returns None ->
  Forall (fun e => ~ polls_driver (impl_id i) e) after.
Proof.
  assert (alone E ∅ (_flash_parallel_do E fuel p)) as H.
  { unfold _flash_parallel_do.
    eapply alone_bind; [apply leaves_start_all|]. intros sd. cbv beta.
    eapply alone_bind;
      [apply leaves_quiet; unfold time_now; apply only_ask; intros ? []|].
    intros ts. cbv beta.
    apply (alone_supervise p sd ts fuel ts
             {| p_contexts := contexts sd; done := ∅; done_impls := ∅ |}). }
  destruct (H past s) as [_ H']. apply H'.
Qed.

End Left_alone.

(** The driver is first polled at the second iteration of the loop,
    four seconds after it was started. *)
Lemma flash_parallel_do_polls_in_time_witness :
  let e := Lab.env Lab.always_passes Lab.finished Lab.starts (fun _ => false)
             (Lab.registry_of (Lab.shell 1 2 0)) in
  let p := [(Lab.shell 1 2 0, [("rom", "fw.bin")])] in
  let r := _flash_parallel_do e 10 p [] ∅ in
  exists starts middle check_period retries,
    take 10 (emitted r) = starts ++ EvTime :: middle ++ [EvTime]
    /\ Forall is_first_start starts
    /\ started_plan starts = p
    /\ cls (Lab.shell 1 2 0) = impl2_c check_period retries
    /\ (check_period
        < time_time e ([] ++ starts ++ EvTime :: middle)
          - time_time e ([] ++ starts))%Q.
Proof.
  intros e p r.
  apply (flash_parallel_do_polls_in_time e 10%nat p [] ∅
           (take 10 (emitted r)) (Lab.shell 1 2 0) [("rom", "fw.bin")]
           {| ts0 := 0; retry_count := 1 |} (drop 11 (emitted r))).
  vm_compute. reflexivity.
Defined.

(** The driver passes its verification; what follows is the record of
    the hashes. *)
Lemma flash_parallel_do_leaves_verified_alone_witness :
  let e := Lab.env Lab.always_passes Lab.finished Lab.starts (fun _ => false)
             (Lab.registry_of (Lab.shell 1 2 0)) in
  let p := [(Lab.shell 1 2 0, [("rom", "fw.bin")])] in
  let r := _flash_parallel_do e 10 p [] ∅ in
  Forall (fun e => ~ polls_driver 1 e) (drop 12 (emitted r)).
Proof.
  intros e p r.
  apply (flash_parallel_do_leaves_verified_alone e 10%nat p [] ∅
           (take 11 (emitted r)) (Lab.shell 1 2 0) [("rom", "fw.bin")]
           {| ts0 := 0; retry_count := 1 |} (drop 12 (emitted r))).
  - vm_compute. reflexivity.
  - reflexivity.
Defined.

(** ** Reading an image back *)

Section Read_theorems.

Variable R : ReadEnv.

Lemma read_power_sequence_events sequence past :
  snd (read_power_sequence R sequence past) = read_power_events sequence.
Proof.
  destruct sequence as [[|step steps]|]; try reflexivity.
  simpl. unfold read_call. now destruct (read_power_sequence_run R _ _).
Qed.

(** There is no [try] statement in [get_flash]: what [flash_read]
    raises comes out as it is, after the calls made so far. *)
Lemma get_flash_read_fails self image image_offset read_bytes user_path past
    i img_type_real e evs :
  read_impl_get_by_name R image = Returns (i, img_type_real) ->
  fst (read_power_sequence R (self_power_sequence_pre self) past) = ReadOk tt ->
  flash_read R i img_type_real (path_join user_path "FIXME_temp")
    image_offset read_bytes
    (past ++ read_power_events (self_power_sequence_pre self))
  = (ReadErr e, evs) ->
  get_flash R self image image_offset read_bytes user_path past
  = (ReadErr e, read_power_events (self_power_sequence_pre self) ++ evs).
Proof.
  intros Hreg Hpre Hread. unfold get_flash, read_bind. rewrite Hreg.
  cbn [read_ret app]. rewrite app_nil_r.
  pose proof (read_power_sequence_events (self_power_sequence_pre self) past)
    as He.
  destruct (read_power_sequence R (self_power_sequence_pre self) past)
    as [r evs1]; cbn [fst snd] in He, Hpre; subst evs1 r.
  now rewrite Hread.
Qed.

(** X19.  When [get_flash] returns, the dictionary has the one key
    [stream_file], whose value is the file FIXME_temp of the storage
    area of the user, whatever image was asked for; the image type is
    registered, and the calls made are the pre power sequence of the
    interface (when there is one), one [flash_read] of the driver of
    the image type, with the real image type, that file, the offset
    and the count of the request, and the post power sequence (when
    there is one), in that order. *)
Theorem get_flash_returns self image image_offset read_bytes user_path past
    d evs :
  get_flash R self image image_offset read_bytes user_path past
  = (ReadOk d, evs) ->
  d = [("stream_file", path_join user_path "FIXME_temp")]
  /\ exists i img_type_real,
       read_impl_get_by_name R image = Returns (i, img_type_real)
       /\ evs = read_power_events (self_power_sequence_pre self)
                ++ [RdFlashRead i img_type_real
                      (path_join user_path "FIXME_temp") image_offset
                      read_bytes]
                ++ read_power_events (self_power_sequence_post self).
Proof.
  unfold get_flash, read_bind.
  destruct (read_impl_get_by_name R image) as [[i t]|what];
    [|intros H; discriminate].
  cbn [read_ret app].
  pose proof (read_power_sequence_events (self_power_sequence_pre self)
                (past ++ [])) as Hpre.
  destruct (read_power_sequence R (self_power_sequence_pre self) (past ++ []))
    as [[[]|e] evs1]; cbn [snd] in Hpre; subst evs1; [|intros H; discriminate].
  unfold flash_read.
  destruct (read_method R i) as [method|]; [|intros H; discriminate].
  unfold read_call at 1.
  destruct (method t _ image_offset read_bytes _); [intros H; discriminate|].
  match goal with
  | |- context [read_power_sequence R (self_power_sequence_post self) ?h] =>
      pose proof (read_power_sequence_events (self_power_sequence_post self) h)
        as Hpost;
      destruct (read_power_sequence R (self_power_sequence_post self) h)
        as [[[]|e] evs2]; cbn [snd] in Hpost; subst evs2;
      [|intros H; discriminate]
  end.
  cbn [read_ret]. intros H. injection H as <- <-. split; [reflexivity|].
  exists i, t. split; [reflexivity|]. now rewrite app_nil_r.
Qed.

(** X20.  Reading from a driver whose class inherits [flash_read] from
    [impl_c] raises [NotImplementedError], and only after the pre
    power sequence of the interface has run; the post power sequence
    is not run. *)
Theorem get_flash_not_implemented self image image_offset read_bytes user_path
    past i img_type_real :
  read_impl_get_by_name R image = Returns (i, img_type_real) ->
  read_method R i = None ->
  fst (read_power_sequence R (self_power_sequence_pre self) past) = ReadOk tt ->
  get_flash R self image image_offset read_bytes user_path past
  = (ReadErr (NotImplementedError "reading not implemented"),
     read_power_events (self_power_sequence_pre self)).
Proof.
  intros Hreg Hm Hpre.
  rewrite (get_flash_read_fails self image image_offset read_bytes user_path
             past i img_type_real
             (NotImplementedError "reading not implemented") []
             Hreg Hpre).
  - now rewrite app_nil_r.
  - unfold flash_read. now rewrite Hm.
Qed.

End Read_theorems.

(** The target is powered off, read and powered on. *)
Lemma get_flash_returns_witness :
  let r := get_flash (Bench.reader true) Bench.itf "bios" 0 None
             "/home/user" [] in
  let d := match fst r with ReadOk d => d | ReadErr _ => [] end in
  d = [("stream_file", path_join "/home/user" "FIXME_temp")]
  /\ exists i img_type_real,
       read_impl_get_by_name (Bench.reader true) "bios"
       = Returns (i, img_type_real)
       /\ snd r
          = read_power_events (self_power_sequence_pre Bench.itf)
            ++ [RdFlashRead i img_type_real
                  (path_join "/home/user" "FIXME_temp") 0 None]
            ++ read_power_events (self_power_sequence_post Bench.itf).
Proof.
  intros r d.
  apply (get_flash_returns (Bench.reader true) Bench.itf "bios" 0 None
           "/home/user" [] d (snd r)).
  vm_compute. reflexivity.
Defined.

(** The target is powered off and stays so. *)
Lemma get_flash_not_implemented_witness :
  get_flash (Bench.reader false) Bench.itf "bios" 0 None "/home/user" []
  = (ReadErr (NotImplementedError "reading not implemented"),
     read_power_events (self_power_sequence_pre Bench.itf)).
Proof.
  apply (get_flash_not_implemented (Bench.reader false) Bench.itf "bios" 0
           None "/home/user" [] (Lab.shell 1 2 0) "bios");
    reflexivity.
Defined.

(** ** The rounds of the supervision loop *)

Section Rounds.

Variable E : Env.

Lemma slept_before_app period evs1 evs2 :
  slept_before period evs1 -> slept_before period evs2 ->
  slept_before period (evs1 ++ evs2).
Proof.
  intros H1 H2 before i images ctx after Heq.
  apply app_eq_split in Heq as [(l & Heq & ->)|(l & -> & Heq)].
  - apply (H1 _ _ _ _ _ Heq).
  - destruct (H2 _ _ _ _ _ Heq) as (earlier & d & since & -> & Hd & Hs).
    exists (evs1 ++ earlier), d, since. split; [|now split].
    now rewrite <- app_assoc.
Qed.

Lemma slept_before_without period evs :
  Forall (fun e => ~ is_check_done e) evs -> slept_before period evs.
Proof.
  intros H before i images ctx after ->. apply Forall_app in H as [_ H].
  apply Forall_cons in H as [H _]. now destruct H.
Qed.

Lemma sleeping_bind period {A B} (m : M A) (f : A -> M B) :
  sleeping period m -> (forall a, sleeping period (f a)) ->
  sleeping period (bind m f).
Proof.
  intros Hm Hf past s. unfold bind. cbv zeta.
  destruct (out (m past s)); simpl; auto.
  apply slept_before_app; auto. apply Hf.
Qed.

Lemma sleeping_quiet period {A} (m : M A) :
  only (fun e => ~ is_check_done e) m -> sleeping period m.
Proof. intros H past s. apply slept_before_without, H. Qed.

(** The verification of a driver polls no driver and does not
    sleep. *)
Lemma only_verify_pass p i images ctx st :
  only (is_pass_of []) (verify E p i images ctx st).
Proof.
  assert (forall e, ~ is_sleep e -> ~ is_check_done e -> e <> EvTimestamp ->
                    is_pass_of [] e) as HP.
  { intros e H1 H2 H3. destruct e; simpl in *; solve [tauto|congruence]. }
  assert (only (is_pass_of []) (_hash_record E images)) as Hh.
  { apply only_hash_record. intros e He. now destruct e. }
  assert (forall contexts m, only (is_pass_of []) (kill_all E p contexts m))
    as Hk.
  { intros. apply only_kill_all. intros e He. now destruct e. }
  unfold verify. autounfold with flash_prims.
  repeat first
    [ exact Hh | apply Hk
    | apply only_ask; exact I | apply only_call; exact I
    | only_step ].
Qed.

Lemma is_pass_of_more items items' e :
  (forall id, id ∈ ids items -> id ∈ ids items') ->
  is_pass_of items e -> is_pass_of items' e.
Proof. intros H. destruct e; simpl; auto. Qed.

(** One pass polls the drivers it is given only. *)
Lemma only_poll_all_pass p loop_ts0 items :
  forall st, only (is_pass_of items) (poll_all E p loop_ts0 items st).
Proof.
  induction items as [|[i images] items IH]; intros st; simpl.
  - apply only_ret.
  - assert (forall st', only (is_pass_of ((i, images) :: items))
                          (poll_all E p loop_ts0 items st')) as IH'.
    { intros st'. eapply only_impl; [|apply IH].
      intros e. apply is_pass_of_more. intros id Hid. unfold ids. simpl.
      now right. }
    destruct (decide _); [apply IH'|].
    autounfold with flash_prims.
    repeat first
      [ apply IH'
      | apply only_ask; first [exact I|simpl; unfold ids; simpl; left]
      | eapply only_impl; [|apply only_verify_pass];
        intros e; apply is_pass_of_more; intros id Hid;
        now apply elem_of_nil in Hid
      | only_step ].
Qed.

(** One pass polls each of its drivers once at most, and does not
    sleep. *)
Lemma poll_all_once p loop_ts0 items :
  NoDup (ids items) ->
  forall st past s before i images ctx after,
    emitted (poll_all E p loop_ts0 items st past s)
    = before ++ EvFlashCheckDone i images ctx :: after ->
    Forall (fun e => ~ is_sleep e /\ ~ is_poll_of (impl_id i) e) before.
Proof.
  induction items as [|[j d] items IH]; intros Hnd st past s before i images
    ctx after Heq.
  - now destruct before.
  - unfold ids in Hnd. simpl in Hnd. apply NoDup_cons in Hnd as [Hj Hnd].
    fold (ids items) in Hj, Hnd. simpl in Heq.
    destruct (decide _); [now apply (IH Hnd _ _ _ _ _ _ _ _ Heq)|].
    revert Heq. unfold contexts_get.
    destruct (p_contexts st !! impl_id j) as [cj|];
      [|intros Heq; now destruct before].
    rewrite bind_ret. unfold time_now. rewrite bind_ask. cbn [emitted].
    unfold get_check_period.
    destruct (cls j) as [|cp r] eqn:Hcls.
    { intros Heq. destruct before as [|b0 before]; simplify_eq/=.
      now destruct before. }
    rewrite bind_ret.
    assert (forall st' past' s' before',
               emitted (poll_all E p loop_ts0 items st' past' s')
               = before' ++ EvFlashCheckDone i images ctx :: after ->
               impl_id i <> impl_id j) as Hother.
    { intros st' past' s' before' Heq Hij.
      pose proof (only_poll_all_pass p loop_ts0 items st' past' s') as Ho.
      rewrite Heq in Ho. apply Forall_app in Ho as [_ Ho].
      apply Forall_cons in Ho as [Ho _]. simpl in Ho. congruence. }
    destruct (Qltb _ _).
    + unfold flash_check_done. rewrite Hcls, bind_ask.
      destruct (drv_flash_check_done E j d cj _) as [finished|what];
        cbn [emitted].
      * intros Heq.
        destruct before as [|b0 [|b1 before]];
          [discriminate Heq
          |simplify_eq/=; repeat constructor; simpl; tauto|].
        simpl in Heq. injection Heq as <- <- Heq.
        destruct finished.
        -- (* the driver is verified, then the others are polled *)
           revert Heq. unfold bind at 1. cbv zeta.
           pose proof (only_verify_pass p j d cj st
                         (past ++ [EvTime] ++ [EvFlashCheckDone j d cj]) s)
             as Hv.
           rewrite <- app_assoc.
           destruct (out (verify E p j d cj st _ s)) as [st'| |];
             cbn [emitted]; intros Heq.
           ++ apply app_eq_split in Heq as [(l & Heq & _)|(l & -> & Heq)].
              { rewrite Heq in Hv. apply Forall_app in Hv as [_ Hv].
                apply Forall_cons in Hv as [Hv _]. simpl in Hv.
                unfold ids in Hv. simpl in Hv. now apply elem_of_nil in Hv. }
              pose proof (Hother _ _ _ _ Heq) as Hij.
              constructor; [simpl; tauto|].
              constructor; [simpl; split; [tauto|congruence]|].
              apply Forall_app. split.
              ** eapply Forall_impl; [exact Hv|]. intros e He.
                 destruct e; simpl in *; try tauto.
                 unfold ids in He. simpl in He.
                 now apply elem_of_nil in He.
              ** now apply (IH Hnd _ _ _ _ _ _ _ _ Heq).
           ++ exfalso. rewrite Heq in Hv. apply Forall_app in Hv as [_ Hv].
              apply Forall_cons in Hv as [Hv _]. simpl in Hv.
              unfold ids in Hv. simpl in Hv. now apply elem_of_nil in Hv.
           ++ exfalso. rewrite Heq in Hv. apply Forall_app in Hv as [_ Hv].
              apply Forall_cons in Hv as [Hv _]. simpl in Hv.
              unfold ids in Hv. simpl in Hv. now apply elem_of_nil in Hv.
        -- pose proof (Hother _ _ _ _ Heq) as Hij.
           constructor; [simpl; tauto|].
           constructor; [simpl; split; [tauto|congruence]|].
           now apply (IH Hnd _ _ _ _ _ _ _ _ Heq).
      * intros Heq.
        destruct before as [|b0 [|b1 before]]; simplify_eq/=.
        -- repeat constructor; simpl; tauto.
        -- now destruct before.
    + intros Heq. destruct before as [|b0 before]; [discriminate Heq|].
      simpl in Heq. injection Heq as <- Heq.
      constructor; [simpl; tauto|].
      now apply (IH Hnd _ _ _ _ _ _ _ _ Heq).
Qed.

Lemma sleeping_kill_all period p contexts m :
  sleeping period (kill_all E p contexts m).
Proof.
  apply sleeping_quiet, only_kill_all. intros e He. now destruct e.
Qed.

(** Each iteration of the loop sleeps, then polls. *)
Lemma sleeping_supervise p sd loop_ts0 fuel :
  NoDup (ids p) ->
  forall ts st,
    sleeping (min_check_period sd) (supervise E fuel p sd loop_ts0 ts st).
Proof.
  intros Hnd. induction fuel as [|fuel IH]; intros ts st.
  - simpl. destruct (Qltb _ _); [apply sleeping_quiet, only_out_of_fuel|].
    apply sleeping_bind; [apply sleeping_kill_all|intros _].
    apply sleeping_quiet, only_raise.
  - rewrite supervise_step. destruct (Qltb _ _).
    + intros past s. unfold target_timestamp, time_sleep.
      rewrite bind_call. cbn [emitted]. rewrite bind_call. cbn [emitted].
      set (h := (past ++ [EvTimestamp]) ++ [EvSleep (min_check_period sd)]).
      set (rest := fun st' : polled =>
                     ts' <- time_now E ;;
                     if Nat.eqb (size (done_impls st')) (length p) then ret tt
                     else supervise E fuel p sd loop_ts0 ts' st').
      assert (forall st', sleeping (min_check_period sd) (rest st')) as Hrest.
      { intros st'. unfold rest. apply sleeping_bind.
        - apply sleeping_quiet, only_ask. intros [].
        - intros ts'. destruct (Nat.eqb _ _); [|apply IH].
          apply sleeping_quiet, only_ret. }
      change (slept_before (min_check_period sd)
                (EvTimestamp :: EvSleep (min_check_period sd)
                   :: emitted (bind (poll_all E p loop_ts0 p st) rest h s))).
      intros before i images ctx after Heq.
      destruct before as [|b0 [|b1 before]]; try discriminate Heq.
      simpl in Heq. injection Heq as <- <- Heq.
      revert Heq. unfold bind. cbv zeta.
      destruct (out (poll_all E p loop_ts0 p st h s)) as [st'| |] eqn:Hp;
        cbn [emitted]; intros Heq.
      * apply app_eq_split in Heq as [(l & Heq & _)|(l & -> & Heq)].
        -- exists [], (min_check_period sd), before.
           split; [reflexivity|]. split; [reflexivity|].
           now apply (poll_all_once p loop_ts0 p Hnd _ _ _ _ _ _ _ _ Heq).
        -- destruct (Hrest st' _ _ _ _ _ _ _ Heq)
             as (earlier & d & since & -> & Hd & Hs).
           exists (EvTimestamp :: EvSleep (min_check_period sd)
                     :: emitted (poll_all E p loop_ts0 p st h s) ++ earlier),
             d, since.
           split; [|now split]. simpl. now rewrite <- app_assoc.
      * exists [], (min_check_period sd), before.
        split; [reflexivity|]. split; [reflexivity|].
        now apply (poll_all_once p loop_ts0 p Hnd _ _ _ _ _ _ _ _ Heq).
      * exists [], (min_check_period sd), before.
        split; [reflexivity|]. split; [reflexivity|].
        now apply (poll_all_once p loop_ts0 p Hnd _ _ _ _ _ _ _ _ Heq).
    + apply sleeping_bind; [apply sleeping_kill_all|intros _].
      apply sleeping_quiet, only_raise.
Qed.

Lemma slept_before_period period period' evs :
  (period == period')%Q -> slept_before period evs -> slept_before period' evs.
Proof.
  intros Hq H before i images ctx after Heq.
  destruct (H _ _ _ _ _ Heq) as (earlier & d & since & -> & Hd & Hs).
  exists earlier, d, since. split; [reflexivity|]. split; [|assumption].
  now rewrite Hd.
Qed.

(** C5, as the code has it: the supervision loop sleeps, between two
    polls, the lowest of 4 seconds and of the [check_period] of the
    drivers of the plan.  Every sleep of the executor lasts that long;
    and each call to [flash_check_done] comes after a refresh of the
    timestamp of the target and such a sleep, with neither another
    sleep nor another poll of the same driver in between: two polls of
    a driver are always separated by a sleep of that length, and so
    are the start of the drivers and their first poll. *)
Theorem flash_parallel_do_sleeps fuel p past s :
  NoDup (ids p) ->
  Forall (sleeps_for (lowest 4 (check_periods p)))
    (emitted (_flash_parallel_do E fuel p past s))
  /\ forall before i images ctx after,
       emitted (_flash_parallel_do E fuel p past s)
       = before ++ EvFlashCheckDone i images ctx :: after ->
       exists earlier seconds since,
         before = earlier ++ EvTimestamp :: EvSleep seconds :: since
         /\ (seconds == lowest 4 (check_periods p))%Q
         /\ Forall (fun e => ~ is_sleep e /\ ~ is_poll_of (impl_id i) e) since.
Proof.
  intros Hnd. split.
  - apply Forall_forall. intros e He. destruct e; try exact I.
    simpl. now apply (flash_parallel_do_sleep_length E fuel p past s).
  - change (slept_before (lowest 4 (check_periods p))
              (emitted (_flash_parallel_do E fuel p past s))).
    unfold _flash_parallel_do.
    set (st0 := {| contexts := ∅; max_estimated_duration := 0;
                   min_check_period := 4; all_images := [] |}).
    assert (Forall (fun e => ~ is_check_done e)
              (emitted (start_all E p st0 past s))) as Hquiet.
    { apply only_start_all. intros e He. now destruct e. }
    unfold bind at 1. cbv zeta.
    destruct (out (start_all E p st0 past s)) as [sd| |] eqn:Hs;
      cbn [emitted]; try now apply slept_before_without.
    apply slept_before_app; [now apply slept_before_without|].
    pose proof (start_all_min_check_period E p st0 past s sd Hs) as Hmin.
    simpl in Hmin.
    apply (slept_before_period (min_check_period sd)); [exact Hmin|].
    apply sleeping_bind.
    + apply sleeping_quiet, only_ask. intros [].
    + intros t0. now apply sleeping_supervise.
Qed.

End Rounds.

(** A single driver whose [check_period] is 10: its first poll comes
    in the third round, right after the third sleep of 4 seconds. *)
Lemma flash_parallel_do_sleeps_witness :
  let e := Lab.env Lab.always_passes Lab.finished Lab.starts (fun _ => false)
             (Lab.registry_of (Lab.shell 1 10 0)) in
  let p := [(Lab.shell 1 10 0, [("rom", "fw.bin")])] in
  let r := _flash_parallel_do e 10 p [] ∅ in
  Forall (sleeps_for (lowest 4 (check_periods p))) (emitted r)
  /\ exists earlier seconds since,
       take 14 (emitted r) = earlier ++ EvTimestamp :: EvSleep seconds :: since
       /\ (seconds == lowest 4 (check_periods p))%Q
       /\ Forall (fun e => ~ is_sleep e /\ ~ is_poll_of 1 e) since.
Proof.
  intros e p r.
  assert (NoDup (ids p)) as Hnd.
  { repeat constructor. intros H. inversion H. }
  destruct (flash_parallel_do_sleeps e 10%nat p [] ∅ Hnd) as [Hall Hpoll].
  split; [exact Hall|].
  apply (Hpoll (take 14 (emitted r)) (Lab.shell 1 10 0) [("rom", "fw.bin")]
           {| ts0 := 0; retry_count := 1 |} (drop 15 (emitted r))).
  vm_compute. reflexivity.
Defined.

(** ** The records of what was flashed *)

Section Recording.

Variable E : Env.

Lemma records_quiet {A} (m : M A) :
  only (fun e => ~ is_post_check e) m -> records E m.
Proof.
  intros H past s before i images ctx after Heq _. exfalso.
  specialize (H past s). rewrite Heq in H.
  apply Forall_app in H as [_ H]. apply Forall_cons in H as [H _].
  now apply H.
Qed.

Lemma records_bind {A B} (m : M A) (f : A -> M B) :
  records E m -> (forall a, records E (f a)) -> records E (bind m f).
Proof.
  intros Hm Hf past s before i images ctx after. unfold bind. cbv zeta.
  specialize (Hm past s).
  destruct (out (m past s)) as [a| |] eqn:Ho; cbn [emitted out].
  - intros Heq Hpc.
    apply app_eq_split in Heq as [(l & Heq & ->)|(l & -> & Heq)].
    + destruct (Hm _ _ _ _ _ Heq Hpc) as (rest & -> & [Hr|[what Hr]]).
      * exists (rest ++ emitted (f a (past ++ emitted (m past s))
                                  (store (m past s)))).
        split; [symmetry; apply app_assoc|now left].
      * congruence.
    + rewrite app_assoc in Hpc.
      destruct (Hf a _ _ _ _ _ _ _ Heq Hpc) as (rest & -> & Hr).
      exists rest. rewrite !app_assoc. now split.
  - intros Heq Hpc. destruct (Hm _ _ _ _ _ Heq Hpc) as (rest & -> & Hr).
    exists rest. rewrite Ho in Hr. split; [reflexivity|].
    destruct Hr as [Hr|[what Hr]]; [now left|right].
    exists what. congruence.
  - intros Heq Hpc. destruct (Hm _ _ _ _ _ Heq Hpc) as (rest & -> & Hr).
    exists rest. rewrite Ho in Hr. split; [reflexivity|].
    destruct Hr as [Hr|[what Hr]]; [now left|discriminate].
Qed.

(** What the recorder does depends on the calls made so far, not on
    the metadata store. *)
Lemma hash_record_store_irrelevant images :
  forall past s s',
    emitted (_hash_record E images past s)
    = emitted (_hash_record E images past s')
    /\ out (_hash_record E images past s) = out (_hash_record E images past s').
Proof.
  induction images as [|[t n] images IH]; intros past s s'.
  - now split.
  - rewrite !hash_record_cons, !bind_hash_file.
    destruct (file_contents E n past) as [l|]; [|now split].
    rewrite ?bind_fsdb_set.
    destruct (fsdb_set E (key_last_sha512 t) _ _); [now split|].
    rewrite ?bind_fsdb_set.
    destruct (fsdb_set E (key_last_name t) _ _); [now split|].
    cbn [emitted out].
    destruct (IH ((((past ++ [EvHashFile n])
                      ++ [EvFsdbSet (key_last_sha512 t) (sha512_hexdigest E l)])
                     ++ [EvFsdbSet (key_last_name t) n]))
                (<[key_last_name t := n]>
                   (<[key_last_sha512 t := sha512_hexdigest E l]> s))
                (<[key_last_name t := n]>
                   (<[key_last_sha512 t := sha512_hexdigest E l]> s')))
      as [-> ->].
    now split.
Qed.

(** The recorder raises what its collaborators raise only. *)
Lemma hash_record_raises images past s e :
  out (_hash_record E images past s) = Err e -> is_raised e.
Proof.
  revert past s e. change (throws is_raised (_hash_record E images)).
  assert (forall what, is_raised (Raised what)) as passes_on
    by exact (fun _ => I).
  apply (safe_throws _ anything).
  induction images as [|[t n] images IH]; simpl.
  - safe_step.
  - unfold hash_file_hexdigest. repeat safe_step. exact IH.
Qed.

Lemma records_verify p i images ctx st : records E (verify E p i images ctx st).
Proof.
  intros past s before j images' ctx' after.
  assert (Forall (fun e => ~ is_post_check e)
            (emitted (_hash_record E images
                        (past ++ [EvFlashPostCheck i images ctx]) s)))
    as Hquiet.
  { apply only_hash_record. intros e He. now destruct e. }
  unfold verify, flash_post_check.
  destruct (cls i) as [|cp r]; [intros Heq; now destruct before|].
  rewrite bind_ask.
  destruct (drv_flash_post_check E i images ctx past) as [[d|]|what] eqn:Hpc;
    cbn [emitted out].
  - (* the verification failed *)
    intros Heq Hnone.
    destruct before as [|b0 before].
    + injection Heq as <- <- <- _. rewrite app_nil_r in Hnone. congruence.
    + exfalso. injection Heq as _ Heq.
      assert (Forall (fun e => ~ is_post_check e)
                (before ++ EvFlashPostCheck j images' ctx' :: after)) as H.
      { rewrite <- Heq. unfold get_retries.
        destruct (cls i); [constructor|]. rewrite bind_ret.
        destruct (retry_count ctx <=? _)%Z.
        - apply only_bind; [|intros _; apply only_ret].
          unfold flash_start. destruct (cls i); [apply only_raise|].
          apply only_call. intros [].
        - apply only_bind; [|intros _; apply only_raise].
          apply only_kill_all. intros e He. now destruct e. }
      apply Forall_app in H as [_ H]. apply Forall_cons in H as [H _].
      now apply H.
  - (* the verification passed *)
    intros Heq _.
    destruct before as [|b0 before].
    + injection Heq as <- <- <- Heq. subst after. rewrite app_nil_r.
      destruct (hash_record_store_irrelevant images
                  (past ++ [EvFlashPostCheck i images ctx]) s ∅) as [He Ho].
      rewrite <- He, <- Ho. unfold bind. cbv zeta.
      destruct (out (_hash_record E images _ s)) as [[]|e|] eqn:Hr;
        cbn [emitted out].
      * exists []. split; [reflexivity|now left].
      * exists []. split; [now rewrite app_nil_r|right].
        apply hash_record_raises in Hr. destruct e; try contradiction.
        now exists what.
      * now apply ends_hash_record in Hr.
    + exfalso. injection Heq as _ Heq.
      assert (Forall (fun e => ~ is_post_check e)
                (before ++ EvFlashPostCheck j images' ctx' :: after)) as H.
      { rewrite <- Heq. apply only_bind; [|intros _; apply only_ret].
        apply only_hash_record. intros e He. now destruct e. }
      apply Forall_app in H as [_ H]. apply Forall_cons in H as [H _].
      now apply H.
  - intros Heq Hnone.
    destruct before as [|b0 before].
    + injection Heq as <- <- <- _. rewrite app_nil_r in Hnone. congruence.
    + injection Heq as _ Heq. now destruct before.
Qed.

Lemma records_poll_all p loop_ts0 items :
  forall st, records E (poll_all E p loop_ts0 items st).
Proof.
  induction items as [|[i images] items IH]; intros st; simpl.
  - apply records_quiet, only_ret.
  - destruct (decide _); [apply IH|].
    apply records_bind;
      [apply records_quiet; unfold contexts_get; only_auto|intros ctx].
    apply records_bind;
      [apply records_quiet, only_ask; intros []|intros ts].
    apply records_bind;
      [apply records_quiet; unfold get_check_period; only_auto|intros cp].
    destruct (Qltb _ _); [|apply IH].
    apply records_bind.
    { apply records_quiet. unfold flash_check_done.
      destruct (cls i); [apply only_raise|apply only_ask; intros []]. }
    intros [|]; [|apply IH].
    apply records_bind; [apply records_verify|intros st'; apply IH].
Qed.

Lemma records_kill_all p contexts m : records E (kill_all E p contexts m).
Proof.
  apply records_quiet, only_kill_all. intros e He. now destruct e.
Qed.

Lemma records_supervise p sd loop_ts0 fuel :
  forall ts st, records E (supervise E fuel p sd loop_ts0 ts st).
Proof.
  induction fuel as [|fuel IH]; intros ts st.
  - simpl. destruct (Qltb _ _); [apply records_quiet, only_out_of_fuel|].
    apply records_bind; [apply records_kill_all|intros _].
    apply records_quiet, only_raise.
  - rewrite supervise_step. destruct (Qltb _ _).
    + apply records_bind;
        [apply records_quiet, only_call; intros []|intros _].
      apply records_bind;
        [apply records_quiet, only_call; intros []|intros _].
      apply records_bind; [apply records_poll_all|intros st'].
      apply records_bind;
        [apply records_quiet, only_ask; intros []|intros ts'].
      destruct (Nat.eqb _ _); [apply records_quiet, only_ret|apply IH].
    + apply records_bind; [apply records_kill_all|intros _].
      apply records_quiet, only_raise.
Qed.

Lemma records_flash_parallel_do fuel p : records E (_flash_parallel_do E fuel p).
Proof.
  unfold _flash_parallel_do.
  apply records_bind.
  - apply records_quiet, only_start_all. intros e He. now destruct e.
  - intros sd. apply records_bind;
      [apply records_quiet, only_ask; intros []|intros t0].
    apply records_supervise.
Qed.

(** What the recorder does for one image, when it returns. *)
Lemma hash_record_image images :
  forall past s image_type name,
    out (_hash_record E images past s) = Ok tt ->
    (image_type, name) ∈ images ->
    exists mid rest bytes,
      emitted (_hash_record E images past s)
      = mid ++ EvHashFile name
          :: EvFsdbSet (key_last_sha512 image_type) (sha512_hexdigest E bytes)
          :: EvFsdbSet (key_last_name image_type) name :: rest
      /\ Forall is_hash_record mid
      /\ file_contents E name (past ++ mid) = Returns bytes
      /\ fsdb_set E (key_last_sha512 image_type) (sha512_hexdigest E bytes)
           ((past ++ mid) ++ [EvHashFile name]) = None
      /\ fsdb_set E (key_last_name image_type) name
           (((past ++ mid) ++ [EvHashFile name])
              ++ [EvFsdbSet (key_last_sha512 image_type)
                    (sha512_hexdigest E bytes)]) = None.
Proof.
  induction images as [|[t n] images IH]; intros past s image_type name Hok Hin.
  - inversion Hin.
  - rewrite hash_record_cons, bind_hash_file in *.
    destruct (file_contents E n past) as [bytes|] eqn:Hbytes;
      try discriminate.
    rewrite bind_fsdb_set in *.
    destruct (fsdb_set E (key_last_sha512 t) _ _) eqn:Hsha; [discriminate|].
    rewrite bind_fsdb_set in *.
    destruct (fsdb_set E (key_last_name t) _ _) eqn:Hname; [discriminate|].
    cbn [emitted out] in *.
    apply elem_of_cons in Hin as [Heq|Hin].
    + injection Heq as -> ->. eexists [], _, bytes.
      split; [reflexivity|]. split; [constructor|].
      rewrite !app_nil_r. now repeat split.
    + destruct (IH _ _ _ _ Hok Hin)
        as (mid & rest & bytes' & -> & Hm & Hf & Hs & Hn).
      exists ([EvHashFile n;
               EvFsdbSet (key_last_sha512 t) (sha512_hexdigest E bytes);
               EvFsdbSet (key_last_name t) n] ++ mid), rest, bytes'.
      split; [reflexivity|]. split.
      { repeat (constructor; [exact I|]). exact Hm. }
      assert ((((past ++ [EvHashFile n])
                  ++ [EvFsdbSet (key_last_sha512 t) (sha512_hexdigest E bytes)])
                 ++ [EvFsdbSet (key_last_name t) n]) ++ mid
              = past ++ [EvHashFile n;
                         EvFsdbSet (key_last_sha512 t)
                           (sha512_hexdigest E bytes);
                         EvFsdbSet (key_last_name t) n] ++ mid) as Hh
        by now rewrite <- !app_assoc.
      rewrite Hh in Hf, Hs, Hn. now repeat split.
Qed.


Lemma records_try_finally {A} (body : M A) (handler : M unit) :
  records E body ->
  only (fun e => ~ is_post_check e) handler ->
  throws is_raised handler ->
  ends handler ->
  records E (try_finally body handler).
Proof.
  intros Hb Hh Ht Hends past s before i images ctx after.
  unfold try_finally. cbv zeta.
  specialize (Hb past s).
  specialize (Hh (past ++ emitted (body past s)) (store (body past s))).
  specialize (Ht (past ++ emitted (body past s)) (store (body past s))).
  assert (forall (o : outcome A),
             (forall what, out (body past s) = Err (Raised what) ->
                           exists what', o = Err (Raised what')) ->
             emitted (body past s)
               ++ emitted (handler (past ++ emitted (body past s))
                             (store (body past s)))
             = before ++ EvFlashPostCheck i images ctx :: after ->
             drv_flash_post_check E i images ctx (past ++ before)
             = Returns None ->
             exists rest,
               after
               = emitted (_hash_record E images
                            ((past ++ before)
                               ++ [EvFlashPostCheck i images ctx]) ∅)
                 ++ rest
               /\ (out (_hash_record E images
                          ((past ++ before)
                             ++ [EvFlashPostCheck i images ctx]) ∅) = Ok tt
                   \/ exists what, o = Err (Raised what))) as Hboth.
  { intros o Ho Heq Hpc.
    apply app_eq_split in Heq as [(l & Heq & ->)|(l & -> & Heq)].
    - destruct (Hb _ _ _ _ _ Heq Hpc) as (rest & -> & [Hr|[what Hr]]).
      + eexists. split; [symmetry; apply app_assoc|now left].
      + eexists. split; [symmetry; apply app_assoc|right]. eauto.
    - exfalso. rewrite Heq in Hh. apply Forall_app in Hh as [_ Hh].
      apply Forall_cons in Hh as [Hh _]. now apply Hh. }
  destruct (out (body past s)) as [a|e|] eqn:Ho; cbn [emitted out].
  - destruct (out (handler _ _)) as [[]|e'|] eqn:Hho; cbn [emitted out];
      apply Hboth; intros what Hw; discriminate.
  - destruct (out (handler _ _)) as [[]|e'|] eqn:Hho; cbn [emitted out];
      apply Hboth; intros what Hw.
    + eauto.
    + specialize (Ht e' eq_refl). destruct e'; try contradiction. eauto.
    + now apply Hends in Hho.
  - intros Heq Hpc.
    destruct (Hb _ _ _ _ _ Heq Hpc) as (rest & -> & [Hr|[what Hr]]);
      [|congruence].
    exists rest. split; [reflexivity|now left].
Qed.

Lemma consoles_enable_raises p : throws is_raised (_flash_consoles_enable E p).
Proof.
  assert (forall what, is_raised (Raised what)) as passes_on
    by exact (fun _ => I).
  apply (safe_throws _ anything).
  induction p as [|[i d] p IH]; simpl; [safe_step|].
  apply (safe_bind _ anything); [|intros _ _; exact IH].
  induction (consoles_disable i) as [|c l IHl]; simpl; [safe_step|].
  unfold target_console_put_enable at 1. safe_step. exact IHl.
Qed.

Lemma records_flash_parallel fuel p pre post_ :
  records E (_flash_parallel E fuel p pre post_).
Proof.
  assert (forall what, is_raised (Raised what)) as passes_on
    by exact (fun _ => I).
  assert (forall sequence : option power_sequence,
             only (fun e => ~ is_post_check e)
               match sequence with
               | Some (step :: steps) => target_power_sequence E (step :: steps)
               | _ => ret tt
               end) as Hseq.
  { intros [[|step steps]|]; try apply only_ret.
    apply only_call. intros []. }
  assert (forall q, only (fun e => ~ is_post_check e)
                      (_flash_consoles_enable E q)) as Hen.
  { intros q. apply only_flashing_consoles_enable; intros e He;
      destruct e; simpl in *; tauto. }
  unfold _flash_parallel.
  apply records_bind; [apply records_quiet, Hseq|intros _].
  destruct p as [|x p'].
  - apply records_quiet. intros past s.
    unfold try_finally, log_image_names_impl. rewrite !bind_raise.
    constructor.
  - set (p := x :: p').
    change (log_image_names_impl p) with (@ret unit tt).
    apply records_try_finally.
    + apply records_bind; [apply records_quiet, only_ret|intros _].
      apply records_bind; [|intros _; apply records_flash_parallel_do].
      apply records_quiet. apply only_flashing_consoles_disable; intros e He;
        destruct e; simpl in *; tauto.
    + apply only_bind; [apply only_ret|intros _].
      apply only_bind; [apply Hen|intros _; apply Hseq].
    + apply (safe_throws _ anything). safe_step.
      apply (safe_bind _ anything).
      * apply safe_intro; [apply consoles_enable_raises|].
        intros ? ? ? _. exact I.
      * intros _ _. destruct post_ as [[|step steps]|]; try safe_step.
        unfold target_power_sequence. safe_step.
    + apply ends_bind; [apply ends_ret|intros _].
      apply ends_bind; [apply ends_flash_consoles_enable|intros _].
      destruct post_ as [[|step steps]|]; try apply ends_ret.
      apply ends_call.
Qed.

Lemma records_flash_serial fuel serial : records E (flash_serial E fuel serial).
Proof.
  induction serial as [|[i d] serial IH]; simpl.
  - apply records_quiet, only_ret.
  - apply records_bind; [apply records_flash_parallel|intros _; exact IH].
Qed.

Lemma records_put_flash fuel self images user_path :
  records E (put_flash E fuel self images user_path).
Proof.
  unfold put_flash. apply records_bind.
  - apply records_quiet. eapply only_impl; [|apply only_classify].
    intros e He. now destruct e.
  - intros [serial par].
    apply records_bind;
      [apply records_quiet, only_call; intros []|intros _].
    apply records_bind; [apply records_flash_serial|intros _].
    apply records_bind; [|intros _; apply records_quiet, only_ret].
    destruct par; [apply records_quiet, only_ret|].
    apply records_flash_parallel.
Qed.


End Recording.


